(** * Static loop scheduling of the OpenMP runtime (kmp_sched.cpp)

    A shallow embedding of the three bound solvers of
    contrib/libs/cxxsupp/openmp/kmp_sched.cpp:

    - [__kmp_for_static_init]       (single level, threads of one team),
    - [__kmp_dist_for_static_init]  (two levels, teams then threads),
    - [__kmp_team_static_init]      (team chunk of dist_schedule(static,chunk)),

    over the four loop-variable types the templates are instantiated at.
    Machine integers are mathematical integers kept inside the range of
    their C++ type; every arithmetic operation is performed in the type the
    usual arithmetic conversions of C++ select and wraps around (two's
    complement, also for the signed types, as the compilers the runtime is
    built with do). *)

From Stdlib Require Import ZArith Lia List Bool.
Import ListNotations.
Local Open Scope Z_scope.

(** ** Integer types *)

Module CInt.

(** The loop-variable types [T] of the templates. *)
Inductive int_kind : Type :=
| kmp_int32
| kmp_uint32
| kmp_int64
| kmp_uint64.

Definition bits (T : int_kind) : Z :=
  match T with
  | kmp_int32 | kmp_uint32 => 32
  | kmp_int64 | kmp_uint64 => 64
  end.

Definition is_signed (T : int_kind) : bool :=
  match T with
  | kmp_int32 | kmp_int64 => true
  | kmp_uint32 | kmp_uint64 => false
  end.

Definition modulus (T : int_kind) : Z :=
  match T with
  | kmp_int32 | kmp_uint32 => 4294967296
  | kmp_int64 | kmp_uint64 => 18446744073709551616
  end.

(** [i_maxmin< T >::mx] and [i_maxmin< T >::mn]. *)
Definition mx (T : int_kind) : Z :=
  match T with
  | kmp_int32 => 2147483647               (* 0x7fffffff *)
  | kmp_uint32 => 4294967295              (* 0xffffffff *)
  | kmp_int64 => 9223372036854775807      (* 0x7fffffffffffffffLL *)
  | kmp_uint64 => 18446744073709551615    (* 0xffffffffffffffffLL *)
  end.

Definition mn (T : int_kind) : Z :=
  match T with
  | kmp_int32 => -2147483648              (* 0x80000000 read as int *)
  | kmp_uint32 => 0
  | kmp_int64 => -9223372036854775808     (* 0x8000000000000000LL read as long long *)
  | kmp_uint64 => 0
  end.

(** [traits_t< T >::signed_t] and [traits_t< T >::unsigned_t]. *)
Definition signed_t (T : int_kind) : int_kind :=
  match T with
  | kmp_int32 | kmp_uint32 => kmp_int32
  | kmp_int64 | kmp_uint64 => kmp_int64
  end.

Definition unsigned_t (T : int_kind) : int_kind :=
  match T with
  | kmp_int32 | kmp_uint32 => kmp_uint32
  | kmp_int64 | kmp_uint64 => kmp_uint64
  end.

(** The representative of [x] modulo [m] in the window [[lo, lo + m)]. *)
Definition wrapw (lo m x : Z) : Z := lo + (x - lo) mod m.

(** Conversion of an integer to type [T]. *)
Definition wrap (T : int_kind) (x : Z) : Z := wrapw (mn T) (modulus T) x.

Definition in_range (T : int_kind) (x : Z) : Prop := mn T <= x <= mx T.

(** The type in which a binary operator is evaluated (usual arithmetic
    conversions; all four types have at least the rank of [int], so no
    integral promotion takes place). *)
Definition common (A B : int_kind) : int_kind :=
  if bits A =? bits B then
    (if is_signed A && is_signed B then A else unsigned_t A)
  else if bits A <? bits B then B else A.

(** A typed value of an expression. *)
Record cint : Type := mk_cint { cty : int_kind; cval : Z }.

(** A variable or parameter of type [T] holding [z]. *)
Definition var (T : int_kind) (z : Z) : cint := mk_cint T z.

(** An [int] literal. *)
Definition lit (z : Z) : cint := mk_cint kmp_int32 z.

(** Conversion (cast, assignment or initialisation) to type [T]. *)
Definition conv (T : int_kind) (x : cint) : cint :=
  mk_cint T (wrap T (cval x)).

Definition arith (f : Z -> Z -> Z) (x y : cint) : cint :=
  let t := common (cty x) (cty y) in
  mk_cint t (wrap t (f (wrap t (cval x)) (wrap t (cval y)))).

Definition add : cint -> cint -> cint := arith Z.add.
Definition sub : cint -> cint -> cint := arith Z.sub.
Definition mul : cint -> cint -> cint := arith Z.mul.

(** Unary minus. *)
Definition neg (x : cint) : cint :=
  mk_cint (cty x) (wrap (cty x) (- cval x)).

(** [/] and [%]: truncating for signed operands, flooring (which is the
    same on non-negative numbers) for unsigned ones. *)
Definition div (x y : cint) : cint :=
  let t := common (cty x) (cty y) in
  let a := wrap t (cval x) in
  let b := wrap t (cval y) in
  mk_cint t (wrap t (if is_signed t then Z.quot a b else Z.div a b)).

Definition rem (x y : cint) : cint :=
  let t := common (cty x) (cty y) in
  let a := wrap t (cval x) in
  let b := wrap t (cval y) in
  mk_cint t (wrap t (if is_signed t then Z.rem a b else Z.modulo a b)).

Definition cmp (f : Z -> Z -> bool) (x y : cint) : bool :=
  let t := common (cty x) (cty y) in
  f (wrap t (cval x)) (wrap t (cval y)).

Definition lt : cint -> cint -> bool := cmp Z.ltb.
Definition le : cint -> cint -> bool := cmp Z.leb.
Definition gt : cint -> cint -> bool := cmp Z.gtb.
Definition ge : cint -> cint -> bool := cmp Z.geb.
Definition eq : cint -> cint -> bool := cmp Z.eqb.
Definition ne (x y : cint) : bool := negb (eq x y).

(** A scalar used as a condition. *)
Definition truthy (x : cint) : bool := negb (cval x =? 0).

(** [c ? x : y] where both arms are arithmetic: the result has the common
    type of the arms. *)
Definition cond (c : bool) (x y : cint) : cint :=
  let t := common (cty x) (cty y) in
  mk_cint t (wrap t (cval (if c then x else y))).

(** A [bool] or comparison result used as an integer. *)
Definition of_bool (b : bool) : cint := lit (if b then 1 else 0).

End CInt.

Import CInt.

Declare Scope cint_scope.
Delimit Scope cint_scope with cint.
Infix "+" := add : cint_scope.
Infix "-" := sub : cint_scope.
Infix "*" := mul : cint_scope.
Infix "/" := div : cint_scope.
Infix "%%" := rem (at level 40, left associativity) : cint_scope.
Notation "- x" := (neg x) : cint_scope.
Infix "<" := lt : cint_scope.
Infix "<=" := le : cint_scope.
Infix ">" := gt : cint_scope.
Infix ">=" := ge : cint_scope.
Infix "==" := eq (at level 70, no associativity) : cint_scope.
Infix "!=" := ne (at level 70, no associativity) : cint_scope.

(** ** Effects: what the solvers do besides computing bounds *)

(** Message identifiers handed to [__kmp_error_construct]. *)
Inductive kmp_i18n_id : Type :=
| kmp_i18n_msg_CnsLoopIncrZeroProhibited
| kmp_i18n_msg_CnsIterationRangeTooLarge
| kmp_i18n_msg_CnsLoopIncrIllegal.

(** The operand a [/] or [%] divides by. *)
Inductive divisor_operand : Type :=
| by_incr       (* incr *)
| by_neg_incr   (* -incr *)
| by_nth        (* nth *)
| by_nteams     (* nteams *)
| by_chunk.     (* (UT)chunk *)

(** Observable actions, in program order.  [Ev_div line d a b] records
    that the [/] or [%] on source line [line] was evaluated with dividend
    [a] and divisor [b] (both already converted to the type of the
    operation); the quotient the model uses for [b = 0] is immaterial,
    the source has no defined behaviour there. *)
Inductive event : Type :=
| Ev_push_workshare                                  (* __kmp_push_workshare(gtid, ct_pdo, loc) *)
| Ev_error (id : kmp_i18n_id)                        (* __kmp_error_construct(id, ct_pdo, loc) *)
| Ev_assert_fail                                     (* KMP_ASSERT2(0, ...) *)
| Ev_div (line : Z) (d : divisor_operand) (a b : Z)
| Ev_itt_metadata_loop (trip_count cur_chunk : Z).   (* __kmp_itt_metadata_loop(loc, 0, ...) *)

(** A computation yields a value and the actions it performed. *)
Definition M (A : Type) : Type := (A * list event)%type.

Definition ret {A : Type} (a : A) : M A := (a, []).

Definition bind {A B : Type} (m : M A) (f : A -> M B) : M B :=
  let (b, l) := f (fst m) in (b, snd m ++ l).

Definition emit (e : event) : M unit := (tt, [e]).

Notation "x <- m ;; k" := (bind m (fun x => k))
  (at level 61, m at next level, right associativity).
Notation "m ;;; k" := (bind m (fun _ => k))
  (at level 61, right associativity).

Definition when (c : bool) (m : M unit) : M unit := if c then m else ret tt.

(** [x / y] and [x % y] on source line [line]. *)
Definition divide (line : Z) (d : divisor_operand) (x y : cint) : M cint :=
  let t := common (cty x) (cty y) in
  emit (Ev_div line d (wrap t (cval x)) (wrap t (cval y))) ;;;
  ret (x / y)%cint.

Definition modulo (line : Z) (d : divisor_operand) (x y : cint) : M cint :=
  let t := common (cty x) (cty y) in
  emit (Ev_div line d (wrap t (cval x)) (wrap t (cval y))) ;;;
  ret (x %% y)%cint.

(** ** The runtime context the solvers read *)

(** The enumerators of [enum sched_type] the solvers mention.  The
    enumeration is declared in kmp.h; the solvers are parameterised by
    its values. *)
Record sched_enum : Type := {
  kmp_sch_static_chunked : Z;
  kmp_sch_static : Z;
  kmp_sch_static_greedy : Z;
  kmp_sch_static_balanced : Z;
  kmp_ord_upper : Z;
  kmp_distribute_static : Z
}.

(** The values kmp.h gives them. *)
Definition kmp_h : sched_enum := {|
  kmp_sch_static_chunked := 33;
  kmp_sch_static := 34;
  kmp_sch_static_greedy := 40;
  kmp_sch_static_balanced := 41;
  kmp_ord_upper := 72;
  kmp_distribute_static := 92
|}.

(** Global settings. *)
Record kmp_globals : Type := {
  __kmp_env_consistency_check : bool;
  __kmp_static : Z;                   (* kmp_sch_static_greedy or kmp_sch_static_balanced *)
  USE_ITT_BUILD : bool;               (* build option *)
  __itt_metadata_add_ptr : bool;      (* the pointer is not null *)
  __kmp_forkjoin_frames_mode : Z
}.

(** The fields of a team ([kmp_team_t], [team->t]) that are read. *)
Record kmp_team : Type := {
  t_serialized : bool;                (* t_serialized is not zero *)
  t_nproc : Z;
  t_master_tid : Z;
  t_active_level : Z
}.

(** What is read of the calling thread, [__kmp_threads[gtid]]. *)
Record kmp_info : Type := {
  th_tid : Z;                         (* __kmp_tid_from_gtid(gtid) *)
  th_team : kmp_team;                 (* th->th.th_team *)
  th_team_parent : kmp_team;          (* th->th.th_team->t.t_parent *)
  th_team_nproc : Z;                  (* th->th.th_team_nproc *)
  th_teams_microtask : bool;          (* th->th.th_teams_microtask is not null *)
  th_teams_size_nteams : Z            (* th->th.th_teams_size.nteams *)
}.

(** ** The in/out parameters *)

(** [plastiter] is [None] for a null pointer, otherwise the truth value of
    the pointed-to flag. *)
Record loop_state : Type := {
  plastiter : option bool;
  plower : Z;
  pupper : Z;
  pstride : Z
}.

(** [if( plastiter != NULL ) *plastiter = b]. *)
Definition store_last (s : loop_state) (b : bool) : loop_state :=
  match plastiter s with
  | None => s
  | Some _ => {| plastiter := Some b; plower := plower s; pupper := pupper s; pstride := pstride s |}
  end.

Definition set_plower (s : loop_state) (x : cint) (T : int_kind) : loop_state :=
  {| plastiter := plastiter s; plower := cval (conv T x); pupper := pupper s; pstride := pstride s |}.

Definition set_pupper (s : loop_state) (x : cint) (T : int_kind) : loop_state :=
  {| plastiter := plastiter s; plower := plower s; pupper := cval (conv T x); pstride := pstride s |}.

Definition set_pstride (s : loop_state) (x : cint) (T : int_kind) : loop_state :=
  {| plastiter := plastiter s; plower := plower s; pupper := pupper s; pstride := cval (conv (signed_t T) x) |}.

(** ** The single-level solver: [__kmp_for_static_init] *)

Section ForStaticInit.

Variable T : int_kind.
Variable E : sched_enum.
Variable g : kmp_globals.

Let ST : int_kind := signed_t T.
Let UT : int_kind := unsigned_t T.

(** The test for a zero-trip loop (line 134). *)
Definition zero_trip (lower upper incr : Z) : bool :=
  if (var ST incr > lit 0)%cint
  then (var T upper < var T lower)%cint
  else (var T lower < var T upper)%cint.

(** Lines 166-177: the schedule type, the index of the caller and the team
    the loop is shared by; a distribute construct is shared by the masters
    of the teams. *)
Definition for_resolve (th : kmp_info) (schedtype : Z) : Z * Z * kmp_team :=
  if (var kmp_int32 schedtype > var kmp_int32 (kmp_ord_upper E))%cint then
    (cval (conv kmp_int32
             (var kmp_int32 schedtype
              + (var kmp_int32 (kmp_sch_static E) - var kmp_int32 (kmp_distribute_static E)))%cint),
     wrap kmp_uint32 (t_master_tid (th_team th)),
     th_team_parent th)
  else
    (schedtype, wrap kmp_uint32 (th_tid th), th_team th).

(** Lines 185 and 214: the stride of a loop run by a single thread. *)
Definition for_serial_stride (lower upper incr : Z) : cint :=
  if (var ST incr > lit 0)%cint
  then (var T upper - var T lower + lit 1)%cint
  else (- (var T lower - var T upper + lit 1))%cint.

(** Lines 239-250: the trip count. *)
Definition for_trip_count (lower upper incr : Z) : M Z :=
  if (var ST incr == lit 1)%cint then
    ret (cval (conv UT (var T upper - var T lower + lit 1)%cint))
  else if (var ST incr == lit (-1))%cint then
    ret (cval (conv UT (var T lower - var T upper + lit 1)%cint))
  else if (var ST incr > lit 1)%cint then
    q <- divide 246 by_incr (var T upper - var T lower)%cint (var ST incr) ;;
    ret (cval (conv UT (q + lit 1)%cint))
  else
    q <- divide 248 by_neg_incr (var T lower - var T upper)%cint (- var ST incr)%cint ;;
    ret (cval (conv UT (q + lit 1)%cint)).

(** Lines 262-310: [case kmp_sch_static]. *)
Definition for_static (tid nth trip_count : Z) (s : loop_state) (incr : Z) : M loop_state :=
  let tid_ := var kmp_uint32 tid in
  let nth_ := var kmp_uint32 nth in
  let tc := var UT trip_count in
  let incr_ := var ST incr in
  if (tc < nth_)%cint then
    let s :=
      if (tid_ < tc)%cint then
        let s := set_plower s (var T (plower s) + tid_ * incr_)%cint T in
        set_pupper s (var T (plower s)) T
      else
        set_plower s (var T (pupper s) + incr_)%cint T in
    ret (store_last s (tid_ == tc - lit 1)%cint)
  else if __kmp_static g =? kmp_sch_static_balanced E then
    q <- divide 278 by_nth tc nth_ ;;
    let small_chunk := conv UT q in
    r <- modulo 279 by_nth tc nth_ ;;
    let extras := conv UT r in
    let s := set_plower s
               (var T (plower s)
                + incr_ * (tid_ * small_chunk + cond (tid_ < extras) tid_ extras))%cint T in
    let s := set_pupper s
               (var T (plower s) + small_chunk * incr_
                - cond (tid_ < extras) (lit 0) incr_)%cint T in
    ret (store_last s (tid_ == nth_ - lit 1)%cint)
  else
    q <- divide 285 by_nth tc nth_ ;;
    r <- modulo 286 by_nth tc nth_ ;;
    let big_chunk_inc_count := conv T ((q + cond (truthy r) (lit 1) (lit 0)) * incr_)%cint in
    let old_upper := var T (pupper s) in
    let s := set_plower s (var T (plower s) + tid_ * big_chunk_inc_count)%cint T in
    let s := set_pupper s (var T (plower s) + big_chunk_inc_count - incr_)%cint T in
    if (incr_ > lit 0)%cint then
      let s := if (var T (pupper s) < var T (plower s))%cint
               then set_pupper s (var T (mx T)) T else s in
      let s := store_last s ((var T (plower s) <= old_upper)
                             && (var T (pupper s) > old_upper - incr_))%cint in
      let s := if (var T (pupper s) > old_upper)%cint
               then set_pupper s old_upper T else s in
      ret s
    else
      let s := if (var T (pupper s) > var T (plower s))%cint
               then set_pupper s (var T (mn T)) T else s in
      let s := store_last s ((var T (plower s) >= old_upper)
                             && (var T (pupper s) < old_upper - incr_))%cint in
      let s := if (var T (pupper s) < old_upper)%cint
               then set_pupper s old_upper T else s in
      ret s.

(** Lines 311-324: [case kmp_sch_static_chunked]; the clamped chunk is
    returned with the state. *)
Definition for_static_chunked (tid nth trip_count : Z) (s : loop_state) (incr chunk : Z)
  : M (loop_state * Z) :=
  let tid_ := var kmp_uint32 tid in
  let nth_ := var kmp_uint32 nth in
  let tc := var UT trip_count in
  let incr_ := var ST incr in
  let chunk := if (var ST chunk < lit 1)%cint then cval (conv ST (lit 1)) else chunk in
  let chunk_ := var ST chunk in
  let span := conv ST (chunk_ * incr_)%cint in
  let s := set_pstride s (span * nth_)%cint T in
  let s := set_plower s (var T (plower s) + span * tid_)%cint T in
  let s := set_pupper s (var T (plower s) + span - incr_)%cint T in
  q <- divide 322 by_chunk (tc - lit 1)%cint (conv UT chunk_) ;;
  r <- modulo 322 by_nth q nth_ ;;
  ret (store_last s (tid_ == r)%cint, chunk).

(** Lines 330-346: loop metadata for the profiler. *)
Definition for_itt_metadata (th : kmp_info) (team : kmp_team)
    (schedtype tid nth trip_count chunk : Z) : M unit :=
  when (USE_ITT_BUILD g
        && (var kmp_uint32 tid == lit 0)%cint
        && __itt_metadata_add_ptr g
        && (__kmp_forkjoin_frames_mode g =? 3)
        && negb (th_teams_microtask th)
        && (t_active_level team =? 1))
    (cur_chunk <-
       (if schedtype =? kmp_sch_static E then
          q <- divide 341 by_nth (var UT trip_count) (var kmp_uint32 nth) ;;
          r <- modulo 341 by_nth (var UT trip_count) (var kmp_uint32 nth) ;;
          ret (conv kmp_uint64 (q + cond (truthy r) (lit 1) (lit 0))%cint)
        else ret (conv kmp_uint64 (var ST chunk))) ;;
     emit (Ev_itt_metadata_loop trip_count (cval cur_chunk))).

Definition __kmp_for_static_init (th : kmp_info) (schedtype : Z) (s : loop_state)
    (incr chunk : Z) : M loop_state :=
  when (__kmp_env_consistency_check g)
    (emit Ev_push_workshare ;;;
     when (var ST incr == lit 0)%cint
       (emit (Ev_error kmp_i18n_msg_CnsLoopIncrZeroProhibited))) ;;;
  (* special handling for zero-trip loops *)
  if zero_trip (plower s) (pupper s) incr then
    let s := store_last s false in
    ret (set_pstride s (var ST incr) T)
  else
    let '(schedtype, tid, team) := for_resolve th schedtype in
    (* determine if "for" loop is an active worksharing construct *)
    if t_serialized team then
      let s := store_last s true in
      ret (set_pstride s (for_serial_stride (plower s) (pupper s) incr) T)
    else
      let nth := wrap kmp_uint32 (t_nproc team) in
      if (var kmp_uint32 nth == lit 1)%cint then
        let s := store_last s true in
        ret (set_pstride s (for_serial_stride (plower s) (pupper s) incr) T)
      else
        trip_count <- for_trip_count (plower s) (pupper s) incr ;;
        when (__kmp_env_consistency_check g)
          (when ((var UT trip_count == lit 0)
                 && (var T (pupper s) != var T (plower s)))%cint
             (emit (Ev_error kmp_i18n_msg_CnsIterationRangeTooLarge))) ;;;
        r <- (if schedtype =? kmp_sch_static E then
                s <- for_static tid nth trip_count s incr ;; ret (s, chunk)
              else if schedtype =? kmp_sch_static_chunked E then
                for_static_chunked tid nth trip_count s incr chunk
              else
                emit Ev_assert_fail ;;; ret (s, chunk)) ;;
        for_itt_metadata th team schedtype tid nth trip_count (snd r) ;;;
        ret (fst r).

End ForStaticInit.

(** The four entry points. *)
Definition __kmpc_for_static_init_4 := __kmp_for_static_init kmp_int32.
Definition __kmpc_for_static_init_4u := __kmp_for_static_init kmp_uint32.
Definition __kmpc_for_static_init_8 := __kmp_for_static_init kmp_int64.
Definition __kmpc_for_static_init_8u := __kmp_for_static_init kmp_uint64.

(** ** The two-level solver: [__kmp_dist_for_static_init] *)

Record dist_state : Type := {
  d_plastiter : option bool;
  d_plower : Z;
  d_pupper : Z;
  d_pupperDist : Z;
  d_pstride : Z
}.

Definition d_store_last (s : dist_state) (b : bool) : dist_state :=
  match d_plastiter s with
  | None => s
  | Some _ => {| d_plastiter := Some b; d_plower := d_plower s; d_pupper := d_pupper s;
                 d_pupperDist := d_pupperDist s; d_pstride := d_pstride s |}
  end.

(** [if( plastiter != NULL ) if( *plastiter != 0 && !c ) *plastiter = 0]. *)
Definition d_clear_last_unless (s : dist_state) (c : bool) : dist_state :=
  match d_plastiter s with
  | None => s
  | Some b => if b && negb c then d_store_last s false else s
  end.

Definition d_set_plower (s : dist_state) (x : cint) (T : int_kind) : dist_state :=
  {| d_plastiter := d_plastiter s; d_plower := cval (conv T x); d_pupper := d_pupper s;
     d_pupperDist := d_pupperDist s; d_pstride := d_pstride s |}.

Definition d_set_pupper (s : dist_state) (x : cint) (T : int_kind) : dist_state :=
  {| d_plastiter := d_plastiter s; d_plower := d_plower s; d_pupper := cval (conv T x);
     d_pupperDist := d_pupperDist s; d_pstride := d_pstride s |}.

Definition d_set_pupperDist (s : dist_state) (x : cint) (T : int_kind) : dist_state :=
  {| d_plastiter := d_plastiter s; d_plower := d_plower s; d_pupper := d_pupper s;
     d_pupperDist := cval (conv T x); d_pstride := d_pstride s |}.

Definition d_set_pstride (s : dist_state) (x : cint) (T : int_kind) : dist_state :=
  {| d_plastiter := d_plastiter s; d_plower := d_plower s; d_pupper := d_pupper s;
     d_pupperDist := d_pupperDist s; d_pstride := cval (conv (signed_t T) x) |}.

Section DistForStaticInit.

Variable T : int_kind.
Variable E : sched_enum.
Variable g : kmp_globals.

Let ST : int_kind := signed_t T.
Let UT : int_kind := unsigned_t T.

(** The test of the consistency check for an illegal loop (lines 418, 657). *)
Definition illegal_loop (lower upper incr : Z) : bool :=
  if (var ST incr > lit 0)%cint
  then (var T upper < var T lower)%cint
  else (var T lower < var T upper)%cint.

(** Lines 443-449, 510-516 and 680-686: the trip count, the difference of
    the bounds being cast to the signed type before the division; [line]
    is the line of the division. *)
Definition dist_trip_count (line : Z) (lower upper incr : Z) : M Z :=
  if (var ST incr == lit 1)%cint then
    ret (cval (conv UT (var T upper - var T lower + lit 1)%cint))
  else if (var ST incr == lit (-1))%cint then
    ret (cval (conv UT (var T lower - var T upper + lit 1)%cint))
  else
    q <- divide line by_incr (conv ST (var T upper - var T lower)%cint) (var ST incr) ;;
    ret (cval (conv UT (q + lit 1)%cint)).

(** Lines 442-507: the chunk of the team.  The boolean tells whether the
    chunk of the thread is still to be computed ([false]: control is at
    [end]). *)
Definition dist_team_chunk (tid team_id nteams : Z) (s : dist_state) (incr : Z)
  : M (dist_state * bool) :=
  let tid_ := var kmp_uint32 tid in
  let team_id_ := var kmp_uint32 team_id in
  let nteams_ := var kmp_uint32 nteams in
  let incr_ := var ST incr in
  trip_count <- dist_trip_count 448 (d_plower s) (d_pupper s) incr ;;
  let tc := var UT trip_count in
  let s := d_set_pstride s (var T (d_pupper s) - var T (d_plower s))%cint T in
  if (tc <= nteams_)%cint then
    let s :=
      if ((team_id_ < tc) && (tid_ == lit 0))%cint then
        let s := d_set_plower s (var T (d_plower s) + team_id_ * incr_)%cint T in
        let s := d_set_pupperDist s (var T (d_plower s)) T in
        d_set_pupper s (var T (d_pupperDist s)) T
      else
        let s := d_set_pupperDist s (var T (d_pupper s)) T in
        d_set_plower s (var T (d_pupper s) + incr_)%cint T in
    ret (d_store_last s ((tid_ == lit 0) && (team_id_ == tc - lit 1))%cint, false)
  else if __kmp_static g =? kmp_sch_static_balanced E then
    q <- divide 469 by_nteams tc nteams_ ;;
    let chunkD := conv UT q in
    r <- modulo 470 by_nteams tc nteams_ ;;
    let extras := conv UT r in
    let s := d_set_plower s
               (var T (d_plower s)
                + incr_ * (team_id_ * chunkD + cond (team_id_ < extras) team_id_ extras))%cint T in
    let s := d_set_pupperDist s
               (var T (d_plower s) + chunkD * incr_
                - cond (team_id_ < extras) (lit 0) incr_)%cint T in
    ret (d_store_last s (team_id_ == nteams_ - lit 1)%cint, true)
  else
    q <- divide 477 by_nteams tc nteams_ ;;
    r <- modulo 477 by_nteams tc nteams_ ;;
    let chunk_inc_count := conv T ((q + cond (truthy r) (lit 1) (lit 0)) * incr_)%cint in
    let upper := var T (d_pupper s) in
    let s := d_set_plower s (var T (d_plower s) + team_id_ * chunk_inc_count)%cint T in
    let s := d_set_pupperDist s (var T (d_plower s) + chunk_inc_count - incr_)%cint T in
    (* Check/correct bounds if needed *)
    if (incr_ > lit 0)%cint then
      let s := if (var T (d_pupperDist s) < var T (d_plower s))%cint
               then d_set_pupperDist s (var T (mx T)) T else s in
      let s := d_store_last s ((var T (d_plower s) <= upper)
                               && (var T (d_pupperDist s) > upper - incr_))%cint in
      let s := if (var T (d_pupperDist s) > upper)%cint
               then d_set_pupperDist s upper T else s in
      if (var T (d_plower s) > var T (d_pupperDist s))%cint then
        (* no iterations available for the team *)
        ret (d_set_pupper s (var T (d_pupperDist s)) T, false)
      else ret (s, true)
    else
      let s := if (var T (d_pupperDist s) > var T (d_plower s))%cint
               then d_set_pupperDist s (var T (mn T)) T else s in
      let s := d_store_last s ((var T (d_plower s) >= upper)
                               && (var T (d_pupperDist s) < upper - incr_))%cint in
      let s := if (var T (d_pupperDist s) < upper)%cint
               then d_set_pupperDist s upper T else s in
      if (var T (d_plower s) < var T (d_pupperDist s))%cint then
        ret (d_set_pupper s (var T (d_pupperDist s)) T, false)
      else ret (s, true).

(** Lines 519-570: [case kmp_sch_static] of the loop of the thread. *)
Definition dist_static (tid nth trip_count : Z) (s : dist_state) (incr : Z) : M dist_state :=
  let tid_ := var kmp_uint32 tid in
  let nth_ := var kmp_uint32 nth in
  let tc := var UT trip_count in
  let incr_ := var ST incr in
  if (tc <= nth_)%cint then
    let s :=
      if (tid_ < tc)%cint then
        let s := d_set_plower s (var T (d_plower s) + tid_ * incr_)%cint T in
        d_set_pupper s (var T (d_plower s)) T
      else
        (* no iterations available *)
        d_set_plower s (var T (d_pupper s) + incr_)%cint T in
    ret (d_clear_last_unless s (tid_ == tc - lit 1)%cint)
  else if __kmp_static g =? kmp_sch_static_balanced E then
    q <- divide 535 by_nth tc nth_ ;;
    let chunkL := conv UT q in
    r <- modulo 536 by_nth tc nth_ ;;
    let extras := conv UT r in
    let s := d_set_plower s
               (var T (d_plower s)
                + incr_ * (tid_ * chunkL + cond (tid_ < extras) tid_ extras))%cint T in
    let s := d_set_pupper s
               (var T (d_plower s) + chunkL * incr_
                - cond (tid_ < extras) (lit 0) incr_)%cint T in
    ret (d_clear_last_unless s (tid_ == nth_ - lit 1)%cint)
  else
    q <- divide 544 by_nth tc nth_ ;;
    r <- modulo 544 by_nth tc nth_ ;;
    let chunk_inc_count := conv T ((q + cond (truthy r) (lit 1) (lit 0)) * incr_)%cint in
    let upper := var T (d_pupperDist s) in
    let s := d_set_plower s (var T (d_plower s) + tid_ * chunk_inc_count)%cint T in
    let s := d_set_pupper s (var T (d_plower s) + chunk_inc_count - incr_)%cint T in
    if (incr_ > lit 0)%cint then
      let s := if (var T (d_pupper s) < var T (d_plower s))%cint
               then d_set_pupper s (var T (mx T)) T else s in
      let s := d_clear_last_unless s ((var T (d_plower s) <= upper)
                                      && (var T (d_pupper s) > upper - incr_))%cint in
      let s := if (var T (d_pupper s) > upper)%cint
               then d_set_pupper s upper T else s in
      ret s
    else
      let s := if (var T (d_pupper s) > var T (d_plower s))%cint
               then d_set_pupper s (var T (mn T)) T else s in
      let s := d_clear_last_unless s ((var T (d_plower s) >= upper)
                                      && (var T (d_pupper s) < upper - incr_))%cint in
      let s := if (var T (d_pupper s) < upper)%cint
               then d_set_pupper s upper T else s in
      ret s.

(** Lines 571-584: [case kmp_sch_static_chunked] of the loop of the thread. *)
Definition dist_static_chunked (tid nth trip_count : Z) (s : dist_state) (incr chunk : Z)
  : M dist_state :=
  let tid_ := var kmp_uint32 tid in
  let nth_ := var kmp_uint32 nth in
  let tc := var UT trip_count in
  let incr_ := var ST incr in
  let chunk := if (var ST chunk < lit 1)%cint then cval (conv ST (lit 1)) else chunk in
  let chunk_ := var ST chunk in
  let span := conv ST (chunk_ * incr_)%cint in
  let s := d_set_pstride s (span * nth_)%cint T in
  let s := d_set_plower s (var T (d_plower s) + span * tid_)%cint T in
  let s := d_set_pupper s (var T (d_plower s) + span - incr_)%cint T in
  q <- divide 581 by_chunk (tc - lit 1)%cint (conv UT chunk_) ;;
  r <- modulo 581 by_nth q nth_ ;;
  ret (d_clear_last_unless s (tid_ == r)%cint).

(** Lines 508-588: the chunk of the thread inside the chunk of its team. *)
Definition dist_thread_chunk (tid nth schedule : Z) (s : dist_state) (incr chunk : Z)
  : M dist_state :=
  trip_count <- dist_trip_count 515 (d_plower s) (d_pupperDist s) incr ;;
  if schedule =? kmp_sch_static E then
    dist_static tid nth trip_count s incr
  else if schedule =? kmp_sch_static_chunked E then
    dist_static_chunked tid nth trip_count s incr chunk
  else
    emit Ev_assert_fail ;;; ret s.

Definition __kmp_dist_for_static_init (th : kmp_info) (schedule : Z) (s : dist_state)
    (incr chunk : Z) : M dist_state :=
  when (__kmp_env_consistency_check g)
    (emit Ev_push_workshare ;;;
     when (var ST incr == lit 0)%cint
       (emit (Ev_error kmp_i18n_msg_CnsLoopIncrZeroProhibited)) ;;;
     when (illegal_loop (d_plower s) (d_pupper s) incr)
       (emit (Ev_error kmp_i18n_msg_CnsLoopIncrIllegal))) ;;;
  let tid := wrap kmp_uint32 (th_tid th) in
  let nth := wrap kmp_uint32 (th_team_nproc th) in
  let nteams := wrap kmp_uint32 (th_teams_size_nteams th) in
  let team_id := wrap kmp_uint32 (t_master_tid (th_team th)) in
  r <- dist_team_chunk tid team_id nteams s incr ;;
  if snd r then dist_thread_chunk tid nth schedule (fst r) incr chunk
  else ret (fst r).

(** ** The team chunk solver: [__kmp_team_static_init] *)

Definition __kmp_team_static_init (th : kmp_info) (s : loop_state) (incr chunk : Z)
  : M loop_state :=
  let lower := var T (plower s) in
  let upper := var T (pupper s) in
  let incr_ := var ST incr in
  when (__kmp_env_consistency_check g)
    (when (incr_ == lit 0)%cint
       (emit (Ev_error kmp_i18n_msg_CnsLoopIncrZeroProhibited)) ;;;
     when (illegal_loop (plower s) (pupper s) incr)
       (emit (Ev_error kmp_i18n_msg_CnsLoopIncrIllegal))) ;;;
  let nteams_ := var kmp_uint32 (wrap kmp_uint32 (th_teams_size_nteams th)) in
  let team_id_ := var kmp_uint32 (wrap kmp_uint32 (t_master_tid (th_team th))) in
  (* compute trip count *)
  trip_count <- dist_trip_count 685 (plower s) (pupper s) incr ;;
  let tc := var UT trip_count in
  let chunk := if (var ST chunk < lit 1)%cint then cval (conv ST (lit 1)) else chunk in
  let chunk_ := var ST chunk in
  let span := conv ST (chunk_ * incr_)%cint in
  let s := set_pstride s (span * nteams_)%cint T in
  let s := set_plower s (lower + span * team_id_)%cint T in
  let s := set_pupper s (var T (plower s) + span - incr_)%cint T in
  q <- divide 694 by_chunk (tc - lit 1)%cint (conv UT chunk_) ;;
  r <- modulo 694 by_nteams q nteams_ ;;
  let s := store_last s (team_id_ == r)%cint in
  (* Correct upper bound if needed *)
  if (incr_ > lit 0)%cint then
    let s := if (var T (pupper s) < var T (plower s))%cint    (* overflow? *)
             then set_pupper s (var T (mx T)) T else s in
    let s := if (var T (pupper s) > upper)%cint
             then set_pupper s upper T else s in
    ret s
  else
    let s := if (var T (pupper s) > var T (plower s))%cint
             then set_pupper s (var T (mn T)) T else s in
    let s := if (var T (pupper s) < upper)%cint
             then set_pupper s upper T else s in
    ret s.

End DistForStaticInit.

(** The entry points. *)
Definition __kmpc_dist_for_static_init_4 := __kmp_dist_for_static_init kmp_int32.
Definition __kmpc_dist_for_static_init_4u := __kmp_dist_for_static_init kmp_uint32.
Definition __kmpc_dist_for_static_init_8 := __kmp_dist_for_static_init kmp_int64.
Definition __kmpc_dist_for_static_init_8u := __kmp_dist_for_static_init kmp_uint64.

Definition __kmpc_team_static_init_4 := __kmp_team_static_init kmp_int32.
Definition __kmpc_team_static_init_4u := __kmp_team_static_init kmp_uint32.
Definition __kmpc_team_static_init_8 := __kmp_team_static_init kmp_int64.
Definition __kmpc_team_static_init_8u := __kmp_team_static_init kmp_uint64.

(** ** Notions used to state the properties *)

(** The trip count as the single-level solver computes it. *)
Definition tripCount (T : int_kind) (lower upper incr : Z) : Z :=
  fst (for_trip_count T lower upper incr).

(** The trip count as the two-level and the team solver compute it. *)
Definition tripCountD (T : int_kind) (lower upper incr : Z) : Z :=
  fst (dist_trip_count T 448 lower upper incr).

(** The number of iterations of [for (i = lower; i <= upper; i += incr)]
    (or [i >= upper] for a negative increment) over the integers. *)
Definition ideal_trip (lower upper incr : Z) : Z :=
  if incr >? 0 then (upper - lower) / incr + 1 else (lower - upper) / (- incr) + 1.

(** [chunk] after [if ( chunk < 1 ) chunk = 1]. *)
Definition clamp_chunk (chunk : Z) : Z := if chunk <? 1 then 1 else chunk.

(** The number of iterations of a Greedy chunk, [ceil(tc / n)]. *)
Definition big_chunk (tc n : Z) : Z := tc / n + (if tc mod n =? 0 then 0 else 1).

(** [x] is a value the loop variable takes in
    [for (i = lower; i <= upper; i += incr)], [incr > 0]. *)
Definition iterates (lower upper incr x : Z) : Prop :=
  lower <= x <= upper /\ (x - lower) mod incr = 0.

(** [a / b] in type [T]. *)
Definition tdiv (T : int_kind) (a b : Z) : Z :=
  if is_signed T then Z.quot a b else a / b.

(** Contexts to run the solvers in: global settings with a given
    [__kmp_static], thread [tid] of a team of [n] threads, and thread [tid]
    (of [nth]) of team [team_id] (of [nteams]) inside a teams construct. *)
Definition ex_globals (flavour : Z) : kmp_globals := {|
  __kmp_env_consistency_check := true;
  __kmp_static := flavour;
  USE_ITT_BUILD := true;
  __itt_metadata_add_ptr := true;
  __kmp_forkjoin_frames_mode := 3
|}.

Definition ex_team (n master : Z) : kmp_team := {|
  t_serialized := false;
  t_nproc := n;
  t_master_tid := master;
  t_active_level := 1
|}.

Definition ex_thread (tid n : Z) : kmp_info := {|
  th_tid := tid;
  th_team := ex_team n 0;
  th_team_parent := ex_team 1 0;
  th_team_nproc := n;
  th_teams_microtask := false;
  th_teams_size_nteams := 1
|}.

Definition ex_team_thread (team_id nteams tid nth : Z) : kmp_info := {|
  th_tid := tid;
  th_team := ex_team nth team_id;
  th_team_parent := ex_team nteams 0;
  th_team_nproc := nth;
  th_teams_microtask := true;
  th_teams_size_nteams := nteams
|}.

Definition ex_loop (lower upper : Z) : loop_state := {|
  plastiter := Some false;
  plower := lower;
  pupper := upper;
  pstride := 0
|}.

Definition ex_dist_loop (lower upper : Z) : dist_state := {|
  d_plastiter := Some false;
  d_plower := lower;
  d_pupper := upper;
  d_pupperDist := 0;
  d_pstride := 0
|}.

(** The correction of a computed upper bound [u0] of a chunk starting at
    [l]: if it wrapped past the end of the domain it becomes the sentinel
    of that end, then it is cut at the upper bound [upper] of the loop. *)
Definition overflow_clamp (T : int_kind) (incr l u0 upper : Z) : Z :=
  if incr >? 0 then
    let u1 := if u0 <? l then mx T else u0 in
    if u1 >? upper then upper else u1
  else
    let u1 := if u0 >? l then mn T else u0 in
    if u1 <? upper then upper else u1.

(** The lines on which the trip count is divided among the threads or the
    teams ([kmp_sch_static], Balanced and Greedy). *)
Definition partition_line (line : Z) : bool :=
  existsb (Z.eqb line) [278; 279; 285; 286; 469; 470; 477; 535; 536; 544].

(** What holds of a division of a loop with increment [incr]: the divisor
    is not zero; a division by the increment is made for [|incr| > 1]
    only; a divisor that is a chunk is at least 1; a divisor that is a
    number of threads or teams is at least 1 and, where the trip count is
    divided among them, does not exceed the trip count. *)
Definition div_ok (incr : Z) (e : event) : Prop :=
  match e with
  | Ev_div line d a b =>
      b <> 0 /\
      match d with
      | by_incr | by_neg_incr => 1 < Z.abs incr
      | by_chunk => 1 <= b
      | by_nth | by_nteams => 1 <= b /\ (partition_line line = true -> b <= a)
      end
  | _ => True
  end.

(** The bounds the Greedy case computes for thread (or team) [i] before
    they are corrected: the lower bound [lower + i * chunk_inc] and the
    upper bound [lower_i + chunk_inc - incr], where [chunk_inc] is
    [big * incr] converted to the type of the loop variable. *)
Definition greedy_lower (T : int_kind) (lo incr big i : Z) : Z :=
  wrap T (lo + i * big * incr).

Definition greedy_upper0 (T : int_kind) (lo incr big i : Z) : Z :=
  wrap T (greedy_lower T lo incr big i + big * incr - incr).

(** The last-iteration test of the Greedy case, on the lower bound [l] and
    the raw upper bound [u0] of a chunk of a loop ending at [upper]. *)
Definition greedy_last (T : int_kind) (incr l u0 upper : Z) : bool :=
  if incr >? 0 then
    let u1 := if u0 <? l then mx T else u0 in
    (l <=? upper) && (u1 >? wrap T (upper - incr))
  else
    let u1 := if u0 >? l then mn T else u0 in
    (l >=? upper) && (u1 <? wrap T (upper - incr)).

(** The mirror image of a value in the range of [T]. *)
Definition mirror (T : int_kind) (x : Z) : Z := mn T + mx T - x.

(** The loops whose trip count the two-level solver computes without
    overflow: the difference of the bounds is cast to the signed type
    before it is divided by the increment. *)
Definition dist_span_ok (T : int_kind) (lo up incr : Z) : Prop :=
  Z.abs (up - lo) <=
  (if (incr =? 1) || (incr =? -1) then mx (unsigned_t T) - 1 else mx (signed_t T)).

(** The test by which the thread-level part of the two-level solver
    (lines 508-588) decides whether thread [tid] of [nth] keeps the flag,
    for a team whose chunk is [lo .. upD]. *)
Definition dist_thread_last (T : int_kind) (E : sched_enum) (g : kmp_globals)
    (tid nth schedule lo upD incr chunk : Z) : bool :=
  let tc := tripCountD T lo upD incr in
  if schedule =? kmp_sch_static E then
    if tc <=? nth then tid =? wrap (unsigned_t T) (tc - 1)
    else if __kmp_static g =? kmp_sch_static_balanced E then tid =? nth - 1
    else greedy_last T incr
           (greedy_lower T lo incr (big_chunk tc nth) tid)
           (greedy_upper0 T lo incr (big_chunk tc nth) tid) upD
  else if schedule =? kmp_sch_static_chunked E then
    tid =? (wrap (unsigned_t T) (tc - 1) / clamp_chunk chunk) mod nth
  else true.

(** A state of the two-level solver with another flag. *)
Definition d_with_last (s : dist_state) (f : option bool) : dist_state :=
  {| d_plastiter := f; d_plower := d_plower s; d_pupper := d_pupper s;
     d_pupperDist := d_pupperDist s; d_pstride := d_pstride s |}.

(** The loops whose trip count the single-level solver computes without
    overflow: the difference of the bounds is divided in the type of the
    loop variable. *)
Definition for_span_ok (T : int_kind) (lo up incr : Z) : Prop :=
  Z.abs (up - lo) <=
  (if (incr =? 1) || (incr =? -1) then mx (unsigned_t T) - 1 else mx T).

(** The messages handed to [__kmp_error_construct], in program order. *)
Definition errors_of (l : list event) : list kmp_i18n_id :=
  flat_map (fun e => match e with Ev_error id => [id] | _ => [] end) l.

(** The loop metadata handed to the profiler, in program order. *)
Definition metadata_of (l : list event) : list (Z * Z) :=
  flat_map (fun e => match e with Ev_itt_metadata_loop tc c => [(tc, c)] | _ => [] end) l.

Definition is_div (e : event) : bool :=
  match e with Ev_div _ _ _ _ => true | _ => false end.

(** The test of an illegal loop, on integers. *)
Definition illegal (lo up incr : Z) : bool :=
  if incr >? 0 then up <? lo else lo <? up.

(** The master thread of the team of [th], seen as a thread of the parent
    team (the league of a teams construct). *)
Definition as_team_master (th : kmp_info) : kmp_info := {|
  th_tid := t_master_tid (th_team th);
  th_team := th_team_parent th;
  th_team_parent := th_team_parent th;
  th_team_nproc := t_nproc (th_team_parent th);
  th_teams_microtask := th_teams_microtask th;
  th_teams_size_nteams := th_teams_size_nteams th
|}.

(** The failed assertions ([KMP_ASSERT2(0, ...)]), in program order. *)
Definition asserts_of (l : list event) : list unit :=
  flat_map (fun e => match e with Ev_assert_fail => [tt] | _ => [] end) l.

(** The loop a chunk [lo .. up] makes, with the flag and the stride of [s]. *)
Definition chunk_loop (flag : option bool) (lo up st : Z) : loop_state :=
  {| plastiter := flag; plower := lo; pupper := up; pstride := st |}.

(** The mirror image of a loop: the bounds are mirrored in the range of
    [T] and the stride changes sign. *)
Definition mirror_loop (T : int_kind) (s : loop_state) : loop_state :=
  {| plastiter := plastiter s;
     plower := mirror T (plower s);
     pupper := mirror T (pupper s);
     pstride := wrap (signed_t T) (- pstride s) |}.

(** * Properties *)

(** ** Wrap-around arithmetic *)

Section Window.

Variables lo m : Z.
Hypothesis m_pos : 0 < m.

Lemma wrapw_range (x : Z) : lo <= wrapw lo m x < lo + m.
Proof.
  unfold wrapw. pose proof (Z.mod_pos_bound (x - lo) m m_pos). lia.
Qed.

Lemma wrapw_id (x : Z) : lo <= x < lo + m -> wrapw lo m x = x.
Proof.
  intros Hx. unfold wrapw. rewrite Z.mod_small; lia.
Qed.

Lemma wrapw_eqm (x : Z) : eqm m (wrapw lo m x) x.
Proof.
  unfold wrapw, eqm.
  rewrite Zplus_mod_idemp_r. f_equal. lia.
Qed.

Lemma wrapw_congr (x y : Z) : eqm m x y -> wrapw lo m x = wrapw lo m y.
Proof.
  unfold wrapw, eqm. intros H. f_equal.
  rewrite (Zminus_mod x), (Zminus_mod y), H. reflexivity.
Qed.

Lemma wrapw_unique (x y : Z) : lo <= y < lo + m -> eqm m x y -> wrapw lo m x = y.
Proof.
  intros Hy H. rewrite (wrapw_congr _ _ H). now apply wrapw_id.
Qed.

(** A value that differs from [x] by a multiple of the modulus and lies in
    the window is the wrapped value. *)
Lemma wrapw_shift (x k : Z) : lo <= x + k * m < lo + m -> wrapw lo m x = x + k * m.
Proof.
  intros H. apply wrapw_unique; [exact H|].
  unfold eqm. now rewrite Z_mod_plus_full.
Qed.

(** Wrapping is one of: no change, or a shift by whole multiples. *)
Lemma wrapw_decomp (x : Z) : exists k, wrapw lo m x = x + k * m.
Proof.
  exists (- ((x - lo) / m)). unfold wrapw.
  pose proof (Z_div_mod_eq_full (x - lo) m). lia.
Qed.

End Window.

(** Negation mirrors the window. *)
Lemma wrapw_opp (lo m x : Z) :
  0 < m -> - wrapw lo m x = wrapw (- (lo + m - 1)) m (- x).
Proof.
  intros Hm. symmetry. apply wrapw_unique.
  - pose proof (wrapw_range lo m Hm x). lia.
  - pose proof (wrapw_eqm lo m x) as H. unfold eqm in *.
    rewrite <- (Z.sub_0_l x), <- (Z.sub_0_l (wrapw lo m x)).
    rewrite (Zminus_mod 0 x), (Zminus_mod 0 (wrapw lo m x)), H. reflexivity.
Qed.

Section IntKinds.

Variable T : int_kind.

Lemma modulus_pos : 0 < modulus T.
Proof. destruct T; reflexivity. Qed.

Lemma mx_mn : mx T = mn T + modulus T - 1.
Proof. destruct T; reflexivity. Qed.

Lemma modulus_signed_t : modulus (signed_t T) = modulus T.
Proof. destruct T; reflexivity. Qed.

Lemma modulus_unsigned_t : modulus (unsigned_t T) = modulus T.
Proof. destruct T; reflexivity. Qed.

Lemma mn_unsigned_t : mn (unsigned_t T) = 0.
Proof. destruct T; reflexivity. Qed.

Lemma wrap_range (x : Z) : in_range T (wrap T x).
Proof.
  unfold in_range, wrap. pose proof (wrapw_range (mn T) (modulus T) modulus_pos x).
  rewrite mx_mn. lia.
Qed.

Lemma wrap_id (x : Z) : in_range T x -> wrap T x = x.
Proof.
  unfold in_range, wrap. rewrite mx_mn. intros H. apply wrapw_id; lia.
Qed.

Lemma wrap_eqm (x : Z) : eqm (modulus T) (wrap T x) x.
Proof. apply wrapw_eqm. Qed.

Lemma wrap_congr (x y : Z) : eqm (modulus T) x y -> wrap T x = wrap T y.
Proof. apply wrapw_congr. Qed.

Lemma wrap_unique (x y : Z) : in_range T y -> eqm (modulus T) x y -> wrap T x = y.
Proof.
  unfold in_range, wrap. rewrite mx_mn. intros H. apply wrapw_unique; lia.
Qed.

Lemma wrap_wrap (x : Z) : wrap T (wrap T x) = wrap T x.
Proof. apply wrap_id, wrap_range. Qed.

End IntKinds.

(** ** Reasoning about the effect layer *)

Lemma fst_bind {A B : Type} (m : M A) (f : A -> M B) : fst (bind m f) = fst (f (fst m)).
Proof. unfold bind. destruct (f (fst m)); reflexivity. Qed.

Lemma snd_bind {A B : Type} (m : M A) (f : A -> M B) :
  snd (bind m f) = snd m ++ snd (f (fst m)).
Proof. unfold bind. destruct (f (fst m)); reflexivity. Qed.

Lemma fst_divide line d x y : fst (divide line d x y) = (x / y)%cint.
Proof. reflexivity. Qed.

Lemma fst_modulo line d x y : fst (modulo line d x y) = (x %% y)%cint.
Proof. reflexivity. Qed.

(** ** Congruence modulo the modulus of a type *)

Section Eqm.

Variable m : Z.

Lemma eqm_add a a' b b' : eqm m a a' -> eqm m b b' -> eqm m (a + b) (a' + b').
Proof. unfold eqm. intros H1 H2. now rewrite Zplus_mod, H1, H2, <- Zplus_mod. Qed.

Lemma eqm_sub a a' b b' : eqm m a a' -> eqm m b b' -> eqm m (a - b) (a' - b').
Proof. unfold eqm. intros H1 H2. now rewrite Zminus_mod, H1, H2, <- Zminus_mod. Qed.

Lemma eqm_mul a a' b b' : eqm m a a' -> eqm m b b' -> eqm m (a * b) (a' * b').
Proof. unfold eqm. intros H1 H2. now rewrite Zmult_mod, H1, H2, <- Zmult_mod. Qed.

Lemma eqm_opp a a' : eqm m a a' -> eqm m (- a) (- a').
Proof.
  intros H. rewrite <- (Z.sub_0_l a), <- (Z.sub_0_l a').
  apply eqm_sub; [reflexivity | exact H].
Qed.

Lemma eqm_wrapw lo a a' : eqm m a a' -> eqm m (wrapw lo m a) a'.
Proof. unfold eqm. intros <-. apply wrapw_eqm. Qed.

Lemma wrapw_by_eqm lo a a' b b' :
  eqm m a a' -> eqm m b b' -> a' = b' -> wrapw lo m a = wrapw lo m b.
Proof.
  intros Ha Hb Heq. apply wrapw_congr. unfold eqm in *. now rewrite Ha, Hb, Heq.
Qed.

End Eqm.

(** [eqm_erase] proves [eqm m a a'] where [a'] is [a] with the inner
    conversions removed; [wrap_eq] proves that two conversions to the same
    type agree when their arguments are equal as polynomials once the inner
    conversions (to types of the same width) are dropped. *)
Ltac eqm_erase :=
  lazymatch goal with
  | |- eqm ?m (wrapw _ ?m _) _ => apply eqm_wrapw; eqm_erase
  | |- eqm _ (_ + _) _ => apply eqm_add; eqm_erase
  | |- eqm _ (_ - _) _ => apply eqm_sub; eqm_erase
  | |- eqm _ (_ * _) _ => apply eqm_mul; eqm_erase
  | |- eqm _ (- _) _ => apply eqm_opp; eqm_erase
  | |- eqm _ _ _ => reflexivity
  end.

Ltac wrap_eq :=
  unfold wrap; cbn [mn modulus];
  lazymatch goal with
  | |- wrapw ?lo ?m ?a = wrapw ?lo ?m ?b =>
      eapply (wrapw_by_eqm m lo); [eqm_erase | eqm_erase | first [reflexivity | ring | lia]]
  end.

Ltac range_tac := unfold in_range in *; cbn [mn mx signed_t unsigned_t] in *; lia.

(** Evaluates the types of the operators of an expression over a known
    loop-variable type. *)
Ltac kinds :=
  unfold CInt.ne in *;
  unfold CInt.add, CInt.sub, CInt.mul, CInt.neg, CInt.div, CInt.rem,
         CInt.lt, CInt.le, CInt.gt, CInt.ge, CInt.eq,
         CInt.cmp, CInt.arith, CInt.cond, CInt.truthy, CInt.conv, CInt.var, CInt.lit in *;
  cbn [signed_t unsigned_t cty cval] in *;
  repeat match goal with
         | |- context [common ?a ?b] =>
             let r := eval vm_compute in (common a b) in change (common a b) with r
         end;
  cbn [signed_t unsigned_t cty cval is_signed] in *.

(** ** Reading the comparisons of the source on in-range values *)

Lemma incr_gt_0 T incr :
  in_range (signed_t T) incr -> (var (signed_t T) incr > lit 0)%cint = (incr >? 0).
Proof. intros H. destruct T; kinds; rewrite ?wrap_id by range_tac; reflexivity. Qed.

Lemma incr_gt_1 T incr :
  in_range (signed_t T) incr -> (var (signed_t T) incr > lit 1)%cint = (incr >? 1).
Proof. intros H. destruct T; kinds; rewrite ?wrap_id by range_tac; reflexivity. Qed.

Lemma incr_eq_0 T incr :
  in_range (signed_t T) incr -> (var (signed_t T) incr == lit 0)%cint = (incr =? 0).
Proof. intros H. destruct T; kinds; rewrite ?wrap_id by range_tac; reflexivity. Qed.

Lemma incr_eq_1 T incr :
  in_range (signed_t T) incr -> (var (signed_t T) incr == lit 1)%cint = (incr =? 1).
Proof. intros H. destruct T; kinds; rewrite ?wrap_id by range_tac; reflexivity. Qed.

Lemma incr_eq_m1 T incr :
  in_range (signed_t T) incr -> (var (signed_t T) incr == lit (-1))%cint = (incr =? -1).
Proof. intros H. destruct T; kinds; rewrite ?wrap_id by range_tac; reflexivity. Qed.

Lemma chunk_lt_1 T chunk :
  in_range (signed_t T) chunk -> (var (signed_t T) chunk < lit 1)%cint = (chunk <? 1).
Proof. intros H. destruct T; kinds; rewrite ?wrap_id by range_tac; reflexivity. Qed.

Lemma lt_T T x y : in_range T x -> in_range T y -> (var T x < var T y)%cint = (x <? y).
Proof. intros Hx Hy. destruct T; kinds; rewrite ?wrap_id by range_tac; reflexivity. Qed.

Lemma gt_T T x y : in_range T x -> in_range T y -> (var T x > var T y)%cint = (x >? y).
Proof. intros Hx Hy. destruct T; kinds; rewrite ?wrap_id by range_tac; reflexivity. Qed.

Lemma le_T T x y : in_range T x -> in_range T y -> (var T x <= var T y)%cint = (x <=? y).
Proof. intros Hx Hy. destruct T; kinds; rewrite ?wrap_id by range_tac; reflexivity. Qed.

Lemma ge_T T x y : in_range T x -> in_range T y -> (var T x >= var T y)%cint = (x >=? y).
Proof. intros Hx Hy. destruct T; kinds; rewrite ?wrap_id by range_tac; reflexivity. Qed.

Lemma ne_T T x y : in_range T x -> in_range T y -> (var T x != var T y)%cint = negb (x =? y).
Proof. intros Hx Hy. destruct T; kinds; rewrite ?wrap_id by range_tac; reflexivity. Qed.

Lemma zero_trip_spec T lower upper incr :
  in_range T lower -> in_range T upper -> in_range (signed_t T) incr ->
  zero_trip T lower upper incr = if incr >? 0 then upper <? lower else lower <? upper.
Proof.
  intros Hl Hu Hi. unfold zero_trip. rewrite incr_gt_0, !lt_T by assumption. reflexivity.
Qed.

(** ** The single-level solver up to the choice of the schedule *)

Lemma tripCount_spec T lower upper incr :
  in_range T lower -> in_range T upper -> in_range (signed_t T) incr ->
  tripCount T lower upper incr =
    if incr =? 1 then wrap (unsigned_t T) (upper - lower + 1)
    else if incr =? -1 then wrap (unsigned_t T) (lower - upper + 1)
    else if incr >? 1 then wrap (unsigned_t T) (tdiv T (wrap T (upper - lower)) incr + 1)
    else wrap (unsigned_t T) (tdiv T (wrap T (lower - upper)) (wrap T (- incr)) + 1).
Proof.
  intros Hl Hu Hi. unfold tripCount, for_trip_count.
  rewrite incr_eq_1, incr_eq_m1, incr_gt_1 by assumption.
  destruct (incr =? 1) eqn:E1; [|destruct (incr =? -1) eqn:E2; [|destruct (incr >? 1) eqn:E3]];
    rewrite ?fst_bind, ?fst_divide; cbn [ret fst snd]; unfold tdiv.
  - destruct T; kinds; rewrite ?(wrap_id _ lower), ?(wrap_id _ upper) by range_tac; wrap_eq.
  - destruct T; kinds; rewrite ?(wrap_id _ lower), ?(wrap_id _ upper) by range_tac; wrap_eq.
  - destruct T; kinds;
      rewrite ?(wrap_id _ lower), ?(wrap_id _ upper), ?(wrap_id _ incr) by range_tac;
      rewrite ?wrap_wrap; wrap_eq.
  - destruct T; kinds;
      rewrite ?(wrap_id _ lower), ?(wrap_id _ upper), ?(wrap_id _ incr) by range_tac;
      rewrite ?wrap_wrap.
    all: try (wrap_eq; fail).
    all: replace (wrap kmp_uint32 (wrap kmp_int32 (- incr))) with (wrap kmp_uint32 (- incr))
           by (symmetry; wrap_eq);
         replace (wrap kmp_uint64 (wrap kmp_int64 (- incr))) with (wrap kmp_uint64 (- incr))
           by (symmetry; wrap_eq);
         wrap_eq.
Qed.

Lemma for_resolve_tid E th schedtype sched tid team :
  for_resolve E th schedtype = (sched, tid, team) -> 0 <= tid <= 4294967295.
Proof.
  unfold for_resolve. intros H.
  destruct (_ > _)%cint; inversion H; subst; apply (wrap_range kmp_uint32).
Qed.

Lemma nth_is_1 n : (var kmp_uint32 (wrap kmp_uint32 n) == lit 1)%cint = (wrap kmp_uint32 n =? 1).
Proof. kinds. rewrite wrap_wrap. reflexivity. Qed.

(** Past the zero-trip test and the single-thread exits, the bounds are
    those the [switch] over the schedule type computes. *)
Lemma for_static_init_active T E g th schedtype s incr chunk sched tid team :
  zero_trip T (plower s) (pupper s) incr = false ->
  for_resolve E th schedtype = (sched, tid, team) ->
  t_serialized team = false ->
  wrap kmp_uint32 (t_nproc team) <> 1 ->
  fst (__kmp_for_static_init T E g th schedtype s incr chunk) =
    let nth := wrap kmp_uint32 (t_nproc team) in
    let tc := tripCount T (plower s) (pupper s) incr in
    if sched =? kmp_sch_static E then fst (for_static T E g tid nth tc s incr)
    else if sched =? kmp_sch_static_chunked E then
      fst (fst (for_static_chunked T tid nth tc s incr chunk))
    else s.
Proof.
  intros Hz Hr Hs Hn. unfold __kmp_for_static_init.
  rewrite fst_bind, Hz, Hr, Hs, nth_is_1.
  replace (wrap kmp_uint32 (t_nproc team) =? 1) with false by lia.
  rewrite !fst_bind. fold (tripCount T (plower s) (pupper s) incr).
  cbv zeta.
  destruct (sched =? kmp_sch_static E); [rewrite fst_bind; reflexivity|].
  destruct (sched =? kmp_sch_static_chunked E); [reflexivity|].
  rewrite fst_bind. reflexivity.
Qed.

(** ** Zero-trip loops *)

(** C5.  A loop whose range is empty (upper < lower with a positive
    increment, lower < upper with a negative one) is left as it is: the
    bounds are unchanged, the stride is the increment, the last-iteration
    flag is cleared, nothing depends on the thread or the schedule, and
    nothing but the registration of the workshare construct is done: no
    error is reported, no assertion fails, no partition is computed. *)
Theorem zero_trip_is_success T E g th schedtype s incr chunk :
  in_range T (plower s) -> in_range T (pupper s) -> in_range (signed_t T) incr ->
  (0 < incr /\ pupper s < plower s) \/ (incr < 0 /\ plower s < pupper s) ->
  __kmp_for_static_init T E g th schedtype s incr chunk =
  ({| plastiter := option_map (fun _ => false) (plastiter s);
      plower := plower s; pupper := pupper s; pstride := incr |},
   if __kmp_env_consistency_check g then [Ev_push_workshare] else []).
Proof.
  intros Hl Hu Hi Hempty.
  unfold __kmp_for_static_init.
  rewrite zero_trip_spec, incr_eq_0 by assumption.
  assert (Hz : (if incr >? 0 then pupper s <? plower s else plower s <? pupper s) = true).
  { destruct Hempty as [[H1 H2]|[H1 H2]].
    - replace (incr >? 0) with true by lia. lia.
    - replace (incr >? 0) with false by lia. lia. }
  rewrite Hz. replace (incr =? 0) with false by lia.
  unfold set_pstride, store_last, conv, var, cval. rewrite wrap_id by assumption.
  destruct s as [pl lo up st]; cbn [plastiter plower pupper pstride].
  destruct (__kmp_env_consistency_check g), pl; reflexivity.
Qed.

Lemma zero_trip_is_success_witness :
  __kmp_for_static_init kmp_int32 kmp_h (ex_globals 40) (ex_thread 2 4) 34 (ex_loop 5 2) 1 0 =
  ({| plastiter := Some false; plower := 5; pupper := 2; pstride := 1 |}, [Ev_push_workshare]).
Proof.
  apply (zero_trip_is_success kmp_int32 kmp_h (ex_globals 40) (ex_thread 2 4) 34 (ex_loop 5 2) 1 0).
  - unfold in_range; simpl; lia.
  - unfold in_range; simpl; lia.
  - unfold in_range; simpl; lia.
  - left. simpl. lia.
Defined.

(** ** Single executor *)

Lemma for_serial_stride_spec T lower upper incr :
  in_range T lower -> in_range T upper -> in_range (signed_t T) incr ->
  cval (conv (signed_t T) (for_serial_stride T lower upper incr)) =
    if incr >? 0 then wrap (signed_t T) (upper - lower + 1)
    else wrap (signed_t T) (- (lower - upper + 1)).
Proof.
  intros Hl Hu Hi. unfold for_serial_stride. rewrite incr_gt_0 by assumption.
  destruct (incr >? 0); destruct T; kinds;
    rewrite ?(wrap_id _ lower), ?(wrap_id _ upper) by range_tac; wrap_eq.
Qed.

(** C6 (as the code has it).  When the team is serialized or has one
    thread, a non-empty loop is left whole, the last-iteration flag is set,
    and the stride is [upper - lower + 1] for a positive increment and
    [-(lower - upper + 1)] for a negative one, in the signed type.  That is
    the signed trip count when the increment is 1 or -1. *)
Theorem single_executor_whole_range T E g th schedtype s incr chunk sched tid team :
  in_range T (plower s) -> in_range T (pupper s) -> in_range (signed_t T) incr ->
  zero_trip T (plower s) (pupper s) incr = false ->
  for_resolve E th schedtype = (sched, tid, team) ->
  t_serialized team = true \/ wrap kmp_uint32 (t_nproc team) = 1 ->
  let r := fst (__kmp_for_static_init T E g th schedtype s incr chunk) in
  plower r = plower s /\
  pupper r = pupper s /\
  plastiter r = option_map (fun _ => true) (plastiter s) /\
  pstride r = (if incr >? 0 then wrap (signed_t T) (pupper s - plower s + 1)
               else wrap (signed_t T) (- (plower s - pupper s + 1))) /\
  (incr = 1 -> pstride r = wrap (signed_t T) (tripCount T (plower s) (pupper s) incr)) /\
  (incr = -1 -> pstride r = wrap (signed_t T) (- tripCount T (plower s) (pupper s) incr)).
Proof.
  intros Hl Hu Hi Hz Hr Hone r.
  assert (Hfst : r = set_pstride (store_last s true)
                       (for_serial_stride T (plower s) (pupper s) incr) T).
  { subst r. unfold __kmp_for_static_init. rewrite fst_bind, Hz, Hr.
    destruct (t_serialized team) eqn:Hs.
    - destruct s as [[b|] lo up st]; reflexivity.
    - destruct Hone as [Hone|Hone]; [discriminate|].
      rewrite nth_is_1, Hone. destruct s as [[b|] lo up st]; reflexivity. }
  assert (Hst : pstride r = if incr >? 0 then wrap (signed_t T) (pupper s - plower s + 1)
                            else wrap (signed_t T) (- (plower s - pupper s + 1))).
  { rewrite Hfst. unfold set_pstride. cbn [pstride].
    replace (plower (store_last s true)) with (plower s) by (destruct s as [[b|] ? ? ?]; reflexivity).
    replace (pupper (store_last s true)) with (pupper s) by (destruct s as [[b|] ? ? ?]; reflexivity).
    now apply for_serial_stride_spec. }
  repeat split.
  - rewrite Hfst. destruct s as [[b|] lo up st]; reflexivity.
  - rewrite Hfst. destruct s as [[b|] lo up st]; reflexivity.
  - rewrite Hfst. destruct s as [[b|] lo up st]; reflexivity.
  - exact Hst.
  - intros ->. rewrite Hst, tripCount_spec by assumption.
    change (1 >? 0) with true. change (1 =? 1) with true. cbv iota.
    destruct T; cbn [signed_t unsigned_t]; wrap_eq.
  - intros ->. rewrite Hst, tripCount_spec by assumption.
    change (-1 >? 0) with false. change (-1 =? 1) with false. change (-1 =? -1) with true.
    cbv iota.
    destruct T; cbn [signed_t unsigned_t]; wrap_eq.
Qed.

Lemma single_executor_whole_range_witness :
  let r := fst (__kmp_for_static_init kmp_int32 kmp_h (ex_globals 40) (ex_thread 0 1) 34
                  (ex_loop 10 1) (-1) 0) in
  plower r = 10 /\ pupper r = 1 /\ plastiter r = Some true /\ pstride r = -10 /\
  tripCount kmp_int32 10 1 (-1) = 10.
Proof.
  assert (Hr : forall x, -2147483648 <= x <= 2147483647 -> in_range kmp_int32 x)
    by (intros x Hx; exact Hx).
  pose proof (single_executor_whole_range kmp_int32 kmp_h (ex_globals 40) (ex_thread 0 1) 34
                (ex_loop 10 1) (-1) 0 34 0 (ex_team 1 0)
                (Hr 10 ltac:(lia)) (Hr 1 ltac:(lia)) (Hr (-1) ltac:(lia))
                eq_refl eq_refl (or_intror eq_refl)) as H.
  cbv zeta in H. destruct H as (H1 & H2 & H3 & H4 & _ & H6).
  cbv zeta. split; [exact H1|]. split; [exact H2|]. split; [exact H3|]. split; [exact H4|].
  reflexivity.
Defined.

(** The stride of a loop of five iterations with step 2 run by one thread
    is 10, not 5. *)
Lemma stride_is_not_the_trip_count :
  let r := fst (__kmp_for_static_init kmp_int32 kmp_h (ex_globals 40) (ex_thread 0 1) 34
                  (ex_loop 0 9) 2 0) in
  plower r = 0 /\ pupper r = 9 /\ plastiter r = Some true /\
  pstride r = 10 /\ tripCount kmp_int32 0 9 2 = 5 /\ ideal_trip 0 9 2 = 5 /\
  pstride r <> tripCount kmp_int32 0 9 2.
Proof. vm_compute. repeat split; congruence. Qed.

(** ** Exact trip counts *)

Lemma tripCount_exact T lo up incr :
  in_range T lo -> in_range T up -> in_range (signed_t T) incr ->
  incr <> 0 ->
  (if incr >? 0 then lo <= up else up <= lo) ->
  for_span_ok T lo up incr ->
  tripCount T lo up incr = ideal_trip lo up incr.
Proof.
  intros Hl Hu Hi Hne Hleg Hspan. rewrite tripCount_spec by assumption.
  unfold for_span_ok in Hspan. unfold ideal_trip.
  assert (Hmu : mx (unsigned_t T) = modulus T - 1 /\ mx T <= mx (unsigned_t T)
                /\ mn T <= 0 /\ mx (signed_t T) * 2 + 2 = modulus T
                /\ mx (signed_t T) <= mx T
                /\ mn (signed_t T) = - mx (signed_t T) - 1).
  { destruct T; cbn; lia. }
  destruct Hmu as (Hmu & Hmt & Hmn & Hms & Hmst & Hmns).
  destruct (incr =? 1) eqn:E1; [|destruct (incr =? -1) eqn:E2]; cbn [orb] in Hspan.
  - assert (incr = 1) as -> by lia. cbn [Z.gtb Z.compare] in *. rewrite Z.div_1_r.
    apply wrap_id. unfold in_range. rewrite mn_unsigned_t. lia.
  - assert (incr = -1) as -> by lia. cbn [Z.gtb Z.compare] in *.
    change (- -1) with 1. rewrite Z.div_1_r.
    apply wrap_id. unfold in_range. rewrite mn_unsigned_t. lia.
  - destruct (incr >? 1) eqn:E3.
    + replace (incr >? 0) with true in * by lia.
      rewrite (wrap_id T (up - lo)) by (unfold in_range; lia).
      assert (Etd : tdiv T (up - lo) incr = (up - lo) / incr).
      { unfold tdiv. destruct (is_signed T); [apply Z.quot_div_nonneg; lia | reflexivity]. }
      rewrite Etd.
      assert (0 <= (up - lo) / incr /\ (up - lo) / incr * 2 <= up - lo).
      { split; [apply Z.div_pos; lia|].
        pose proof (Z.mul_div_le (up - lo) incr ltac:(lia)). nia. }
      apply wrap_id. unfold in_range. rewrite mn_unsigned_t. lia.
    + replace (incr >? 0) with false in * by lia.
      assert (Hq : 0 <= (lo - up) / - incr /\ (lo - up) / - incr * 2 <= lo - up).
      { split; [apply Z.div_pos; lia|].
        pose proof (Z.mul_div_le (lo - up) (- incr) ltac:(lia)). nia. }
      rewrite (wrap_id T (lo - up)) by (unfold in_range; lia).
      assert (Etd : tdiv T (lo - up) (wrap T (- incr)) = (lo - up) / - incr).
      { unfold in_range in Hi. rewrite Hmns in Hi.
        assert (Hun : is_signed T = false -> tdiv T (lo - up) (wrap T (- incr)) = (lo - up) / - incr).
        { intros Hs. unfold tdiv. rewrite Hs. rewrite wrap_id; [reflexivity|].
          unfold in_range. destruct T; try discriminate Hs; cbn [mn mx signed_t] in *; lia. }
        assert (Hsg : is_signed T = true -> mx T = mx (signed_t T) ->
                      wrap T (mx (signed_t T) + 1) = - (mx (signed_t T) + 1) ->
                      tdiv T (lo - up) (wrap T (- incr)) = (lo - up) / - incr).
        { intros Hs Hmx Hw. unfold tdiv. rewrite Hs.
          destruct (Z.eq_dec (- incr) (mx (signed_t T) + 1)) as [Em|Em].
          - rewrite (Z.div_small (lo - up) (- incr)) by lia.
            rewrite Em, Hw. apply Z.quot_small_iff; lia.
          - rewrite (wrap_id T (- incr)) by (unfold in_range; lia).
            apply Z.quot_div_nonneg; lia. }
        destruct T; first [ apply Hun; reflexivity | apply Hsg; reflexivity ]. }
      rewrite Etd.
      apply wrap_id. unfold in_range. rewrite mn_unsigned_t. lia.
Qed.

Lemma dist_span_ok_for T lo up incr :
  dist_span_ok T lo up incr -> for_span_ok T lo up incr.
Proof.
  unfold dist_span_ok, for_span_ok.
  assert (mx (signed_t T) <= mx T) by (destruct T; cbn; lia).
  destruct ((incr =? 1) || (incr =? -1)); lia.
Qed.

Lemma tripCountD_spec T lo up incr :
  in_range T lo -> in_range T up -> in_range (signed_t T) incr ->
  tripCountD T lo up incr =
    if incr =? 1 then wrap (unsigned_t T) (up - lo + 1)
    else if incr =? -1 then wrap (unsigned_t T) (lo - up + 1)
    else wrap (unsigned_t T) (Z.quot (wrap (signed_t T) (up - lo)) incr + 1).
Proof.
  intros Hl Hu Hi. unfold tripCountD, dist_trip_count.
  rewrite incr_eq_1, incr_eq_m1 by assumption.
  destruct (incr =? 1) eqn:E1; [|destruct (incr =? -1) eqn:E2];
    rewrite ?fst_bind, ?fst_divide; cbn [ret fst snd].
  - destruct T; kinds; rewrite ?(wrap_id _ lo), ?(wrap_id _ up) by range_tac; wrap_eq.
  - destruct T; kinds; rewrite ?(wrap_id _ lo), ?(wrap_id _ up) by range_tac; wrap_eq.
  - assert (Ed : forall U, modulus U = modulus T ->
                 wrap (signed_t T) (wrap (signed_t T) (wrap U (wrap U up - wrap U lo)))
                 = wrap (signed_t T) (up - lo)).
    { intros U HU. rewrite wrap_wrap. unfold wrap. rewrite HU, modulus_signed_t.
      eapply wrapw_by_eqm; [eqm_erase | eqm_erase | reflexivity]. }
    destruct T; kinds; rewrite ?(wrap_id _ incr) by range_tac;
      first [ rewrite (Ed kmp_int32 eq_refl) | rewrite (Ed kmp_uint32 eq_refl)
            | rewrite (Ed kmp_int64 eq_refl) | rewrite (Ed kmp_uint64 eq_refl) ];
      wrap_eq.
Qed.

Lemma tripCountD_exact T lo up incr :
  in_range T lo -> in_range T up -> in_range (signed_t T) incr ->
  incr <> 0 ->
  (if incr >? 0 then lo <= up else up <= lo) ->
  dist_span_ok T lo up incr ->
  tripCountD T lo up incr = ideal_trip lo up incr.
Proof.
  intros Hl Hu Hi Hne Hleg Hspan. rewrite tripCountD_spec by assumption.
  unfold dist_span_ok in Hspan. unfold ideal_trip.
  assert (Hmu : mx (unsigned_t T) = modulus T - 1 /\ mx (signed_t T) * 2 + 2 = modulus T
                /\ mn (signed_t T) = - mx (signed_t T) - 1).
  { destruct T; repeat split. }
  destruct Hmu as (Hmu & Hms & Hmn).
  destruct (incr =? 1) eqn:E1; [|destruct (incr =? -1) eqn:E2]; cbn [orb] in Hspan.
  - assert (incr = 1) as -> by lia. cbn [Z.gtb Z.compare] in *. rewrite Z.div_1_r.
    apply wrap_id. unfold in_range. rewrite mn_unsigned_t. lia.
  - assert (incr = -1) as -> by lia. cbn [Z.gtb Z.compare] in *.
    change (- -1) with 1. rewrite Z.div_1_r.
    apply wrap_id. unfold in_range. rewrite mn_unsigned_t. lia.
  - rewrite (wrap_id (signed_t T) (up - lo)) by (unfold in_range; lia).
    destruct (incr >? 0) eqn:E.
    + rewrite Z.quot_div_nonneg by lia.
      assert (0 <= (up - lo) / incr <= up - lo).
      { split; [apply Z.div_pos; lia|]. apply Z.div_le_upper_bound; nia. }
      apply wrap_id. unfold in_range. rewrite mn_unsigned_t. lia.
    + replace (up - lo) with (- (lo - up)) by ring.
      replace incr with (- - incr) at 1 by ring.
      rewrite Z.quot_opp_opp by lia. rewrite Z.quot_div_nonneg by lia.
      assert (0 <= (lo - up) / - incr <= lo - up).
      { split; [apply Z.div_pos; lia|]. apply Z.div_le_upper_bound; nia. }
      apply wrap_id. unfold in_range. rewrite mn_unsigned_t. lia.
Qed.

(** A chunk of a loop has a trip count that is computed without overflow
    when the loop has. *)
Lemma dist_span_ok_sub T lo up incr lo' up' :
  dist_span_ok T lo up incr -> Z.abs (up' - lo') <= Z.abs (up - lo) ->
  dist_span_ok T lo' up' incr.
Proof. unfold dist_span_ok. lia. Qed.

(** ** The Chunked schedule *)

Lemma clamp_chunk_range T chunk :
  in_range (signed_t T) chunk ->
  in_range (signed_t T) (clamp_chunk chunk) /\ 1 <= clamp_chunk chunk.
Proof.
  intros H. unfold clamp_chunk. destruct (chunk <? 1) eqn:E; split; try lia; destruct T; range_tac.
Qed.

Lemma clamp_chunk_max chunk : clamp_chunk chunk = Z.max chunk 1.
Proof. unfold clamp_chunk. destruct (chunk <? 1) eqn:E; lia. Qed.

Lemma clamp_chunk_code T chunk :
  in_range (signed_t T) chunk ->
  (if (var (signed_t T) chunk < lit 1)%cint then cval (conv (signed_t T) (lit 1)) else chunk)
  = clamp_chunk chunk.
Proof.
  intros H. rewrite chunk_lt_1 by assumption. unfold clamp_chunk.
  destruct (chunk <? 1); [|reflexivity].
  destruct T; reflexivity.
Qed.

(** The test [tid == ((trip_count - 1) / (UT)chunk) % nth]. *)
Lemma chunk_round_test T tid nth trip c :
  in_range (unsigned_t T) trip -> in_range (signed_t T) c -> 1 <= c ->
  0 <= tid <= 4294967295 -> 0 < nth <= 4294967295 ->
  (var kmp_uint32 tid ==
     ((var (unsigned_t T) trip - lit 1) / conv (unsigned_t T) (var (signed_t T) c))
     %% var kmp_uint32 nth)%cint
  = (tid =? (wrap (unsigned_t T) (trip - 1) / c) mod nth).
Proof.
  intros Htr Hc Hc1 Ht Hn.
  assert (Hq : forall U, U = unsigned_t T ->
               in_range U (wrap U (trip - 1) / c)).
  { intros U ->. pose proof (wrap_range (unsigned_t T) (trip - 1)) as Hw.
    unfold in_range in *. rewrite mn_unsigned_t in *.
    split; [apply Z.div_pos; lia|].
    transitivity (wrap (unsigned_t T) (trip - 1)); [|lia].
    apply Z.div_le_upper_bound; nia. }
  assert (Hm : forall x, 0 <= x mod nth < nth) by (intros; apply Z.mod_pos_bound; lia).
  destruct T; kinds;
    specialize (Hq _ eq_refl);
    rewrite ?(wrap_id _ trip), ?(wrap_id _ c), ?(wrap_id _ 1), ?(wrap_id _ tid),
            ?(wrap_id _ nth) by range_tac;
    rewrite ?wrap_wrap;
    rewrite (wrap_id _ (_ / c)) by assumption;
    match goal with
    | |- context [wrap ?U (?x mod nth)] =>
        rewrite (wrap_id U (x mod nth)) by (specialize (Hm x); range_tac)
    end;
    reflexivity.
Qed.

Lemma for_static_chunked_spec T tid nth trip s incr chunk :
  in_range T (plower s) -> in_range (signed_t T) incr -> in_range (signed_t T) chunk ->
  in_range (unsigned_t T) trip ->
  0 <= tid <= 4294967295 -> 0 < nth <= 4294967295 ->
  let c := clamp_chunk chunk in
  fst (for_static_chunked T tid nth trip s incr chunk) =
  ({| plastiter := option_map
                     (fun _ => tid =? (wrap (unsigned_t T) (trip - 1) / c) mod nth)
                     (plastiter s);
      plower := wrap T (plower s + c * incr * tid);
      pupper := wrap T (plower s + c * incr * tid + c * incr - incr);
      pstride := wrap (signed_t T) (c * incr * nth) |}, c).
Proof.
  intros Hl Hi Hc Htr Ht Hn c. unfold for_static_chunked.
  rewrite !fst_bind, fst_modulo, fst_divide. cbn [ret fst snd].
  rewrite clamp_chunk_code by assumption. fold c.
  destruct (clamp_chunk_range T chunk Hc) as [Hc' Hc1]. fold c in Hc', Hc1.
  rewrite chunk_round_test by assumption.
  clearbody c.
  destruct s as [pl lo up st]. unfold store_last, set_pupper, set_plower, set_pstride.
  cbn [plastiter plower pupper pstride] in *.
  assert (E1 : cval (conv T (var T lo + conv (signed_t T) (var (signed_t T) c * var (signed_t T) incr)
                                       * var kmp_uint32 tid)%cint)
               = wrap T (lo + c * incr * tid)).
  { destruct T; kinds;
      rewrite ?(wrap_id kmp_int64 tid), ?(wrap_id kmp_uint64 tid) by range_tac; wrap_eq. }
  assert (E2 : cval (conv T (var T (wrap T (lo + c * incr * tid))
                             + conv (signed_t T) (var (signed_t T) c * var (signed_t T) incr)
                             - var (signed_t T) incr)%cint)
               = wrap T (lo + c * incr * tid + c * incr - incr)).
  { destruct T; kinds; wrap_eq. }
  assert (E3 : cval (conv (signed_t T)
                       (conv (signed_t T) (var (signed_t T) c * var (signed_t T) incr)
                        * var kmp_uint32 nth)%cint)
               = wrap (signed_t T) (c * incr * nth)).
  { destruct T; kinds;
      rewrite ?(wrap_id kmp_int64 nth), ?(wrap_id kmp_uint64 nth) by range_tac; wrap_eq. }
  destruct pl; cbn [plastiter plower pupper pstride option_map];
    rewrite E1, E2, E3; reflexivity.
Qed.

Lemma tripCount_range T lower upper incr :
  in_range (unsigned_t T) (tripCount T lower upper incr).
Proof.
  unfold tripCount, for_trip_count.
  repeat match goal with |- context [if ?c then _ else _] => destruct c end;
    rewrite ?fst_bind; cbn [ret fst]; unfold conv, cval; apply wrap_range.
Qed.

Lemma tripCountD_range T line lower upper incr :
  in_range (unsigned_t T) (fst (dist_trip_count T line lower upper incr)).
Proof.
  unfold dist_trip_count.
  repeat match goal with |- context [if ?c then _ else _] => destruct c end;
    rewrite ?fst_bind; cbn [ret fst]; unfold conv, cval; apply wrap_range.
Qed.

(** The result of the single-level solver under the Chunked schedule. *)
Lemma for_static_init_chunked T E g th schedtype s incr chunk tid team :
  in_range T (plower s) -> in_range T (pupper s) ->
  in_range (signed_t T) incr -> in_range (signed_t T) chunk ->
  zero_trip T (plower s) (pupper s) incr = false ->
  for_resolve E th schedtype = (kmp_sch_static_chunked E, tid, team) ->
  kmp_sch_static_chunked E <> kmp_sch_static E ->
  t_serialized team = false ->
  1 < wrap kmp_uint32 (t_nproc team) ->
  let nth := wrap kmp_uint32 (t_nproc team) in
  let c := Z.max chunk 1 in
  let tc := tripCount T (plower s) (pupper s) incr in
  fst (__kmp_for_static_init T E g th schedtype s incr chunk) =
  {| plastiter := option_map
                    (fun _ => tid =? (wrap (unsigned_t T) (tc - 1) / c) mod nth)
                    (plastiter s);
     plower := wrap T (plower s + c * incr * tid);
     pupper := wrap T (plower s + c * incr * tid + c * incr - incr);
     pstride := wrap (signed_t T) (c * incr * nth) |}.
Proof.
  intros Hl Hu Hi Hc Hz Hr Hne Hs Hn nth c tc.
  pose proof (for_resolve_tid _ _ _ _ _ _ Hr) as Ht.
  pose proof (wrap_range kmp_uint32 (t_nproc team)) as Hnr. fold nth in Hnr, Hn.
  rewrite (for_static_init_active T E g th schedtype s incr chunk _ _ _ Hz Hr Hs)
    by (fold nth; lia).
  cbv zeta. replace (kmp_sch_static_chunked E =? kmp_sch_static E) with false by lia.
  rewrite Z.eqb_refl. fold nth tc.
  rewrite for_static_chunked_spec;
    try assumption; try (apply tripCount_range); try (unfold in_range in Hnr; simpl in Hnr; lia).
  cbn [fst]. rewrite clamp_chunk_max. reflexivity.
Qed.

(** C4.  Under the Chunked schedule with more than one thread, with
    [chunk] raised to at least 1 and [span = chunk * incr]: the stride is
    [span * nth], the lower bound [lower + span * tid], the upper bound
    [lower_i + span - incr], each in the arithmetic of its type, and the
    last-iteration flag is [tid == ((trip_count - 1) / chunk) % nth],
    where [trip_count] is what lines 239-250 compute: for a loop whose
    span does not overflow that computation it is the number of iterations
    of the loop, and the flag is on the thread of index
    [((iterations - 1) / chunk) % nth].  For the loop 0..19 by 1 (20
    iterations) with chunk 2 on four threads the first chunks are [0,1],
    [2,3], [4,5], [6,7], the stride is 8 and the flag is set for thread 1
    only. *)
Theorem chunked_schedule_formulas T E g th schedtype s incr chunk tid team :
  in_range T (plower s) -> in_range T (pupper s) ->
  in_range (signed_t T) incr -> in_range (signed_t T) chunk ->
  zero_trip T (plower s) (pupper s) incr = false ->
  for_resolve E th schedtype = (kmp_sch_static_chunked E, tid, team) ->
  kmp_sch_static_chunked E <> kmp_sch_static E ->
  t_serialized team = false ->
  1 < wrap kmp_uint32 (t_nproc team) ->
  let nth := wrap kmp_uint32 (t_nproc team) in
  let r := fst (__kmp_for_static_init T E g th schedtype s incr chunk) in
  let c := Z.max chunk 1 in
  let span := c * incr in
  let tc := tripCount T (plower s) (pupper s) incr in
  pstride r = wrap (signed_t T) (span * nth) /\
  plower r = wrap T (plower s + span * tid) /\
  pupper r = wrap T (plower r + span - incr) /\
  plastiter r = option_map (fun _ => tid =? (wrap (unsigned_t T) (tc - 1) / c) mod nth)
                  (plastiter s) /\
  (incr <> 0 -> for_span_ok T (plower s) (pupper s) incr ->
   let n := ideal_trip (plower s) (pupper s) incr in
   tc = n /\ 1 <= n /\
   plastiter r = option_map (fun _ => tid =? ((n - 1) / c) mod nth) (plastiter s)) /\
  tripCount kmp_int32 0 19 1 = 20 /\
  map (fun i => fst (__kmp_for_static_init kmp_int32 kmp_h (ex_globals 40) (ex_thread i 4)
                       33 (ex_loop 0 19) 1 2)) [0; 1; 2; 3]
  = [ {| plastiter := Some false; plower := 0; pupper := 1; pstride := 8 |};
      {| plastiter := Some true; plower := 2; pupper := 3; pstride := 8 |};
      {| plastiter := Some false; plower := 4; pupper := 5; pstride := 8 |};
      {| plastiter := Some false; plower := 6; pupper := 7; pstride := 8 |} ].
Proof.
  intros Hl Hu Hi Hc Hz Hr Hne Hs Hn nth r c span tc.
  assert (Hfst := for_static_init_chunked T E g th schedtype s incr chunk tid team
                    Hl Hu Hi Hc Hz Hr Hne Hs Hn).
  cbv zeta in Hfst. fold nth r c tc in Hfst.
  rewrite Hfst. cbn [plastiter plower pupper pstride]. subst span.
  split; [reflexivity|]. split; [reflexivity|].
  split; [destruct T; wrap_eq|]. split; [reflexivity|].
  split; [|split; reflexivity].
  intros Hnz Hspan.
  set (n := ideal_trip (plower s) (pupper s) incr).
  assert (Hleg : if incr >? 0 then plower s <= pupper s else pupper s <= plower s).
  { rewrite zero_trip_spec in Hz by assumption. destruct (incr >? 0); lia. }
  pose proof (tripCount_exact T _ _ incr Hl Hu Hi Hnz Hleg Hspan) as Hex.
  fold tc n in Hex.
  assert (Hpos : 1 <= n).
  { subst n. unfold ideal_trip. destruct (incr >? 0) eqn:Ei.
    - assert (0 <= (pupper s - plower s) / incr) by (apply Z.div_pos; lia). lia.
    - assert (0 <= (plower s - pupper s) / - incr) by (apply Z.div_pos; lia). lia. }
  pose proof (tripCount_range T (plower s) (pupper s) incr) as Htr. fold tc in Htr.
  split; [exact Hex|]. split; [exact Hpos|].
  rewrite (wrap_id (unsigned_t T) (tc - 1))
    by (unfold in_range in *; rewrite mn_unsigned_t in *; lia).
  rewrite Hex. reflexivity.
Qed.

Lemma chunked_schedule_formulas_witness :
  let r := fst (__kmp_for_static_init kmp_int32 kmp_h (ex_globals 40) (ex_thread 1 4)
                  33 (ex_loop 5 24) 1 2) in
  pstride r = 8 /\ plower r = 7 /\ pupper r = 8 /\
  tripCount kmp_int32 5 24 1 = 20 /\ plastiter r = Some true.
Proof.
  assert (Hr : forall x, -2147483648 <= x <= 2147483647 -> in_range kmp_int32 x)
    by (intros x Hx; exact Hx).
  pose proof (chunked_schedule_formulas kmp_int32 kmp_h (ex_globals 40) (ex_thread 1 4) 33
                (ex_loop 5 24) 1 2 1 (ex_team 4 0)
                (Hr 5 ltac:(lia)) (Hr 24 ltac:(lia)) (Hr 1 ltac:(lia)) (Hr 2 ltac:(lia))
                eq_refl eq_refl ltac:(simpl; lia) eq_refl eq_refl) as H.
  cbv zeta in H. destruct H as (H1 & H2 & H3 & _ & H5 & _).
  destruct (H5 ltac:(lia) ltac:(vm_compute; congruence)) as (Htc & _ & Hflag).
  cbv zeta. rewrite H1. split; [reflexivity|]. split; [exact H2|].
  split; [rewrite H3, H2; reflexivity|].
  split; [exact Htc | rewrite Hflag; reflexivity].
Defined.

(** ** The team chunk solver *)

Lemma wrap_mx T : wrap T (mx T) = mx T.
Proof. apply wrap_id. unfold in_range. destruct T; simpl; lia. Qed.

Lemma wrap_mn T : wrap T (mn T) = mn T.
Proof. apply wrap_id. unfold in_range. destruct T; simpl; lia. Qed.

Lemma mx_range T : in_range T (mx T).
Proof. unfold in_range. destruct T; simpl; lia. Qed.

Lemma mn_range T : in_range T (mn T).
Proof. unfold in_range. destruct T; simpl; lia. Qed.

Create HintDb ranges.
#[export] Hint Resolve wrap_range mx_range mn_range : ranges.
#[export] Hint Extern 1 (in_range _ _) => eassumption : ranges.

Lemma dist_trip_count_line T line lower upper incr :
  fst (dist_trip_count T line lower upper incr) = tripCountD T lower upper incr.
Proof.
  unfold tripCountD, dist_trip_count.
  repeat match goal with |- context [if ?c then _ else _] => destruct c end;
    rewrite ?fst_bind, ?fst_divide; reflexivity.
Qed.

(** Runs the tests of the bound corrections on in-range values. *)
Ltac clamp_tac :=
  repeat (cbv beta iota zeta;
          cbn [plastiter plower pupper pstride fst ret option_map cval conv var];
          rewrite ?wrap_mx, ?wrap_mn;
          first [ rewrite lt_T by auto with ranges
                | rewrite gt_T by auto with ranges
                | rewrite le_T by auto with ranges
                | rewrite ge_T by auto with ranges
                | match goal with
                  | |- context [if (?a <? ?b) then _ else _] =>
                      lazymatch a with context [if _ then _ else _] => fail | _ => idtac end;
                      destruct (a <? b) eqn:?
                  | |- context [if (?a >? ?b) then _ else _] =>
                      lazymatch a with context [if _ then _ else _] => fail | _ => idtac end;
                      destruct (a >? b) eqn:?
                  end ]);
  unfold set_pupper;
  cbn [plastiter plower pupper pstride fst ret option_map cval conv var];
  rewrite ?wrap_mx, ?wrap_mn;
  repeat match goal with
         | |- context [wrap ?U ?x] => rewrite (wrap_id U x) by auto with ranges
         end;
  try reflexivity.

Lemma team_static_spec T g th s incr chunk :
  in_range T (plower s) -> in_range T (pupper s) ->
  in_range (signed_t T) incr -> in_range (signed_t T) chunk ->
  let nteams := wrap kmp_uint32 (th_teams_size_nteams th) in
  let team_id := wrap kmp_uint32 (t_master_tid (th_team th)) in
  0 < nteams ->
  let c := clamp_chunk chunk in
  let tc := tripCountD T (plower s) (pupper s) incr in
  let l := wrap T (plower s + c * incr * team_id) in
  let u0 := wrap T (plower s + c * incr * team_id + c * incr - incr) in
  fst (__kmp_team_static_init T g th s incr chunk) =
  {| plastiter := option_map
                    (fun _ => team_id =? (wrap (unsigned_t T) (tc - 1) / c) mod nteams)
                    (plastiter s);
     plower := l;
     pupper := overflow_clamp T incr l u0 (pupper s);
     pstride := wrap (signed_t T) (c * incr * nteams) |}.
Proof.
  intros Hl Hu Hi Hc nteams team_id Hn c tc l u0.
  pose proof (wrap_range kmp_uint32 (th_teams_size_nteams th)) as Hnr. fold nteams in Hnr.
  pose proof (wrap_range kmp_uint32 (t_master_tid (th_team th))) as Htr. fold team_id in Htr.
  assert (Hn' : 0 < nteams <= 4294967295) by (unfold in_range in Hnr; simpl in Hnr; lia).
  assert (Ht' : 0 <= team_id <= 4294967295) by (unfold in_range in Htr; simpl in Htr; lia).
  unfold __kmp_team_static_init.
  rewrite !fst_bind, fst_modulo, fst_divide. cbn [ret fst snd].
  fold nteams team_id.
  rewrite dist_trip_count_line. fold tc.
  rewrite clamp_chunk_code by assumption. fold c.
  destruct (clamp_chunk_range T chunk Hc) as [Hc' Hc1]. fold c in Hc', Hc1.
  rewrite chunk_round_test
    by (try assumption; apply tripCountD_range).
  rewrite incr_gt_0 by assumption.
  clearbody c tc.
  destruct s as [pl lo up st]. unfold store_last, set_pupper, set_plower, set_pstride.
  cbn [plastiter plower pupper pstride] in *.
  assert (E1 : cval (conv T (var T lo + conv (signed_t T) (var (signed_t T) c * var (signed_t T) incr)
                                       * var kmp_uint32 team_id)%cint) = l).
  { subst l. destruct T; kinds;
      rewrite ?(wrap_id kmp_int64 team_id), ?(wrap_id kmp_uint64 team_id) by range_tac; wrap_eq. }
  assert (E2 : cval (conv T (var T l
                             + conv (signed_t T) (var (signed_t T) c * var (signed_t T) incr)
                             - var (signed_t T) incr)%cint) = u0).
  { subst l u0. destruct T; kinds; wrap_eq. }
  assert (E3 : cval (conv (signed_t T)
                       (conv (signed_t T) (var (signed_t T) c * var (signed_t T) incr)
                        * var kmp_uint32 nteams)%cint)
               = wrap (signed_t T) (c * incr * nteams)).
  { destruct T; kinds;
      rewrite ?(wrap_id kmp_int64 nteams), ?(wrap_id kmp_uint64 nteams) by range_tac; wrap_eq. }
  assert (Hlr : in_range T l) by apply wrap_range.
  assert (Hur : in_range T u0) by apply wrap_range.
  rewrite E1, E3. rewrite E2.
  clearbody l u0.
  unfold overflow_clamp.
  destruct pl; cbn [plastiter plower pupper pstride option_map];
    destruct (incr >? 0); clamp_tac.
Qed.

(** C8, the code departs from the claim.  Line 685 casts the difference of
    the bounds to the signed type before it divides it, where the
    single-level solver divides in the type of the loop variable (lines
    245-249).  On the unsigned 32-bit loop 0..3000000000 by 2, of
    1500000001 iterations, with chunk 1 and three teams, the team solver
    counts 3647483649 iterations and sets the flag for team 2; the last
    iteration is in a chunk of team 0, [((1500000001 - 1) / 1) % 3 = 0],
    and the Chunked case of the single-level solver on three threads sets
    the flag for index 0. *)
Theorem team_solver_miscounts_wide_span :
  ideal_trip 0 3000000000 2 = 1500000001 /\
  tripCount kmp_uint32 0 3000000000 2 = 1500000001 /\
  tripCountD kmp_uint32 0 3000000000 2 = 3647483649 /\
  ((1500000001 - 1) / 1) mod 3 = 0 /\
  (let team := fun i => fst (__kmpc_team_static_init_4u (ex_globals 40)
                               (ex_team_thread i 3 0 1) (ex_loop 0 3000000000) 2 1) in
   plastiter (team 0) = Some false /\
   plastiter (team 1) = Some false /\
   plastiter (team 2) = Some true) /\
  (let thread := fun i => fst (__kmpc_for_static_init_4u kmp_h (ex_globals 40)
                                 (ex_thread i 3) 33 (ex_loop 0 3000000000) 2 1) in
   plastiter (thread 0) = Some true /\
   plastiter (thread 1) = Some false /\
   plastiter (thread 2) = Some false).
Proof. vm_compute. repeat split; reflexivity. Qed.

(** X18.  The team chunk solver as the code has it, for [nteams] and
    [team_id] in the place of [nth] and [tid]: with [chunk] raised to at
    least 1 the stride is [chunk * incr * nteams], the lower bound [lower
    + chunk * incr * team_id], the upper bound [lower_i + chunk * incr -
    incr] corrected by the sentinel of the domain on wrap-around and by
    the upper bound of the loop, and the flag is [team_id == ((trip_count
    - 1) / chunk) % nteams] for the trip count of line 685.  Stride and
    lower bound are those of the Chunked case of the single-level solver,
    whose upper bound is the one before the corrections.  For a loop with
    iterations whose span passes the signed cast of line 685 the trip
    count is the number of iterations, the one the single-level solver
    counts, and the flags of the two solvers agree. *)
Theorem team_chunk_is_chunked_formula T E g th s incr chunk :
  in_range T (plower s) -> in_range T (pupper s) ->
  in_range (signed_t T) incr -> in_range (signed_t T) chunk ->
  let nteams := wrap kmp_uint32 (th_teams_size_nteams th) in
  let team_id := wrap kmp_uint32 (t_master_tid (th_team th)) in
  0 < nteams ->
  let r := fst (__kmp_team_static_init T g th s incr chunk) in
  let c := Z.max chunk 1 in
  let span := c * incr in
  let tc := tripCountD T (plower s) (pupper s) incr in
  pstride r = wrap (signed_t T) (span * nteams) /\
  plower r = wrap T (plower s + span * team_id) /\
  pupper r = overflow_clamp T incr (plower r) (wrap T (plower r + span - incr)) (pupper s) /\
  plastiter r = option_map (fun _ => team_id =? (wrap (unsigned_t T) (tc - 1) / c) mod nteams)
                  (plastiter s) /\
  (forall th' schedtype team',
      zero_trip T (plower s) (pupper s) incr = false ->
      for_resolve E th' schedtype = (kmp_sch_static_chunked E, team_id, team') ->
      kmp_sch_static_chunked E <> kmp_sch_static E ->
      t_serialized team' = false ->
      wrap kmp_uint32 (t_nproc team') = nteams ->
      1 < nteams ->
      let r' := fst (__kmp_for_static_init T E g th' schedtype s incr chunk) in
      pstride r' = pstride r /\
      plower r' = plower r /\
      pupper r' = wrap T (plower r + span - incr) /\
      (tripCount T (plower s) (pupper s) incr = tc -> plastiter r' = plastiter r)) /\
  (incr <> 0 -> illegal (plower s) (pupper s) incr = false ->
   dist_span_ok T (plower s) (pupper s) incr ->
   let n := ideal_trip (plower s) (pupper s) incr in
   tc = n /\ tripCount T (plower s) (pupper s) incr = n /\
   plastiter r = option_map (fun _ => team_id =? ((n - 1) / c) mod nteams) (plastiter s)).
Proof.
  intros Hl Hu Hi Hc nteams team_id Hn r c span tc.
  assert (Hfst := team_static_spec T g th s incr chunk Hl Hu Hi Hc Hn).
  cbv zeta in Hfst. fold nteams team_id tc r in Hfst.
  rewrite clamp_chunk_max in Hfst. fold c in Hfst.
  assert (Eu : wrap T (plower s + c * incr * team_id + c * incr - incr)
               = wrap T (wrap T (plower s + c * incr * team_id) + span - incr)).
  { subst span. destruct T; wrap_eq. }
  rewrite Hfst. cbn [plastiter plower pupper pstride]. subst span.
  split; [reflexivity|]. split; [reflexivity|]. split; [now rewrite Eu|].
  split; [reflexivity|]. split.
  - intros th' schedtype team' Hz Hr Hne Hs Hnth Hn1.
    pose proof (for_static_init_chunked T E g th' schedtype s incr chunk team_id team'
                  Hl Hu Hi Hc Hz Hr Hne Hs ltac:(lia)) as H.
    cbv zeta in H. rewrite Hnth in H. fold c in H.
    cbv zeta. rewrite H. cbn [plastiter plower pupper pstride].
    split; [reflexivity|]. split; [reflexivity|]. split; [destruct T; wrap_eq|].
    intros ->. reflexivity.
  - intros Hnz Hill Hspan.
    set (n := ideal_trip (plower s) (pupper s) incr).
    assert (Hleg : if incr >? 0 then plower s <= pupper s else pupper s <= plower s).
    { unfold illegal in Hill. destruct (incr >? 0); lia. }
    pose proof (tripCountD_exact T _ _ incr Hl Hu Hi Hnz Hleg Hspan) as Hex.
    pose proof (tripCount_exact T _ _ incr Hl Hu Hi Hnz Hleg
                  (dist_span_ok_for T _ _ _ Hspan)) as Hex1.
    fold tc n in Hex. fold n in Hex1.
    assert (Hpos : 1 <= n).
    { subst n. unfold ideal_trip. destruct (incr >? 0) eqn:Ei.
      - assert (0 <= (pupper s - plower s) / incr) by (apply Z.div_pos; lia). lia.
      - assert (0 <= (plower s - pupper s) / - incr) by (apply Z.div_pos; lia). lia. }
    pose proof (tripCountD_range T 448 (plower s) (pupper s) incr) as Htr.
    fold (tripCountD T (plower s) (pupper s) incr) in Htr. fold tc in Htr.
    split; [exact Hex|]. split; [exact Hex1|].
    rewrite (wrap_id (unsigned_t T) (tc - 1))
      by (unfold in_range in *; rewrite mn_unsigned_t in *; lia).
    rewrite Hex. reflexivity.
Qed.

Lemma team_chunk_is_chunked_formula_witness :
  let r := fst (__kmp_team_static_init kmp_int32 (ex_globals 40) (ex_team_thread 2 4 0 1)
                  (ex_loop 5 14) 1 4) in
  pstride r = 16 /\ plower r = 13 /\ pupper r = 14 /\
  tripCountD kmp_int32 5 14 1 = 10 /\ plastiter r = Some true.
Proof.
  assert (Hr : forall x, -2147483648 <= x <= 2147483647 -> in_range kmp_int32 x)
    by (intros x Hx; exact Hx).
  pose proof (team_chunk_is_chunked_formula kmp_int32 kmp_h (ex_globals 40)
                (ex_team_thread 2 4 0 1) (ex_loop 5 14) 1 4
                (Hr 5 ltac:(lia)) (Hr 14 ltac:(lia)) (Hr 1 ltac:(lia)) (Hr 4 ltac:(lia))
                eq_refl) as H.
  cbv zeta in H. destruct H as (H1 & H2 & H3 & _ & _ & H6).
  destruct (H6 ltac:(lia) eq_refl ltac:(vm_compute; congruence)) as (Htc & _ & Hflag).
  cbv zeta. rewrite H1. split; [reflexivity|]. split; [exact H2|].
  split; [rewrite H3, H2; reflexivity|].
  split; [exact Htc | rewrite Hflag; reflexivity].
Defined.

(** C9.  The Chunked case of the single-level solver never corrects the
    upper bound: it is [lower_i + chunk * incr - incr] in the arithmetic
    of the loop variable, whatever the upper bound of the loop is, also
    when it exceeds that bound (thread 3 of 4 on 0..4 with chunk 2 gets
    [6,7]) or wraps around (the chunk of four from 2147483646 ends at
    -2147483647); the team chunk solver returns the bound of the loop in
    both cases. *)
Theorem chunked_upper_is_never_clamped T E g th schedtype s incr chunk tid team :
  in_range T (plower s) -> in_range T (pupper s) ->
  in_range (signed_t T) incr -> in_range (signed_t T) chunk ->
  zero_trip T (plower s) (pupper s) incr = false ->
  for_resolve E th schedtype = (kmp_sch_static_chunked E, tid, team) ->
  kmp_sch_static_chunked E <> kmp_sch_static E ->
  t_serialized team = false ->
  1 < wrap kmp_uint32 (t_nproc team) ->
  let r := fst (__kmp_for_static_init T E g th schedtype s incr chunk) in
  let c := Z.max chunk 1 in
  pupper r = wrap T (plower r + c * incr - incr) /\
  pupper r = wrap T (plower s + c * incr * tid + c * incr - incr) /\
  (pupper (fst (__kmp_for_static_init kmp_int32 kmp_h (ex_globals 40) (ex_thread 3 4) 33
                  (ex_loop 0 4) 1 2)) = 7 /\
   pupper (fst (__kmp_team_static_init kmp_int32 (ex_globals 40) (ex_team_thread 3 4 0 1)
                  (ex_loop 0 4) 1 2)) = 4) /\
  (pupper (fst (__kmp_for_static_init kmp_int32 kmp_h (ex_globals 40) (ex_thread 0 2) 33
                  (ex_loop 2147483646 2147483647) 1 4)) = -2147483647 /\
   pupper (fst (__kmp_team_static_init kmp_int32 (ex_globals 40) (ex_team_thread 0 2 0 1)
                  (ex_loop 2147483646 2147483647) 1 4)) = 2147483647).
Proof.
  intros Hl Hu Hi Hc Hz Hr Hne Hs Hn r c.
  pose proof (for_static_init_chunked T E g th schedtype s incr chunk tid team
                Hl Hu Hi Hc Hz Hr Hne Hs Hn) as H.
  cbv zeta in H. fold r c in H. rewrite H. cbn [plastiter plower pupper pstride].
  split; [destruct T; wrap_eq|]. split; [reflexivity|].
  split; split; reflexivity.
Qed.

Lemma chunked_upper_is_never_clamped_witness :
  let r := fst (__kmp_for_static_init kmp_int32 kmp_h (ex_globals 40) (ex_thread 3 4) 33
                  (ex_loop 0 4) 1 2) in
  pupper r = wrap kmp_int32 (plower r + 2 * 1 - 1) /\ pupper r = 7.
Proof.
  assert (Hr : forall x, -2147483648 <= x <= 2147483647 -> in_range kmp_int32 x)
    by (intros x Hx; exact Hx).
  pose proof (chunked_upper_is_never_clamped kmp_int32 kmp_h (ex_globals 40) (ex_thread 3 4) 33
                (ex_loop 0 4) 1 2 3 (ex_team 4 0)
                (Hr 0 ltac:(lia)) (Hr 4 ltac:(lia)) (Hr 1 ltac:(lia)) (Hr 2 ltac:(lia))
                eq_refl eq_refl ltac:(simpl; lia) eq_refl eq_refl) as H.
  cbv zeta in H. destruct H as (H1 & H2 & _).
  cbv zeta. split; [exact H1 | rewrite H2; reflexivity].
Defined.

(** ** Divisions *)

Lemma snd_when_false m : snd (when false m) = [].
Proof. reflexivity. Qed.

Lemma Forall_bind {A B : Type} (P : event -> Prop) (m : M A) (f : A -> M B) :
  Forall P (snd m) -> Forall P (snd (f (fst m))) -> Forall P (snd (bind m f)).
Proof. intros H1 H2. rewrite snd_bind. apply Forall_app. now split. Qed.

Lemma Forall_when (P : event -> Prop) c m :
  (c = true -> Forall P (snd m)) -> Forall P (snd (when c m)).
Proof. destruct c; cbn; auto. Qed.

Lemma wrapw_zero lo m x : wrapw lo m x = 0 -> exists k, x = k * m.
Proof.
  intros H. destruct (wrapw_decomp lo m x) as [k Hk]. exists (- k). lia.
Qed.

(** A nonzero increment stays nonzero when negated and converted. *)
Lemma neg_incr_nonzero T U incr :
  modulus U = modulus T -> in_range (signed_t T) incr -> incr <> 0 ->
  wrap U (wrap (signed_t T) (- incr)) <> 0.
Proof.
  intros HU Hi Hne H. unfold wrap in H. apply wrapw_zero in H. destruct H as [k Hk].
  destruct (wrapw_decomp (mn (signed_t T)) (modulus (signed_t T)) (- incr)) as [j Hj].
  rewrite Hj in Hk. rewrite HU, modulus_signed_t in *.
  destruct T; unfold in_range in Hi; cbn [mn mx modulus signed_t] in *; lia.
Qed.

Lemma for_trip_count_divs T lower upper incr :
  in_range T lower -> in_range T upper -> in_range (signed_t T) incr -> incr <> 0 ->
  Forall (div_ok incr) (snd (for_trip_count T lower upper incr)).
Proof.
  intros Hl Hu Hi Hne. unfold for_trip_count.
  rewrite incr_eq_1, incr_eq_m1, incr_gt_1 by assumption.
  destruct (incr =? 1) eqn:E1; [constructor|].
  destruct (incr =? -1) eqn:E2; [constructor|].
  destruct (incr >? 1) eqn:E3; cbn [snd bind divide emit fst ret app];
    repeat constructor; try lia.
  - destruct T; kinds; rewrite ?wrap_id by range_tac; lia.
  - destruct T; kinds;
      [ apply (neg_incr_nonzero kmp_int32 kmp_int32)
      | apply (neg_incr_nonzero kmp_uint32 kmp_uint32)
      | apply (neg_incr_nonzero kmp_int64 kmp_int64)
      | apply (neg_incr_nonzero kmp_uint64 kmp_uint64) ];
      try reflexivity; assumption.
Qed.

Lemma dist_trip_count_divs T line lower upper incr :
  in_range (signed_t T) incr -> incr <> 0 ->
  Forall (div_ok incr) (snd (dist_trip_count T line lower upper incr)).
Proof.
  intros Hi Hne. unfold dist_trip_count.
  rewrite incr_eq_1, incr_eq_m1 by assumption.
  destruct (incr =? 1) eqn:E1; [constructor|].
  destruct (incr =? -1) eqn:E2; [constructor|].
  cbn [snd bind divide emit fst ret app]; repeat constructor; try lia.
  destruct T; kinds; rewrite ?wrap_id by range_tac; lia.
Qed.

Lemma snd_divide line d x y :
  snd (divide line d x y) =
  [Ev_div line d (wrap (common (cty x) (cty y)) (cval x)) (wrap (common (cty x) (cty y)) (cval y))].
Proof. reflexivity. Qed.

Lemma snd_modulo line d x y :
  snd (modulo line d x y) =
  [Ev_div line d (wrap (common (cty x) (cty y)) (cval x)) (wrap (common (cty x) (cty y)) (cval y))].
Proof. reflexivity. Qed.

(** Comparisons of a trip count with a thread (or team) number or count. *)
Lemma lt_tc_n T tc n :
  in_range (unsigned_t T) tc -> 0 <= n <= 4294967295 ->
  (var (unsigned_t T) tc < var kmp_uint32 n)%cint = (tc <? n).
Proof. intros Ht Hn. destruct T; kinds; rewrite ?wrap_id by range_tac; reflexivity. Qed.

Lemma le_tc_n T tc n :
  in_range (unsigned_t T) tc -> 0 <= n <= 4294967295 ->
  (var (unsigned_t T) tc <= var kmp_uint32 n)%cint = (tc <=? n).
Proof. intros Ht Hn. destruct T; kinds; rewrite ?wrap_id by range_tac; reflexivity. Qed.

Lemma lt_n_tc T tc n :
  in_range (unsigned_t T) tc -> 0 <= n <= 4294967295 ->
  (var kmp_uint32 n < var (unsigned_t T) tc)%cint = (n <? tc).
Proof. intros Ht Hn. destruct T; kinds; rewrite ?wrap_id by range_tac; reflexivity. Qed.

Lemma eq_n_0 n : 0 <= n <= 4294967295 -> (var kmp_uint32 n == lit 0)%cint = (n =? 0).
Proof. intros Hn. kinds. rewrite ?wrap_id by range_tac. reflexivity. Qed.

(** The operands of [trip_count / n] and [trip_count % n]. *)
Lemma count_div_ok T incr line d tc n :
  in_range (unsigned_t T) tc -> 1 <= n <= 4294967295 ->
  (partition_line line = true -> n <= tc) ->
  (d = by_nth \/ d = by_nteams) ->
  div_ok incr (Ev_div line d
                 (wrap (common (unsigned_t T) kmp_uint32) tc)
                 (wrap (common (unsigned_t T) kmp_uint32) n)).
Proof.
  intros Ht Hn Hp Hd.
  assert (E : wrap (common (unsigned_t T) kmp_uint32) tc = tc /\
              wrap (common (unsigned_t T) kmp_uint32) n = n).
  { destruct T; kinds; rewrite ?wrap_id by range_tac; auto. }
  destruct E as [-> ->].
  destruct Hd as [-> | ->]; cbn; repeat split; try lia; exact Hp.
Qed.

Ltac divs_step :=
  first [ rewrite snd_bind
        | rewrite snd_divide
        | rewrite snd_modulo
        | apply Forall_nil
        | apply Forall_app; split
        | apply Forall_cons
        | progress cbn [snd fst ret emit when cty cval var conv]
        | match goal with
          | |- Forall _ (snd (if ?c then _ else _)) => destruct c eqn:?
          | |- Forall _ (snd (let s := if ?c then _ else _ in _)) => destruct c eqn:?
          end ].

Lemma for_static_divs T E g tid nth tc s incr :
  in_range (unsigned_t T) tc -> 1 <= nth <= 4294967295 ->
  Forall (div_ok incr) (snd (for_static T E g tid nth tc s incr)).
Proof.
  intros Ht Hn. unfold for_static.
  rewrite lt_tc_n by (try assumption; lia).
  destruct (tc <? nth) eqn:E0; [apply Forall_nil|].
  destruct (__kmp_static g =? kmp_sch_static_balanced E).
  - repeat divs_step; apply (count_div_ok T); auto; intros; lia.
  - repeat divs_step; try (apply (count_div_ok T); auto; intros; lia).
Qed.

Lemma for_static_chunked_divs T tid nth tc s incr chunk :
  in_range (signed_t T) chunk -> 1 <= nth <= 4294967295 ->
  Forall (div_ok incr) (snd (for_static_chunked T tid nth tc s incr chunk)).
Proof.
  intros Hc Hn. unfold for_static_chunked.
  rewrite clamp_chunk_code by assumption.
  destruct (clamp_chunk_range T chunk Hc) as [Hc' Hc1].
  rewrite !snd_bind, snd_divide, snd_modulo, fst_divide. cbn [snd ret].
  rewrite app_nil_r.
  apply Forall_cons; [|apply Forall_cons; [|apply Forall_nil]].
  - destruct T; kinds; rewrite ?wrap_wrap;
      rewrite (wrap_id _ (clamp_chunk chunk)) by range_tac; cbn; lia.
  - change (partition_line 322) with false.
    destruct T; kinds; rewrite (wrap_id _ nth) by range_tac;
      (split; [lia | split; [lia | intros H; discriminate H]]).
Qed.

Lemma for_itt_metadata_divs T E g th team schedtype tid nth tc chunk incr :
  in_range (unsigned_t T) tc -> 1 <= nth <= 4294967295 ->
  Forall (div_ok incr) (snd (for_itt_metadata T E g th team schedtype tid nth tc chunk)).
Proof.
  intros Ht Hn. unfold for_itt_metadata. apply Forall_when. intros _.
  destruct (schedtype =? kmp_sch_static E).
  - repeat divs_step; try exact I;
      apply (count_div_ok T); auto; intros H; discriminate H.
  - repeat divs_step. exact I.
Qed.

Lemma for_resolve_team E th schedtype sched tid team :
  for_resolve E th schedtype = (sched, tid, team) ->
  team = th_team th \/ team = th_team_parent th.
Proof.
  unfold for_resolve. destruct (_ > _)%cint; intros H; inversion H; auto.
Qed.

Lemma for_static_init_divs T E g th schedtype s incr chunk :
  in_range T (plower s) -> in_range T (pupper s) ->
  in_range (signed_t T) incr -> in_range (signed_t T) chunk ->
  incr <> 0 ->
  1 <= wrap kmp_uint32 (t_nproc (th_team th)) ->
  1 <= wrap kmp_uint32 (t_nproc (th_team_parent th)) ->
  Forall (div_ok incr) (snd (__kmp_for_static_init T E g th schedtype s incr chunk)).
Proof.
  intros Hl Hu Hi Hc Hne Hn1 Hn2. unfold __kmp_for_static_init.
  apply Forall_bind.
  { apply Forall_when. intros _. repeat divs_step; try exact I. apply Forall_when.
    intros _. repeat constructor. }
  cbn [fst].
  destruct (zero_trip T (plower s) (pupper s) incr); [apply Forall_nil|].
  destruct (for_resolve E th schedtype) as [[sched tid] team] eqn:Hr.
  destruct (t_serialized team); [apply Forall_nil|].
  destruct (_ == _)%cint; [apply Forall_nil|].
  assert (Hn : 1 <= wrap kmp_uint32 (t_nproc team) <= 4294967295).
  { pose proof (wrap_range kmp_uint32 (t_nproc team)) as H. unfold in_range in H. simpl in H.
    destruct (for_resolve_team _ _ _ _ _ _ Hr) as [-> | ->]; lia. }
  apply Forall_bind; [now apply for_trip_count_divs|].
  fold (tripCount T (plower s) (pupper s) incr).
  pose proof (tripCount_range T (plower s) (pupper s) incr) as Htc.
  apply Forall_bind.
  { apply Forall_when. intros _. apply Forall_when. intros _. repeat constructor. }
  apply Forall_bind.
  - destruct (sched =? kmp_sch_static E).
    + apply Forall_bind; [now apply for_static_divs | apply Forall_nil].
    + destruct (sched =? kmp_sch_static_chunked E).
      * now apply for_static_chunked_divs.
      * repeat divs_step. exact I.
  - apply Forall_bind; [now apply for_itt_metadata_divs | apply Forall_nil].
Qed.

Lemma dist_team_chunk_divs T E g tid team_id nteams s incr :
  in_range (signed_t T) incr -> incr <> 0 -> 1 <= nteams <= 4294967295 ->
  Forall (div_ok incr) (snd (dist_team_chunk T E g tid team_id nteams s incr)).
Proof.
  intros Hi Hne Hn. unfold dist_team_chunk.
  apply Forall_bind; [now apply dist_trip_count_divs|].
  pose proof (tripCountD_range T 448 (d_plower s) (d_pupper s) incr) as Htc.
  set (tc := fst (dist_trip_count T 448 (d_plower s) (d_pupper s) incr)) in *.
  rewrite le_tc_n by (try assumption; lia).
  destruct (tc <=? nteams) eqn:E0; [apply Forall_nil|].
  destruct (__kmp_static g =? kmp_sch_static_balanced E).
  - repeat divs_step; apply (count_div_ok T); auto; intros; lia.
  - repeat divs_step; try (apply (count_div_ok T); auto; intros; lia).
Qed.

Lemma dist_static_divs T E g tid nth tc s incr :
  in_range (unsigned_t T) tc -> 1 <= nth <= 4294967295 ->
  Forall (div_ok incr) (snd (dist_static T E g tid nth tc s incr)).
Proof.
  intros Ht Hn. unfold dist_static.
  rewrite le_tc_n by (try assumption; lia).
  destruct (tc <=? nth) eqn:E0; [apply Forall_nil|].
  destruct (__kmp_static g =? kmp_sch_static_balanced E).
  - repeat divs_step; apply (count_div_ok T); auto; intros; lia.
  - repeat divs_step; try (apply (count_div_ok T); auto; intros; lia).
Qed.

Lemma dist_static_chunked_divs T tid nth tc s incr chunk :
  in_range (signed_t T) chunk -> 1 <= nth <= 4294967295 ->
  Forall (div_ok incr) (snd (dist_static_chunked T tid nth tc s incr chunk)).
Proof.
  intros Hc Hn. unfold dist_static_chunked.
  rewrite clamp_chunk_code by assumption.
  destruct (clamp_chunk_range T chunk Hc) as [Hc' Hc1].
  rewrite !snd_bind, snd_divide, snd_modulo, fst_divide. cbn [snd ret].
  rewrite app_nil_r.
  apply Forall_cons; [|apply Forall_cons; [|apply Forall_nil]].
  - destruct T; kinds; rewrite ?wrap_wrap;
      rewrite (wrap_id _ (clamp_chunk chunk)) by range_tac; cbn; lia.
  - change (partition_line 581) with false.
    destruct T; kinds; rewrite (wrap_id _ nth) by range_tac;
      (split; [lia | split; [lia | intros H; discriminate H]]).
Qed.

Lemma dist_for_static_init_divs T E g th schedule s incr chunk :
  in_range (signed_t T) incr -> in_range (signed_t T) chunk ->
  incr <> 0 ->
  1 <= wrap kmp_uint32 (th_team_nproc th) ->
  1 <= wrap kmp_uint32 (th_teams_size_nteams th) ->
  Forall (div_ok incr) (snd (__kmp_dist_for_static_init T E g th schedule s incr chunk)).
Proof.
  intros Hi Hc Hne Hn1 Hn2. unfold __kmp_dist_for_static_init.
  assert (R : forall x, 1 <= wrap kmp_uint32 x -> 1 <= wrap kmp_uint32 x <= 4294967295).
  { intros x Hx. pose proof (wrap_range kmp_uint32 x) as H. unfold in_range in H.
    simpl in H. lia. }
  apply Forall_bind.
  { apply Forall_when. intros _. repeat divs_step; try exact I.
    - apply Forall_when. intros _. repeat constructor.
    - apply Forall_when. intros _. repeat constructor. }
  cbn [fst]. cbv zeta.
  apply Forall_bind; [apply dist_team_chunk_divs; auto|].
  destruct (snd (fst _)); [|apply Forall_nil].
  unfold dist_thread_chunk.
  apply Forall_bind; [now apply dist_trip_count_divs|].
  destruct (schedule =? kmp_sch_static E).
  - apply dist_static_divs; auto. apply tripCountD_range.
  - destruct (schedule =? kmp_sch_static_chunked E).
    + apply dist_static_chunked_divs; auto.
    + repeat divs_step. exact I.
Qed.

Lemma team_static_init_divs T g th s incr chunk :
  in_range (signed_t T) incr -> in_range (signed_t T) chunk ->
  incr <> 0 ->
  1 <= wrap kmp_uint32 (th_teams_size_nteams th) ->
  Forall (div_ok incr) (snd (__kmp_team_static_init T g th s incr chunk)).
Proof.
  intros Hi Hc Hne Hn. unfold __kmp_team_static_init.
  pose proof (wrap_range kmp_uint32 (th_teams_size_nteams th)) as Hnr.
  unfold in_range in Hnr. simpl in Hnr.
  set (nteams := wrap kmp_uint32 (th_teams_size_nteams th)) in *.
  apply Forall_bind.
  { apply Forall_when. intros _. repeat divs_step;
      apply Forall_when; intros _; repeat constructor. }
  cbn [fst].
  apply Forall_bind; [now apply dist_trip_count_divs|].
  rewrite clamp_chunk_code by assumption.
  destruct (clamp_chunk_range T chunk Hc) as [Hc' Hc1].
  rewrite !snd_bind, snd_divide, snd_modulo, fst_divide.
  apply Forall_cons; [|apply Forall_cons].
  - destruct T; kinds; rewrite ?wrap_wrap;
      rewrite (wrap_id _ (clamp_chunk chunk)) by range_tac; cbn; lia.
  - change (partition_line 694) with false.
    destruct T; kinds; rewrite (wrap_id _ nteams) by range_tac;
      (split; [lia | split; [lia | intros H; discriminate H]]).
  - cbn [fst]. destruct (_ > _)%cint; apply Forall_nil.
Qed.

(** C10.  For a nonzero increment and thread and team counts of at least
    1, every [/] and [%] the three solvers evaluate has a divisor that is
    not zero: the trip count is divided by the increment (or its negation)
    only when [|incr| > 1]; the number of threads or teams that divides is
    at least 1 and, where the trip count is split among the threads or
    teams, not above the trip count; a chunk that divides has been raised
    to at least 1. *)
Theorem divisors_are_nonzero T E g th schedtype (s : loop_state) (sd : dist_state) incr chunk :
  in_range T (plower s) -> in_range T (pupper s) ->
  in_range (signed_t T) incr -> in_range (signed_t T) chunk ->
  incr <> 0 ->
  1 <= wrap kmp_uint32 (t_nproc (th_team th)) ->
  1 <= wrap kmp_uint32 (t_nproc (th_team_parent th)) ->
  1 <= wrap kmp_uint32 (th_team_nproc th) ->
  1 <= wrap kmp_uint32 (th_teams_size_nteams th) ->
  Forall (div_ok incr) (snd (__kmp_for_static_init T E g th schedtype s incr chunk)) /\
  Forall (div_ok incr) (snd (__kmp_dist_for_static_init T E g th schedtype sd incr chunk)) /\
  Forall (div_ok incr) (snd (__kmp_team_static_init T g th s incr chunk)).
Proof.
  intros Hl Hu Hi Hc Hne H1 H2 H3 H4. split; [|split].
  - now apply for_static_init_divs.
  - now apply dist_for_static_init_divs.
  - now apply team_static_init_divs.
Qed.

Lemma divisors_are_nonzero_witness :
  Forall (div_ok 3)
    (snd (__kmp_for_static_init kmp_uint32 kmp_h (ex_globals 41) (ex_team_thread 1 2 0 3) 34
            (ex_loop 0 29) 3 0)) /\
  snd (__kmp_for_static_init kmp_uint32 kmp_h (ex_globals 41) (ex_team_thread 1 2 0 3) 34
            (ex_loop 0 29) 3 0)
  = [Ev_push_workshare; Ev_div 246 by_incr 29 3; Ev_div 278 by_nth 10 3; Ev_div 279 by_nth 10 3].
Proof.
  split; [|reflexivity].
  apply (divisors_are_nonzero kmp_uint32 kmp_h (ex_globals 41) (ex_team_thread 1 2 0 3) 34
           (ex_loop 0 29) (ex_dist_loop 0 29) 3 0);
    try (unfold in_range; simpl; lia); try (vm_compute; congruence).
Defined.

(** ** Iterations of a legal loop *)

(** The [k]-th value of the loop variable lies between the bounds, so it
    is computed without wrap-around. *)
Lemma iteration_between lo up incr k :
  incr <> 0 ->
  (if incr >? 0 then lo <= up else up <= lo) ->
  0 <= k < ideal_trip lo up incr ->
  if incr >? 0 then lo <= lo + k * incr <= up else up <= lo + k * incr <= lo.
Proof.
  intros Hne Hleg Hk. unfold ideal_trip in Hk.
  destruct (incr >? 0) eqn:E.
  - assert (Hi : 0 < incr) by lia.
    pose proof (Z.mul_div_le (up - lo) incr Hi) as Hq.
    assert (k * incr <= (up - lo) / incr * incr) by nia.
    nia.
  - assert (Hi : 0 < - incr) by lia.
    pose proof (Z.mul_div_le (lo - up) (- incr) Hi) as Hq.
    assert (k * (- incr) <= (lo - up) / (- incr) * (- incr)) by nia.
    nia.
Qed.

Lemma iteration_exact T lo up incr k :
  in_range T lo -> in_range T up -> incr <> 0 ->
  (if incr >? 0 then lo <= up else up <= lo) ->
  0 <= k < ideal_trip lo up incr ->
  wrap T (lo + k * incr) = lo + k * incr.
Proof.
  intros Hl Hu Hne Hleg Hk. apply wrap_id.
  pose proof (iteration_between lo up incr k Hne Hleg Hk) as H.
  unfold in_range in *. destruct (incr >? 0); lia.
Qed.

Lemma ideal_trip_pos lo up incr :
  incr <> 0 -> (if incr >? 0 then lo <= up else up <= lo) -> 1 <= ideal_trip lo up incr.
Proof.
  intros Hne Hleg. unfold ideal_trip. destruct (incr >? 0) eqn:E.
  - assert (0 <= (up - lo) / incr) by (apply Z.div_pos; lia). lia.
  - assert (0 <= (lo - up) / (- incr)) by (apply Z.div_pos; lia). lia.
Qed.

(** The last iteration is within one step of the upper bound. *)
Lemma ideal_trip_last lo up incr :
  incr <> 0 -> (if incr >? 0 then lo <= up else up <= lo) ->
  let t := ideal_trip lo up incr in
  if incr >? 0 then up - incr < lo + (t - 1) * incr <= up
  else up <= lo + (t - 1) * incr < up - incr.
Proof.
  intros Hne Hleg t. subst t. unfold ideal_trip. destruct (incr >? 0) eqn:E.
  - assert (Hi : 0 < incr) by lia.
    pose proof (Z.mul_div_le (up - lo) incr Hi).
    pose proof (Z.mul_succ_div_gt (up - lo) incr Hi). nia.
  - assert (Hi : 0 < - incr) by lia.
    pose proof (Z.mul_div_le (lo - up) (- incr) Hi).
    pose proof (Z.mul_succ_div_gt (lo - up) (- incr) Hi). nia.
Qed.

Lemma legal_of_zero_trip T lower upper incr :
  in_range T lower -> in_range T upper -> in_range (signed_t T) incr ->
  zero_trip T lower upper incr = false ->
  if incr >? 0 then lower <= upper else upper <= lower.
Proof.
  intros Hl Hu Hi. rewrite zero_trip_spec by assumption.
  destruct (incr >? 0); lia.
Qed.

(** ** The Balanced schedule *)

Section Shares.

Variables t n i : Z.
Hypothesis n_pos : 1 <= n.
Hypothesis n_le_t : n <= t.
Hypothesis i_range : 0 <= i < n.

Let small := t / n.
Let extras := t mod n.

Lemma shares_div : t = n * small + extras /\ 0 <= extras < n /\ 1 <= small.
Proof.
  subst small extras.
  pose proof (Z_div_mod_eq_full t n). pose proof (Z.mod_pos_bound t n ltac:(lia)).
  repeat split; try lia.
Qed.

(** The first iteration of share [i] and the number of its iterations. *)
Lemma shares_fit :
  let first := i * small + Z.min i extras in
  let cnt := small + (if i <? extras then 1 else 0) in
  0 <= first /\ 1 <= cnt /\ first + cnt <= t /\
  first + cnt = (i + 1) * small + Z.min (i + 1) extras /\
  (i = n - 1 -> first + cnt = t).
Proof.
  destruct shares_div as (Ht & He & Hs). cbv zeta.
  destruct (i <? extras) eqn:E.
  - rewrite !Z.min_l by lia. repeat split; try nia.
  - rewrite !Z.min_r by lia. repeat split; try nia.
Qed.

End Shares.

Ltac unwrap :=
  repeat match goal with
         | |- context [wrap ?U ?x] => rewrite (wrap_id U x) by range_tac
         end.

(** The expressions of the Balanced case (lines 278-283, 469-474 and
    535-541), for a thread or team [i] of [n]. *)
Lemma small_chunk_range T tc n :
  in_range (unsigned_t T) tc -> 1 <= n <= 4294967295 -> in_range (unsigned_t T) (tc / n).
Proof.
  intros Htc Hn. unfold in_range in *. rewrite mn_unsigned_t in *.
  split; [apply Z.div_pos; lia|].
  transitivity tc; [apply Z.div_le_upper_bound; nia | lia].
Qed.

Lemma extras_range T tc n :
  1 <= n <= 4294967295 -> in_range (unsigned_t T) (tc mod n).
Proof.
  intros Hn. pose proof (Z.mod_pos_bound tc n ltac:(lia)).
  unfold in_range in *. rewrite mn_unsigned_t in *.
  destruct T; cbn [mx unsigned_t] in *; lia.
Qed.

Lemma small_chunk_code T tc n :
  in_range (unsigned_t T) tc -> 1 <= n <= 4294967295 ->
  conv (unsigned_t T) (var (unsigned_t T) tc / var kmp_uint32 n)%cint
  = var (unsigned_t T) (tc / n).
Proof.
  intros Htc Hn. pose proof (small_chunk_range T tc n Htc Hn) as Hq.
  unfold conv, var. f_equal.
  destruct T; kinds; rewrite ?(wrap_id _ tc), ?(wrap_id _ n) by range_tac;
    rewrite wrap_wrap; apply wrap_id; assumption.
Qed.

Lemma extras_code T tc n :
  in_range (unsigned_t T) tc -> 1 <= n <= 4294967295 ->
  conv (unsigned_t T) (var (unsigned_t T) tc %% var kmp_uint32 n)%cint
  = var (unsigned_t T) (tc mod n).
Proof.
  intros Htc Hn. pose proof (extras_range T tc n Hn) as Hq.
  unfold conv, var. f_equal.
  destruct T; kinds; rewrite ?(wrap_id _ tc), ?(wrap_id _ n) by range_tac;
    rewrite wrap_wrap; apply wrap_id; assumption.
Qed.

Lemma last_of_n_code i n :
  0 <= i <= 4294967295 -> 1 <= n <= 4294967295 ->
  (var kmp_uint32 i == var kmp_uint32 n - lit 1)%cint = (i =? n - 1).
Proof. intros Hi Hn. kinds. unwrap. reflexivity. Qed.

Lemma lt_i_extras T i extras :
  in_range (unsigned_t T) extras -> 0 <= i <= 4294967295 ->
  (var kmp_uint32 i < var (unsigned_t T) extras)%cint = (i <? extras).
Proof. intros He Hi. destruct T; kinds; rewrite ?wrap_id by range_tac; reflexivity. Qed.

Lemma balanced_lower_code T small extras i lo incr (b : bool) :
  0 <= i <= 4294967295 ->
  cval (conv T (var T lo
                + var (signed_t T) incr
                  * (var kmp_uint32 i * var (unsigned_t T) small
                     + cond b (var kmp_uint32 i) (var (unsigned_t T) extras)))%cint)
  = wrap T (lo + incr * (i * small + (if b then i else extras))).
Proof.
  intros Hi. destruct b; destruct T; kinds;
    rewrite ?(wrap_id kmp_int64 i), ?(wrap_id kmp_uint64 i) by range_tac; wrap_eq.
Qed.

Lemma balanced_upper_code T small l incr (b : bool) :
  cval (conv T (var T l + var (unsigned_t T) small * var (signed_t T) incr
                - cond b (lit 0) (var (signed_t T) incr))%cint)
  = wrap T (l + small * incr - (if b then 0 else incr)).
Proof.
  destruct b; destruct T; kinds; rewrite ?(wrap_id _ 0) by range_tac; wrap_eq.
Qed.

Lemma min_as_if i e : (if i <? e then i else e) = Z.min i e.
Proof. destruct (i <? e) eqn:E; lia. Qed.

(** The result of [case kmp_sch_static] under the Balanced flavour when
    there are at least as many iterations as threads. *)
Lemma for_static_balanced T E g tid nth tc s incr :
  in_range T (plower s) -> in_range (signed_t T) incr -> in_range (unsigned_t T) tc ->
  0 <= tid <= 4294967295 -> 1 <= nth <= 4294967295 ->
  nth <= tc ->
  __kmp_static g = kmp_sch_static_balanced E ->
  let small := tc / nth in
  let extras := tc mod nth in
  let l := wrap T (plower s + incr * (tid * small + Z.min tid extras)) in
  fst (for_static T E g tid nth tc s incr) =
  {| plastiter := option_map (fun _ => tid =? nth - 1) (plastiter s);
     plower := l;
     pupper := wrap T (l + small * incr - (if tid <? extras then 0 else incr));
     pstride := pstride s |}.
Proof.
  intros Hl Hi Htc Ht Hn Hle Hb small extras l. unfold for_static.
  rewrite lt_tc_n by (try assumption; lia).
  replace (tc <? nth) with false by lia.
  rewrite Hb, Z.eqb_refl.
  rewrite !fst_bind, fst_divide, fst_modulo. cbn [ret fst].
  rewrite small_chunk_code, extras_code by assumption. fold small extras.
  pose proof (small_chunk_range T tc nth Htc Hn) as Hsr.
  pose proof (extras_range T tc nth Hn) as Her. fold small in Hsr. fold extras in Her.
  rewrite lt_i_extras by assumption.
  rewrite last_of_n_code by assumption.
  destruct s as [pl lo up st]. unfold set_plower, set_pupper, store_last.
  cbn [plower pupper plastiter pstride] in *.
  rewrite balanced_lower_code by assumption. rewrite min_as_if. fold l.
  rewrite balanced_upper_code by assumption.
  destruct pl; reflexivity.
Qed.

Lemma ideal_trip_of_count x incr cnt :
  incr <> 0 -> 1 <= cnt -> ideal_trip x (x + (cnt - 1) * incr) incr = cnt.
Proof.
  intros Hne Hc. unfold ideal_trip. destruct (incr >? 0) eqn:E.
  - replace (x + (cnt - 1) * incr - x) with ((cnt - 1) * incr) by ring.
    rewrite Z.div_mul by lia. lia.
  - replace (x - (x + (cnt - 1) * incr)) with ((cnt - 1) * (- incr)) by ring.
    rewrite Z.div_mul by lia. lia.
Qed.

(** C3.  Under the Balanced flavour of the static schedule, when the trip
    count is at least the number of threads (more than one), with
    [small = trip_count / nth] and [extras = trip_count % nth] the lower
    bound is [lower + incr * (tid * small + min(tid, extras))], the upper
    bound [lower_i + small * incr - (tid < extras ? 0 : incr)] (in the
    arithmetic of the loop variable), and the flag is [tid == nth - 1].
    For a loop whose trip count is computed exactly these are the integers
    the formulas denote: thread [tid] gets [small + 1] iterations when
    [tid < extras] and [small] otherwise. *)
Theorem balanced_schedule_formulas T E g th schedtype s incr chunk tid team :
  in_range T (plower s) -> in_range T (pupper s) -> in_range (signed_t T) incr ->
  zero_trip T (plower s) (pupper s) incr = false ->
  for_resolve E th schedtype = (kmp_sch_static E, tid, team) ->
  t_serialized team = false ->
  __kmp_static g = kmp_sch_static_balanced E ->
  let nth := wrap kmp_uint32 (t_nproc team) in
  let tc := tripCount T (plower s) (pupper s) incr in
  1 < nth -> nth <= tc ->
  let small := tc / nth in
  let extras := tc mod nth in
  let r := fst (__kmp_for_static_init T E g th schedtype s incr chunk) in
  plower r = wrap T (plower s + incr * (tid * small + Z.min tid extras)) /\
  pupper r = wrap T (plower r + small * incr - (if tid <? extras then 0 else incr)) /\
  plastiter r = option_map (fun _ => tid =? nth - 1) (plastiter s) /\
  (tid < nth -> incr <> 0 -> tc = ideal_trip (plower s) (pupper s) incr ->
   let cnt := small + (if tid <? extras then 1 else 0) in
   plower r = plower s + incr * (tid * small + Z.min tid extras) /\
   pupper r = plower r + (cnt - 1) * incr /\
   ideal_trip (plower r) (pupper r) incr = cnt /\
   small <= cnt <= small + 1).
Proof.
  intros Hl Hu Hi Hz Hr Hs Hb nth tc Hn Hle small extras r.
  pose proof (for_resolve_tid _ _ _ _ _ _ Hr) as Ht.
  pose proof (wrap_range kmp_uint32 (t_nproc team)) as Hnr. fold nth in Hnr.
  assert (Hn' : 1 <= nth <= 4294967295) by (unfold in_range in Hnr; simpl in Hnr; lia).
  assert (Hfst : r = fst (for_static T E g tid nth tc s incr)).
  { subst r. rewrite (for_static_init_active T E g th schedtype s incr chunk _ _ _ Hz Hr Hs)
      by (fold nth; lia).
    cbv zeta. rewrite Z.eqb_refl. reflexivity. }
  rewrite for_static_balanced in Hfst by (try assumption; apply tripCount_range).
  fold small extras in Hfst.
  rewrite Hfst. cbn [plastiter plower pupper pstride].
  split; [reflexivity|]. split; [reflexivity|]. split; [reflexivity|].
  intros Htid Hne Hex. set (cnt := small + (if tid <? extras then 1 else 0)).
  pose proof (legal_of_zero_trip T _ _ _ Hl Hu Hi Hz) as Hleg.
  destruct (shares_fit tc nth tid ltac:(lia) Hle ltac:(lia)) as (Hf0 & Hc1 & Hfit & _).
  fold small extras cnt in Hf0, Hc1, Hfit.
  set (K := tid * small + Z.min tid extras) in *.
  assert (E1 : wrap T (plower s + incr * K) = plower s + incr * K).
  { replace (plower s + incr * K) with (plower s + K * incr) by ring.
    apply (iteration_exact T (plower s) (pupper s)); try assumption. rewrite <- Hex. lia. }
  rewrite E1.
  assert (E2 : plower s + incr * K + small * incr - (if tid <? extras then 0 else incr)
               = plower s + (K + cnt - 1) * incr).
  { subst cnt. destruct (tid <? extras); ring. }
  rewrite E2.
  rewrite (iteration_exact T (plower s) (pupper s)) by (try assumption; rewrite <- Hex; lia).
  split; [reflexivity|]. split; [ring|]. split.
  - replace (plower s + (K + cnt - 1) * incr)
      with (plower s + incr * K + (cnt - 1) * incr) by ring.
    apply ideal_trip_of_count; assumption.
  - subst cnt. destruct (tid <? extras); lia.
Qed.

Lemma balanced_schedule_formulas_witness :
  let r := fst (__kmp_for_static_init kmp_int32 kmp_h (ex_globals 41) (ex_thread 1 3) 34
                  (ex_loop 0 9) 1 0) in
  plower r = 4 /\ pupper r = 6 /\ plastiter r = Some false /\
  ideal_trip (plower r) (pupper r) 1 = 3.
Proof.
  assert (Hr : forall x, -2147483648 <= x <= 2147483647 -> in_range kmp_int32 x)
    by (intros x Hx; exact Hx).
  pose proof (balanced_schedule_formulas kmp_int32 kmp_h (ex_globals 41) (ex_thread 1 3) 34
                (ex_loop 0 9) 1 0 1 (ex_team 3 0)
                (Hr 0 ltac:(lia)) (Hr 9 ltac:(lia)) (Hr 1 ltac:(lia))
                eq_refl eq_refl eq_refl eq_refl eq_refl) as H.
  cbv zeta in H.
  specialize (H ltac:(vm_compute; congruence)).
  destruct H as (_ & _ & H3 & H4).
  specialize (H4 ltac:(vm_compute; reflexivity) ltac:(lia) eq_refl).
  destruct H4 as (H5 & H6 & H7 & _).
  cbv zeta. rewrite H7, H6, H5, H3. repeat split.
Defined.

(** ** The Greedy schedule: arithmetic *)

Lemma big_chunk_bounds t n :
  1 <= n -> n <= t ->
  let big := big_chunk t n in
  1 <= big /\ t <= n * big /\ n * big <= t + n - 1 /\ big <= t /\
  (n = t -> big = 1).
Proof.
  intros Hn Ht. unfold big_chunk. cbv zeta.
  pose proof (Z_div_mod_eq_full t n) as Hd.
  pose proof (Z.mod_pos_bound t n ltac:(lia)) as Hm.
  assert (Hq : 1 <= t / n) by (apply Z.div_le_lower_bound; lia).
  destruct (t mod n =? 0) eqn:E.
  - repeat split; try nia.
  - repeat split; try nia;
      try (intros ->; rewrite Z_mod_same_full in E; discriminate).
Qed.

Lemma scale_le a x y : 0 <= a -> x <= y -> x * a <= y * a.
Proof. intros Ha Hxy. apply Z.mul_le_mono_nonneg_r; assumption. Qed.

Section GreedyUp.

Variable T : int_kind.
Variables lo up a n i : Z.
Hypothesis lo_range : in_range T lo.
Hypothesis up_range : in_range T up.
Hypothesis a_pos : 0 < a.
Hypothesis legal : lo <= up.

Local Notation t := (ideal_trip lo up a).
Local Notation big := (big_chunk (ideal_trip lo up a) n).
Local Notation m := (modulus T).

Hypothesis n_pos : 1 <= n.
Hypothesis n_le_t : n <= t.
Hypothesis t_ge_2 : 2 <= t.
Hypothesis i_range : 0 <= i < n.

Local Notation l := (greedy_lower T lo a (big_chunk (ideal_trip lo up a) n) i).
Local Notation u0 := (greedy_upper0 T lo a (big_chunk (ideal_trip lo up a) n) i).

(** The facts the proofs below combine linearly; the products are the
    monomials [t * a], [big * a], [i * big * a], [i * big] and [n * big]. *)
Lemma greedy_up_facts :
  (t * a - a <= up - lo /\ up - lo < t * a /\ up - lo <= m - 1) /\
  (1 <= big /\ t <= n * big /\ n * big <= t + n - 1 /\ big <= t /\ (n = t -> big = 1)) /\
  (mx T = mn T + m - 1 /\ 0 < m /\ mn T <= lo /\ up <= mx T) /\
  (2 * a <= t * a /\
   0 <= i * big /\ i * big + big <= n * big /\ big * a <= t * a /\ a <= big * a /\
   0 <= i * big * a /\
   (i * big <= t - 1 -> i * big * a <= t * a - a) /\
   (t <= i * big -> t * a <= i * big * a) /\
   (t <= i * big + big -> t * a <= i * big * a + big * a) /\
   (i * big + big <= t - 1 -> i * big * a + big * a <= t * a - a) /\
   i * big * a + big * a <= up - lo + m).
Proof.
  pose proof (ideal_trip_last lo up a ltac:(lia)) as H.
  replace (a >? 0) with true in H by lia. specialize (H legal). cbv zeta in H.
  destruct (big_chunk_bounds t n n_pos n_le_t) as (B1 & B2 & B3 & B4 & B5).
  pose proof (mx_mn T) as Hmx. pose proof (modulus_pos T) as Hm.
  assert (G1 : t * a - a <= up - lo /\ up - lo < t * a /\ up - lo <= m - 1).
  { unfold in_range in lo_range, up_range. lia. }
  assert (Pt : 2 * a <= t * a) by (apply scale_le; lia).
  assert (P0 : 0 <= i * big) by (apply Z.mul_nonneg_nonneg; lia).
  assert (P1 : i * big + big <= n * big).
  { pose proof (scale_le big (i + 1) n ltac:(lia) ltac:(lia)). lia. }
  assert (P2 : big * a <= t * a) by (apply scale_le; lia).
  assert (P3 : a <= big * a) by (pose proof (scale_le a 1 big ltac:(lia) ltac:(lia)); lia).
  assert (P4 : 0 <= i * big * a) by (apply Z.mul_nonneg_nonneg; lia).
  assert (P5 : i * big <= t - 1 -> i * big * a <= t * a - a).
  { intros Hle. pose proof (scale_le a (i * big) (t - 1) ltac:(lia) Hle). lia. }
  assert (P6 : t <= i * big -> t * a <= i * big * a).
  { intros Hle. apply scale_le; lia. }
  assert (P7 : t <= i * big + big -> t * a <= i * big * a + big * a).
  { intros Hle. pose proof (scale_le a t (i * big + big) ltac:(lia) Hle). lia. }
  assert (P8 : i * big + big <= t - 1 -> i * big * a + big * a <= t * a - a).
  { intros Hle. pose proof (scale_le a (i * big + big) (t - 1) ltac:(lia) Hle). lia. }
  assert (P9 : i * big * a + big * a <= up - lo + m).
  { destruct (Z.eq_dec n t) as [Hnt|Hnt].
    - assert (Hb1 : big = 1) by (apply B5; exact Hnt).
      pose proof (scale_le a (i * big + big) t ltac:(lia) ltac:(rewrite Hb1; lia)) as Hs.
      assert (a <= m) by lia. lia.
    - pose proof (scale_le a (i * big + big) (2 * (t - 1)) ltac:(lia) ltac:(lia)) as Hs.
      lia. }
  unfold in_range in lo_range, up_range.
  repeat split; try assumption; try lia.
Qed.

(** A share that has iterations starts at its first iteration. *)
Lemma greedy_up_lower : i * big < t -> l = lo + i * big * a.
Proof.
  intros Hi. destruct greedy_up_facts as (G & B & W & P).
  unfold greedy_lower. apply wrap_id. unfold in_range. lia.
Qed.

(** The upper bound before it is corrected: the last iteration of the
    chunk, or that value wrapped around. *)
Lemma greedy_up_raw :
  i * big < t ->
  let V := lo + ((i + 1) * big - 1) * a in
  l <= V /\ (V <= mx T -> u0 = V) /\ (mx T < V -> u0 = V - m /\ u0 < l).
Proof.
  intros Hi V. destruct greedy_up_facts as (G & B & W & P).
  pose proof (greedy_up_lower Hi) as Hl.
  assert (HV : l + big * a - a = V) by (subst V; rewrite Hl; ring).
  assert (EV : V = lo + i * big * a + big * a - a) by (subst V; ring).
  unfold greedy_upper0. rewrite HV.
  split; [lia|]. split.
  - intros Hle. apply wrap_id. unfold in_range. lia.
  - intros Hgt. assert (E : wrap T V = V + (-1) * m).
    { unfold wrap. apply wrapw_shift. lia. }
    rewrite E. split; [ring|]. lia.
Qed.

(** The upper bound of a share that has iterations is its last iteration
    or, when the loop ends earlier, the upper bound of the loop. *)
Lemma greedy_up_upper :
  i * big < t ->
  overflow_clamp T a l u0 up = Z.min (lo + ((i + 1) * big - 1) * a) up /\
  l <= overflow_clamp T a l u0 up.
Proof.
  intros Hi. destruct greedy_up_facts as (G & B & W & P).
  pose proof (greedy_up_lower Hi) as Hl.
  destruct (greedy_up_raw Hi) as (HlV & R1 & R2). cbv zeta in HlV, R1, R2.
  set (V := lo + ((i + 1) * big - 1) * a) in *.
  assert (Hlr : l <= up) by lia.
  unfold overflow_clamp. replace (a >? 0) with true by lia.
  destruct (Z_le_gt_dec V (mx T)) as [Hle|Hgt].
  - rewrite (R1 Hle). replace (V <? l) with false by lia.
    destruct (V >? up) eqn:E; lia.
  - destruct (R2 ltac:(lia)) as [E Hlt]. replace (u0 <? l) with true by lia.
    destruct (mx T >? up) eqn:E2; lia.
Qed.

(** The last-iteration test singles out the share that holds the last
    iteration, also among the shares whose lower bound wrapped around. *)
Lemma greedy_up_last :
  greedy_last T a l u0 up = (i * big <? t) && (t <=? (i + 1) * big).
Proof.
  destruct greedy_up_facts as (G & B & W & P).
  unfold greedy_last. replace (a >? 0) with true by lia.
  assert (Ew : wrap T (up - a) = up - a).
  { apply wrap_id. unfold in_range. lia. }
  rewrite Ew.
  replace ((i + 1) * big) with (i * big + big) by ring.
  destruct (i * big <? t) eqn:Hi.
  - assert (Hi' : i * big < t) by lia.
    pose proof (greedy_up_lower Hi') as Hl.
    destruct (greedy_up_raw Hi') as (HlV & R1 & R2). cbv zeta in HlV, R1, R2.
    assert (EV : lo + ((i + 1) * big - 1) * a = lo + i * big * a + big * a - a) by ring.
    set (V := lo + ((i + 1) * big - 1) * a) in *.
    replace (l <=? up) with true by lia. cbn [andb].
    destruct (Z_le_gt_dec V (mx T)) as [Hle|Hgt].
    + rewrite (R1 Hle). replace (V <? l) with false by lia.
      destruct (t <=? i * big + big) eqn:E; lia.
    + destruct (R2 ltac:(lia)) as [E Hlt]. replace (u0 <? l) with true by lia.
      assert (t <= i * big + big) by lia.
      replace (t <=? i * big + big) with true by lia. lia.
  - cbn [andb]. assert (Hi' : t <= i * big) by lia.
    apply andb_false_iff.
    destruct (l <=? up) eqn:E1; [right|left; reflexivity].
    destruct (wrapw_decomp (mn T) m (lo + i * big * a)) as [k Hk].
    assert (Hlk : l = lo + i * big * a + k * m) by exact Hk.
    pose proof (wrap_range T (lo + i * big * a)) as Hlr.
    change (in_range T l) in Hlr.
    assert (Hk1 : k * m <= - m).
    { assert (k <= -1 \/ 0 <= k) as [Hk1|Hk1] by lia.
      - pose proof (scale_le m k (-1) ltac:(lia) Hk1). lia.
      - pose proof (Z.mul_nonneg_nonneg k m Hk1 ltac:(lia)). lia. }
    destruct (wrapw_decomp (mn T) m (l + big * a - a)) as [j Hj].
    assert (Huj : u0 = l + big * a - a + j * m) by exact Hj.
    pose proof (wrap_range T (l + big * a - a)) as Hur.
    change (in_range T u0) in Hur.
    unfold in_range in Hlr, Hur.
    destruct (u0 <? l) eqn:E2.
    + exfalso.
      assert (Hj1 : j * m <= - m).
      { assert (j <= -1 \/ 0 <= j) as [Hj1|Hj1] by lia.
        - pose proof (scale_le m j (-1) ltac:(lia) Hj1). lia.
        - pose proof (Z.mul_nonneg_nonneg j m Hj1 ltac:(lia)). lia. }
      lia.
    + assert (Hj0 : j * m <= 0).
      { assert (j <= 0 \/ 1 <= j) as [Hj1|Hj1] by lia.
        - pose proof (scale_le m j 0 ltac:(lia) Hj1). lia.
        - pose proof (scale_le m 1 j ltac:(lia) Hj1). lia. }
      lia.
Qed.

(** A share past the end of the loop is empty, unless its lower bound
    wrapped around. *)
Lemma greedy_up_idle :
  t <= i * big -> lo + i * big * a <= mx T ->
  up < l /\ overflow_clamp T a l u0 up = up.
Proof.
  intros Hi Hnw. destruct greedy_up_facts as (G & B & W & P).
  assert (Hl : l = lo + i * big * a).
  { unfold greedy_lower. apply wrap_id. unfold in_range. lia. }
  split; [lia|].
  pose proof (wrap_range T (l + big * a - a)) as Hur.
  change (in_range T u0) in Hur.
  destruct (wrapw_decomp (mn T) m (l + big * a - a)) as [j Hj].
  assert (Huj : u0 = l + big * a - a + j * m) by exact Hj.
  unfold overflow_clamp. replace (a >? 0) with true by lia.
  unfold in_range in Hur.
  destruct (u0 <? l) eqn:E.
  - destruct (mx T >? up) eqn:E2; lia.
  - assert (Hj0 : 0 <= j * m).
    { assert (j <= -1 \/ 0 <= j) as [Hj1|Hj1] by lia.
      - pose proof (scale_le m j (-1) ltac:(lia) Hj1). lia.
      - apply Z.mul_nonneg_nonneg; lia. }
    replace (u0 >? up) with true by lia. reflexivity.
Qed.

End GreedyUp.

(** ** Loops that count down: the mirror image *)

Lemma mirror_range T x : in_range T x -> in_range T (mirror T x).
Proof. unfold in_range, mirror. lia. Qed.

Lemma mirror_involutive T x : mirror T (mirror T x) = x.
Proof. unfold mirror. ring. Qed.

Lemma wrap_mirror T y : wrap T (mirror T y) = mirror T (wrap T y).
Proof.
  apply wrap_unique.
  - apply mirror_range, wrap_range.
  - unfold mirror. apply eqm_sub; [reflexivity|]. symmetry. apply wrap_eqm.
Qed.

Lemma mirror_mn T : mirror T (mn T) = mx T.
Proof. unfold mirror. ring. Qed.

Lemma mirror_mx T : mirror T (mx T) = mn T.
Proof. unfold mirror. ring. Qed.

Lemma greedy_lower_mirror T lo incr big i :
  greedy_lower T lo incr big i = mirror T (greedy_lower T (mirror T lo) (- incr) big i).
Proof.
  unfold greedy_lower.
  replace (mirror T lo + i * big * - incr) with (mirror T (lo + i * big * incr))
    by (unfold mirror; ring).
  now rewrite wrap_mirror, mirror_involutive.
Qed.

Lemma greedy_upper0_mirror T lo incr big i :
  greedy_upper0 T lo incr big i = mirror T (greedy_upper0 T (mirror T lo) (- incr) big i).
Proof.
  unfold greedy_upper0. rewrite (greedy_lower_mirror T lo incr big i).
  set (l' := greedy_lower T (mirror T lo) (- incr) big i).
  replace (mirror T l' + big * incr - incr) with (mirror T (l' + big * - incr - - incr))
    by (unfold mirror; ring).
  now rewrite wrap_mirror.
Qed.

Lemma overflow_clamp_mirror T incr l u0 up :
  incr < 0 ->
  overflow_clamp T incr l u0 up
  = mirror T (overflow_clamp T (- incr) (mirror T l) (mirror T u0) (mirror T up)).
Proof.
  intros Hi. unfold overflow_clamp.
  replace (incr >? 0) with false by lia. replace (- incr >? 0) with true by lia.
  replace (mirror T u0 <? mirror T l) with (u0 >? l) by (unfold mirror; lia).
  destruct (u0 >? l).
  - replace (mx T >? mirror T up) with (mn T <? up) by (unfold mirror; lia).
    destruct (mn T <? up); [now rewrite mirror_involutive | now rewrite mirror_mx].
  - replace (mirror T u0 >? mirror T up) with (u0 <? up) by (unfold mirror; lia).
    destruct (u0 <? up); now rewrite mirror_involutive.
Qed.

Lemma greedy_last_mirror T incr l u0 up :
  incr < 0 ->
  greedy_last T incr l u0 up
  = greedy_last T (- incr) (mirror T l) (mirror T u0) (mirror T up).
Proof.
  intros Hi. unfold greedy_last.
  replace (incr >? 0) with false by lia. replace (- incr >? 0) with true by lia.
  replace (mirror T up - - incr) with (mirror T (up - incr)) by (unfold mirror; ring).
  rewrite wrap_mirror.
  replace (mirror T l <=? mirror T up) with (l >=? up) by (unfold mirror; lia).
  replace (mirror T u0 <? mirror T l) with (u0 >? l) by (unfold mirror; lia).
  f_equal. destruct (u0 >? l); unfold mirror; lia.
Qed.

Lemma ideal_trip_mirror T lo up incr :
  incr < 0 -> ideal_trip lo up incr = ideal_trip (mirror T lo) (mirror T up) (- incr).
Proof.
  intros Hi. unfold ideal_trip.
  replace (incr >? 0) with false by lia. replace (- incr >? 0) with true by lia.
  f_equal. f_equal. unfold mirror. ring.
Qed.

(** ** The Greedy schedule in both directions *)

Section Greedy.

Variable T : int_kind.
Variables lo up incr n i : Z.
Hypothesis lo_range : in_range T lo.
Hypothesis up_range : in_range T up.
Hypothesis incr_nonzero : incr <> 0.
Hypothesis legal : if incr >? 0 then lo <= up else up <= lo.

Local Notation t := (ideal_trip lo up incr).
Local Notation big := (big_chunk (ideal_trip lo up incr) n).

Hypothesis n_pos : 1 <= n.
Hypothesis n_le_t : n <= t.
Hypothesis t_ge_2 : 2 <= t.
Hypothesis i_range : 0 <= i < n.

Local Notation l := (greedy_lower T lo incr (big_chunk (ideal_trip lo up incr) n) i).
Local Notation u0 := (greedy_upper0 T lo incr (big_chunk (ideal_trip lo up incr) n) i).

Lemma greedy_share_lower : i * big < t -> l = lo + i * big * incr.
Proof.
  intros Hi. destruct (incr >? 0) eqn:E.
  - apply (greedy_up_lower T lo up incr n i); try assumption; lia.
  - assert (Hn : incr < 0) by lia.
    rewrite greedy_lower_mirror.
    rewrite (ideal_trip_mirror T lo up incr Hn) in *.
    rewrite (greedy_up_lower T (mirror T lo) (mirror T up) (- incr) n i);
      try assumption; try (apply mirror_range; assumption); try lia.
    + unfold mirror. ring.
    + unfold mirror. lia.
Qed.

Lemma greedy_share_upper :
  i * big < t ->
  let V := lo + ((i + 1) * big - 1) * incr in
  overflow_clamp T incr l u0 up = (if incr >? 0 then Z.min V up else Z.max V up) /\
  (if incr >? 0 then l <= overflow_clamp T incr l u0 up
   else overflow_clamp T incr l u0 up <= l).
Proof.
  intros Hi. cbv zeta. destruct (incr >? 0) eqn:E.
  - apply (greedy_up_upper T lo up incr n i); try assumption; lia.
  - assert (Hn : incr < 0) by lia.
    rewrite overflow_clamp_mirror by assumption.
    rewrite greedy_lower_mirror, greedy_upper0_mirror, !mirror_involutive.
    rewrite (ideal_trip_mirror T lo up incr Hn) in *.
    destruct (greedy_up_upper T (mirror T lo) (mirror T up) (- incr) n i) as [H1 H2];
      try assumption; try (apply mirror_range; assumption); try lia.
    { unfold mirror. lia. }
    rewrite H1 in *. split.
    + unfold mirror. lia.
    + unfold mirror in *. lia.
Qed.

Lemma greedy_share_last :
  greedy_last T incr l u0 up = (i * big <? t) && (t <=? (i + 1) * big).
Proof.
  destruct (incr >? 0) eqn:E.
  - apply (greedy_up_last T lo up incr n i); try assumption; lia.
  - assert (Hn : incr < 0) by lia.
    rewrite greedy_last_mirror by assumption.
    rewrite greedy_lower_mirror, greedy_upper0_mirror, !mirror_involutive.
    rewrite (ideal_trip_mirror T lo up incr Hn) in *.
    apply (greedy_up_last T (mirror T lo) (mirror T up) (- incr) n i);
      try assumption; try (apply mirror_range; assumption); try lia.
    unfold mirror. lia.
Qed.

End Greedy.

(** Exactly one share passes the last-iteration test. *)
Lemma last_share_index t n :
  1 <= n -> n <= t ->
  let big := big_chunk t n in
  let w := (t - 1) / big in
  0 <= w < n /\ forall j, 0 <= j < n -> ((j * big <? t) && (t <=? (j + 1) * big)) = (j =? w).
Proof.
  intros n_pos n_le_t.
  destruct (big_chunk_bounds t n n_pos n_le_t) as (B1 & B2 & B3 & B4 & B5).
  cbv zeta. set (big := big_chunk t n) in *.
  pose proof (Z_div_mod_eq_full (t - 1) big) as Hd.
  pose proof (Z.mod_pos_bound (t - 1) big ltac:(lia)) as Hm.
  set (w := (t - 1) / big) in *.
  assert (Hw0 : 0 <= w) by (apply Z.div_pos; lia).
  assert (Hw : w < n).
  { assert (n <= w \/ w < n) as [H|H] by lia; [|exact H].
    pose proof (scale_le big n w ltac:(lia) H). lia. }
  split; [lia|]. intros j Hj.
  destruct (j =? w) eqn:E.
  - assert (j = w) as -> by lia.
    replace ((w + 1) * big) with (big * w + big) by ring.
    replace (w * big) with (big * w) by ring. lia.
  - assert (j <= w - 1 \/ w + 1 <= j) as [H|H] by lia.
    + pose proof (scale_le big (j + 1) w ltac:(lia) ltac:(lia)).
      replace (big * w) with (w * big) in Hd by ring. lia.
    + pose proof (scale_le big (w + 1) j ltac:(lia) H).
      replace (big * w) with (w * big) in Hd by ring. lia.
Qed.


(** ** The Greedy schedule: the code *)

Lemma div_tc_n T tc n :
  in_range (unsigned_t T) tc -> 1 <= n <= 4294967295 ->
  (var (unsigned_t T) tc / var kmp_uint32 n)%cint = var (unsigned_t T) (tc / n).
Proof.
  intros Htc Hn. pose proof (small_chunk_range T tc n Htc Hn) as Hq.
  unfold var, div. cbn [cty cval].
  destruct T; kinds; rewrite ?(wrap_id _ tc), ?(wrap_id _ n) by range_tac;
    rewrite wrap_id by assumption; reflexivity.
Qed.

Lemma rem_tc_n T tc n :
  in_range (unsigned_t T) tc -> 1 <= n <= 4294967295 ->
  (var (unsigned_t T) tc %% var kmp_uint32 n)%cint = var (unsigned_t T) (tc mod n).
Proof.
  intros Htc Hn. pose proof (extras_range T tc n Hn) as Hq.
  unfold var, rem. cbn [cty cval].
  destruct T; kinds; rewrite ?(wrap_id _ tc), ?(wrap_id _ n) by range_tac;
    rewrite wrap_id by assumption; reflexivity.
Qed.

Lemma big_chunk_code T tc n incr :
  cval (conv T ((var (unsigned_t T) (tc / n)
                 + cond (truthy (var (unsigned_t T) (tc mod n))) (lit 1) (lit 0))
                * var (signed_t T) incr)%cint)
  = wrap T (big_chunk tc n * incr).
Proof.
  unfold big_chunk, truthy. cbn [cval var].
  destruct (tc mod n =? 0); cbn [negb]; unfold cond; cbv iota; destruct T; kinds; wrap_eq.
Qed.

Lemma greedy_lower_code T lo incr big i :
  0 <= i <= 4294967295 ->
  cval (conv T (var T lo + var kmp_uint32 i * var T (wrap T (big * incr)))%cint)
  = greedy_lower T lo incr big i.
Proof.
  intros Hi. unfold greedy_lower. destruct T; kinds;
    rewrite ?(wrap_id kmp_int64 i), ?(wrap_id kmp_uint64 i) by range_tac; wrap_eq.
Qed.

Lemma greedy_upper0_code T lo incr big i :
  cval (conv T (var T (greedy_lower T lo incr big i) + var T (wrap T (big * incr))
                - var (signed_t T) incr)%cint)
  = greedy_upper0 T lo incr big i.
Proof.
  unfold greedy_upper0. generalize (greedy_lower T lo incr big i). intros l.
  destruct T; kinds; wrap_eq.
Qed.

Lemma gt_sub_T T x up incr :
  in_range T x ->
  (var T x > var T up - var (signed_t T) incr)%cint = (x >? wrap T (up - incr)).
Proof.
  intros Hx. destruct T; kinds; rewrite (wrap_id _ x) by range_tac; rewrite ?wrap_wrap;
    f_equal; wrap_eq.
Qed.

Lemma lt_sub_T T x up incr :
  in_range T x ->
  (var T x < var T up - var (signed_t T) incr)%cint = (x <? wrap T (up - incr)).
Proof.
  intros Hx. destruct T; kinds; rewrite (wrap_id _ x) by range_tac; rewrite ?wrap_wrap;
    f_equal; wrap_eq.
Qed.

Lemma greedy_lower_range T lo incr big i : in_range T (greedy_lower T lo incr big i).
Proof. apply wrap_range. Qed.

Lemma greedy_upper0_range T lo incr big i : in_range T (greedy_upper0 T lo incr big i).
Proof. apply wrap_range. Qed.

#[export] Hint Resolve greedy_lower_range greedy_upper0_range : ranges.

(** Runs the corrections and the last-iteration test of the Greedy case. *)
Ltac greedy_tac :=
  repeat (cbv beta iota zeta;
          cbn [plastiter plower pupper pstride fst ret option_map cval conv var];
          rewrite ?wrap_mx, ?wrap_mn;
          first [ rewrite lt_T by auto with ranges
                | rewrite gt_T by auto with ranges
                | rewrite le_T by auto with ranges
                | rewrite ge_T by auto with ranges
                | rewrite gt_sub_T by auto with ranges
                | rewrite lt_sub_T by auto with ranges
                | match goal with
                  | |- context [if (?a <? ?b) then _ else _] =>
                      lazymatch a with context [if _ then _ else _] => fail | _ => idtac end;
                      destruct (a <? b) eqn:?
                  | |- context [if (?a >? ?b) then _ else _] =>
                      lazymatch a with context [if _ then _ else _] => fail | _ => idtac end;
                      destruct (a >? b) eqn:?
                  end ]);
  cbn [plastiter plower pupper pstride fst ret option_map cval conv var];
  rewrite ?wrap_mx, ?wrap_mn;
  repeat match goal with
         | |- context [wrap ?U ?x] =>
             lazymatch x with
             | (_ - _) => fail
             | _ => rewrite (wrap_id U x) by auto with ranges
             end
         end;
  try reflexivity.

(** The result of [case kmp_sch_static] under the Greedy flavour when
    there are at least as many iterations as threads (lines 285-306). *)
Lemma for_static_greedy T E g tid nth tc s incr :
  in_range T (plower s) -> in_range T (pupper s) ->
  in_range (signed_t T) incr -> in_range (unsigned_t T) tc ->
  0 <= tid <= 4294967295 -> 1 <= nth <= 4294967295 ->
  nth <= tc ->
  __kmp_static g <> kmp_sch_static_balanced E ->
  let big := big_chunk tc nth in
  let l := greedy_lower T (plower s) incr big tid in
  let u0 := greedy_upper0 T (plower s) incr big tid in
  fst (for_static T E g tid nth tc s incr) =
  {| plastiter := option_map (fun _ => greedy_last T incr l u0 (pupper s)) (plastiter s);
     plower := l;
     pupper := overflow_clamp T incr l u0 (pupper s);
     pstride := pstride s |}.
Proof.
  intros Hl Hu Hi Htc Ht Hn Hle Hb big l u0. unfold for_static.
  rewrite lt_tc_n by (try assumption; lia).
  replace (tc <? nth) with false by lia.
  replace (__kmp_static g =? kmp_sch_static_balanced E) with false by lia.
  rewrite !fst_bind, fst_divide, fst_modulo. cbn [ret fst].
  rewrite div_tc_n, rem_tc_n by assumption.
  rewrite incr_gt_0 by assumption.
  destruct s as [pl lo up st]. unfold set_plower, set_pupper, store_last.
  cbn [plower pupper plastiter pstride] in *.
  assert (Ec : conv T ((var (unsigned_t T) (tc / nth)
                        + cond (truthy (var (unsigned_t T) (tc mod nth))) (lit 1) (lit 0))
                       * var (signed_t T) incr)%cint
               = var T (wrap T (big * incr))).
  { unfold conv at 1. unfold var at 4. f_equal. apply big_chunk_code. }
  rewrite Ec. rewrite greedy_lower_code by assumption.
  rewrite greedy_upper0_code. fold l u0.
  assert (Hlr : in_range T l) by apply wrap_range.
  assert (Hur : in_range T u0) by apply wrap_range.
  clearbody l u0. clear Ec.
  unfold overflow_clamp, greedy_last.
  destruct pl; destruct (incr >? 0); greedy_tac.
Qed.

(** The result of the single-level solver under the Greedy flavour of the
    static schedule, when there are at least as many iterations as
    threads. *)
Lemma for_static_init_greedy T E g th schedtype s incr chunk tid team :
  in_range T (plower s) -> in_range T (pupper s) -> in_range (signed_t T) incr ->
  zero_trip T (plower s) (pupper s) incr = false ->
  for_resolve E th schedtype = (kmp_sch_static E, tid, team) ->
  t_serialized team = false ->
  __kmp_static g <> kmp_sch_static_balanced E ->
  let nth := wrap kmp_uint32 (t_nproc team) in
  let tc := tripCount T (plower s) (pupper s) incr in
  1 < nth -> nth <= tc ->
  let big := big_chunk tc nth in
  let l := greedy_lower T (plower s) incr big tid in
  let u0 := greedy_upper0 T (plower s) incr big tid in
  fst (__kmp_for_static_init T E g th schedtype s incr chunk) =
  {| plastiter := option_map (fun _ => greedy_last T incr l u0 (pupper s)) (plastiter s);
     plower := l;
     pupper := overflow_clamp T incr l u0 (pupper s);
     pstride := pstride s |}.
Proof.
  intros Hl Hu Hi Hz Hr Hs Hb nth tc Hn Hle big l u0.
  pose proof (for_resolve_tid _ _ _ _ _ _ Hr) as Ht.
  pose proof (wrap_range kmp_uint32 (t_nproc team)) as Hnr. fold nth in Hnr.
  assert (Hn' : 1 <= nth <= 4294967295) by (unfold in_range in Hnr; simpl in Hnr; lia).
  rewrite (for_static_init_active T E g th schedtype s incr chunk _ _ _ Hz Hr Hs)
    by (fold nth; lia).
  cbv zeta. rewrite Z.eqb_refl. fold nth tc.
  apply for_static_greedy; try assumption. apply tripCount_range.
Qed.

(** C2.  In the Greedy case the upper bound [lower_i + chunk_inc - incr]
    is corrected in two steps: when it wrapped below the lower bound (above
    it, for a negative increment) it becomes the maximum (minimum) of the
    type, and then it is cut at the upper bound of the loop.  After that no
    thread that has iterations is left with an inverted range. *)
Theorem greedy_overflow_clamp T E g th schedtype s incr chunk tid team :
  in_range T (plower s) -> in_range T (pupper s) -> in_range (signed_t T) incr ->
  zero_trip T (plower s) (pupper s) incr = false ->
  for_resolve E th schedtype = (kmp_sch_static E, tid, team) ->
  t_serialized team = false ->
  __kmp_static g <> kmp_sch_static_balanced E ->
  let nth := wrap kmp_uint32 (t_nproc team) in
  let tc := tripCount T (plower s) (pupper s) incr in
  1 < nth -> nth <= tc ->
  let big := big_chunk tc nth in
  let r := fst (__kmp_for_static_init T E g th schedtype s incr chunk) in
  let u0 := wrap T (plower r + big * incr - incr) in
  pupper r = (if incr >? 0 then
                let u1 := if u0 <? plower r then mx T else u0 in
                if u1 >? pupper s then pupper s else u1
              else
                let u1 := if u0 >? plower r then mn T else u0 in
                if u1 <? pupper s then pupper s else u1) /\
  (incr <> 0 -> tc = ideal_trip (plower s) (pupper s) incr ->
   tid < nth -> tid * big < tc ->
   if incr >? 0 then plower r <= pupper r else pupper r <= plower r).
Proof.
  intros Hl Hu Hi Hz Hr Hs Hb nth tc Hn Hle big r u0.
  pose proof (for_static_init_greedy T E g th schedtype s incr chunk tid team
                Hl Hu Hi Hz Hr Hs Hb Hn Hle) as Hfst.
  cbv zeta in Hfst. fold nth tc big r in Hfst.
  pose proof (for_resolve_tid _ _ _ _ _ _ Hr) as Ht.
  assert (Eu : u0 = greedy_upper0 T (plower s) incr big tid).
  { subst u0. rewrite Hfst. reflexivity. }
  split.
  - rewrite Eu. rewrite Hfst. reflexivity.
  - intros Hne Hex Htid Hshare.
    pose proof (legal_of_zero_trip T _ _ _ Hl Hu Hi Hz) as Hleg.
    rewrite Hfst. cbn [plower pupper].
    subst big. rewrite Hex in *.
    apply (greedy_share_upper T (plower s) (pupper s) incr nth tid);
      try assumption; lia.
Qed.

Lemma greedy_overflow_clamp_witness :
  let r := fst (__kmp_for_static_init kmp_int32 kmp_h (ex_globals 40) (ex_thread 2 3) 34
                  (ex_loop 2147483638 2147483647) 1 0) in
  plower r = 2147483646 /\ pupper r = 2147483647 /\ plower r <= pupper r.
Proof.
  assert (Hr : forall x, -2147483648 <= x <= 2147483647 -> in_range kmp_int32 x)
    by (intros x Hx; exact Hx).
  pose proof (greedy_overflow_clamp kmp_int32 kmp_h (ex_globals 40) (ex_thread 2 3) 34
                (ex_loop 2147483638 2147483647) 1 0 2 (ex_team 3 0)
                (Hr 2147483638 ltac:(lia)) (Hr 2147483647 ltac:(lia)) (Hr 1 ltac:(lia))
                eq_refl eq_refl eq_refl ltac:(vm_compute; congruence)
                eq_refl ltac:(vm_compute; congruence)) as H.
  cbv zeta in H. destruct H as [H1 H2].
  specialize (H2 ltac:(lia) eq_refl eq_refl eq_refl).
  cbv zeta. split; [reflexivity|]. split; [rewrite H1; reflexivity|].
  exact H2.
Defined.

(** C1 at the input that refutes it: five iterations on four threads under
    the Greedy flavour give chunks of two, and the fourth thread gets the
    empty range [6,4] although the trip count is not below the number of
    threads. *)
Lemma greedy_leaves_a_thread_idle :
  let r := fst (__kmp_for_static_init kmp_int32 kmp_h (ex_globals 40) (ex_thread 3 4) 34
                  (ex_loop 0 4) 1 0) in
  tripCount kmp_int32 0 4 1 = 5 /\ 4 <= 5 /\
  plower r = 6 /\ pupper r = 4 /\ pupper r < plower r.
Proof. vm_compute. repeat split; congruence. Qed.

Lemma iterates_index lo up incr x :
  0 < incr -> iterates lo up incr x ->
  exists k, x = lo + k * incr /\ 0 <= k /\ (lo <= up -> k < ideal_trip lo up incr).
Proof.
  intros Hi [Hx Hm]. exists ((x - lo) / incr).
  pose proof (Z_div_exact_full_2 (x - lo) incr ltac:(lia) Hm) as He.
  assert (H0 : 0 <= (x - lo) / incr) by (apply Z.div_pos; lia).
  split; [lia|]. split; [exact H0|].
  intros Hle. unfold ideal_trip. replace (incr >? 0) with true by lia.
  assert ((x - lo) / incr <= (up - lo) / incr) by (apply Z.div_le_mono; lia). lia.
Qed.

Lemma iterates_of_index up incr l k :
  0 < incr -> 0 <= k -> l + k * incr <= up -> iterates l up incr (l + k * incr).
Proof.
  intros Hi Hk Hle. unfold iterates. split.
  - pose proof (Z.mul_nonneg_nonneg k incr Hk ltac:(lia)). lia.
  - replace (l + k * incr - l) with (k * incr) by ring. apply Z_mod_mult.
Qed.

(** C1 (as the code has it).  For a legal loop with a positive increment
    whose trip count is computed exactly, on [nth > 1] threads with at
    least [nth] iterations, the Greedy flavour gives thread [tid] the
    [big = ceil(trip_count / nth)] iterations from number [tid * big] on,
    cut at the end of the loop; the threads with [tid * big >= trip_count]
    get an empty range although the trip count is not below [nth].
    Provided the lower bound of the last thread does not wrap around, the
    ranges of the threads cover the iterations of the loop exactly: every
    iteration is in the range of a thread, the ranges hold nothing else,
    and no two of them share a value. *)
Theorem greedy_shares_partition T E g schedtype s incr chunk team (th : Z -> kmp_info) :
  in_range T (plower s) -> in_range T (pupper s) -> in_range (signed_t T) incr ->
  0 < incr -> plower s <= pupper s ->
  let nth := wrap kmp_uint32 (t_nproc team) in
  (forall tid, 0 <= tid < nth ->
               for_resolve E (th tid) schedtype = (kmp_sch_static E, tid, team)) ->
  t_serialized team = false ->
  __kmp_static g <> kmp_sch_static_balanced E ->
  let tc := tripCount T (plower s) (pupper s) incr in
  tc = ideal_trip (plower s) (pupper s) incr ->
  1 < nth -> nth <= tc ->
  let big := big_chunk tc nth in
  plower s + (nth - 1) * big * incr <= mx T ->
  let share := fun tid => fst (__kmp_for_static_init T E g (th tid) schedtype s incr chunk) in
  (forall tid, 0 <= tid < nth ->
     if tid * big <? tc then
       plower (share tid) = plower s + tid * big * incr /\
       pupper (share tid) = Z.min (plower s + ((tid + 1) * big - 1) * incr) (pupper s) /\
       plower (share tid) <= pupper (share tid)
     else pupper (share tid) < plower (share tid)) /\
  (forall x, iterates (plower s) (pupper s) incr x ->
     exists tid, 0 <= tid < nth /\
                 iterates (plower (share tid)) (pupper (share tid)) incr x) /\
  (forall tid x, 0 <= tid < nth ->
     iterates (plower (share tid)) (pupper (share tid)) incr x ->
     iterates (plower s) (pupper s) incr x) /\
  (forall tid1 tid2 x, 0 <= tid1 < nth -> 0 <= tid2 < nth ->
     iterates (plower (share tid1)) (pupper (share tid1)) incr x ->
     iterates (plower (share tid2)) (pupper (share tid2)) incr x ->
     tid1 = tid2).
Proof.
  intros Hl Hu Hi Hpos Hleg nth Hth Hs Hb tc Hex Hn Hle big Hnw share.
  assert (Hz : zero_trip T (plower s) (pupper s) incr = false).
  { rewrite zero_trip_spec by assumption. replace (incr >? 0) with true by lia. lia. }
  assert (Hleg' : if incr >? 0 then plower s <= pupper s else pupper s <= plower s).
  { replace (incr >? 0) with true by lia. exact Hleg. }
  destruct (big_chunk_bounds tc nth ltac:(lia) Hle) as (B1 & B2 & B3 & B4 & B5).
  fold big in B1, B2, B3, B4, B5.
  (* the share of each thread *)
  assert (Hshare : forall tid, 0 <= tid < nth ->
            if tid * big <? tc then
              plower (share tid) = plower s + tid * big * incr /\
              pupper (share tid) = Z.min (plower s + ((tid + 1) * big - 1) * incr) (pupper s) /\
              plower (share tid) <= pupper (share tid)
            else pupper (share tid) < plower (share tid)).
  { intros tid Htid. subst share. cbv beta.
    rewrite (for_static_init_greedy T E g (th tid) schedtype s incr chunk tid team
               Hl Hu Hi Hz (Hth tid Htid) Hs Hb Hn Hle).
    cbv zeta. fold nth tc big. cbn [plower pupper].
    subst big. rewrite Hex in *.
    destruct (tid * _ <? _) eqn:Eidle.
    - assert (Hlt : tid * big_chunk (ideal_trip (plower s) (pupper s) incr) nth
                    < ideal_trip (plower s) (pupper s) incr) by lia.
      pose proof (greedy_share_lower T (plower s) (pupper s) incr nth tid
                    Hl Hu ltac:(lia) Hleg' ltac:(lia) Hle ltac:(lia) Htid Hlt) as H1.
      pose proof (greedy_share_upper T (plower s) (pupper s) incr nth tid
                    Hl Hu ltac:(lia) Hleg' ltac:(lia) Hle ltac:(lia) Htid Hlt) as H2.
      cbv zeta in H2. replace (incr >? 0) with true in H2 by lia.
      destruct H2 as [H2 H3]. rewrite H2, H1 in *. repeat split. exact H3.
    - assert (Hnw' : plower s
                     + tid * big_chunk (ideal_trip (plower s) (pupper s) incr) nth * incr
                     <= mx T).
      { pose proof (scale_le (big_chunk (ideal_trip (plower s) (pupper s) incr) nth)
                      tid (nth - 1) ltac:(lia) ltac:(lia)) as S1.
        pose proof (scale_le incr _ _ ltac:(lia) S1) as S2. lia. }
      destruct (greedy_up_idle T (plower s) (pupper s) incr nth tid
                  Hl Hu Hpos Hleg ltac:(lia) Hle ltac:(lia) Htid ltac:(lia) Hnw') as [I1 I2].
      rewrite I2. exact I1. }
  split; [exact Hshare|].
  split; [|split].
  - (* every iteration is in a share *)
    intros x Hx.
    destruct (iterates_index _ _ _ _ Hpos Hx) as (k & -> & Hk0 & Hk).
    specialize (Hk Hleg). rewrite <- Hex in Hk.
    pose proof (Z_div_mod_eq_full k big) as Hd.
    pose proof (Z.mod_pos_bound k big ltac:(lia)) as Hm.
    set (w := k / big) in *.
    assert (Hw0 : 0 <= w) by (apply Z.div_pos; lia).
    assert (Hw : w < nth).
    { assert (nth <= w \/ w < nth) as [H|H] by lia; [|exact H].
      pose proof (scale_le big nth w ltac:(lia) H). lia. }
    exists w. split; [lia|].
    specialize (Hshare w ltac:(lia)).
    replace (w * big <? tc) with true in Hshare by lia.
    destruct Hshare as (E1 & E2 & _). rewrite E1, E2.
    replace (plower s + k * incr)
      with (plower s + w * big * incr + (k - w * big) * incr) by ring.
    apply iterates_of_index; try lia.
    replace (plower s + w * big * incr + (k - w * big) * incr)
      with (plower s + k * incr) by ring.
    pose proof (iteration_between (plower s) (pupper s) incr k ltac:(lia) Hleg'
                  ltac:(rewrite <- Hex; lia)) as Hb'.
    replace (incr >? 0) with true in Hb' by lia.
    pose proof (scale_le incr k ((w + 1) * big - 1) ltac:(lia) ltac:(lia)). lia.
  - (* a share holds iterations of the loop only *)
    intros tid x Htid Hx. specialize (Hshare tid Htid).
    destruct (tid * big <? tc) eqn:Eidle.
    + destruct Hshare as (E1 & E2 & _). rewrite E1, E2 in Hx.
      destruct Hx as [Hx Hm].
      assert (0 <= tid * big * incr).
      { apply Z.mul_nonneg_nonneg; [apply Z.mul_nonneg_nonneg|]; lia. }
      split; [lia|].
      replace (x - plower s) with (x - (plower s + tid * big * incr) + (tid * big) * incr) by ring.
      rewrite Z_mod_plus_full. exact Hm.
    + destruct Hx as [Hx _]. lia.
  - (* the shares are disjoint *)
    assert (Hone : forall a b x, 0 <= a < nth -> 0 <= b < nth -> a < b ->
              iterates (plower (share a)) (pupper (share a)) incr x ->
              iterates (plower (share b)) (pupper (share b)) incr x -> False).
    { intros a b x Ha Hb' Hab Hxa Hxb.
      pose proof (Hshare a Ha) as Sa. pose proof (Hshare b Hb') as Sb.
      destruct (a * big <? tc) eqn:Ea; [|destruct Hxa as [Hxa _]; lia].
      destruct (b * big <? tc) eqn:Eb; [|destruct Hxb as [Hxb _]; lia].
      destruct Sa as (A1 & A2 & _). destruct Sb as (C1 & C2 & _).
      destruct Hxa as [Hxa _]. destruct Hxb as [Hxb _].
      pose proof (scale_le big (a + 1) b ltac:(lia) ltac:(lia)) as S1.
      pose proof (scale_le incr _ _ ltac:(lia) S1) as S2. lia. }
    intros tid1 tid2 x H1 H2 Hx1 Hx2.
    assert (tid1 < tid2 \/ tid1 = tid2 \/ tid2 < tid1) as [H|[H|H]] by lia.
    + exfalso. exact (Hone tid1 tid2 x H1 H2 H Hx1 Hx2).
    + exact H.
    + exfalso. exact (Hone tid2 tid1 x H2 H1 H Hx2 Hx1).
Qed.

Lemma greedy_shares_partition_witness :
  let share := fun tid => fst (__kmp_for_static_init kmp_int32 kmp_h (ex_globals 40)
                                 (ex_thread tid 4) 34 (ex_loop 0 4) 1 0) in
  (plower (share 2) = 4 /\ pupper (share 2) = 4) /\ pupper (share 3) < plower (share 3).
Proof.
  assert (Hr : forall x, -2147483648 <= x <= 2147483647 -> in_range kmp_int32 x)
    by (intros x Hx; exact Hx).
  pose proof (greedy_shares_partition kmp_int32 kmp_h (ex_globals 40) 34 (ex_loop 0 4) 1 0
                (ex_team 4 0) (fun tid => ex_thread tid 4)
                (Hr 0 ltac:(lia)) (Hr 4 ltac:(lia)) (Hr 1 ltac:(lia))
                ltac:(lia) ltac:(simpl; lia)) as H.
  cbv zeta in H.
  assert (Hres : forall tid : Z, 0 <= tid < wrap kmp_uint32 (t_nproc (ex_team 4 0)) ->
            for_resolve kmp_h (ex_thread tid 4) 34 = (kmp_sch_static kmp_h, tid, ex_team 4 0)).
  { intros tid Htid. change (wrap kmp_uint32 (t_nproc (ex_team 4 0))) with 4 in Htid.
    unfold for_resolve.
    change ((var kmp_int32 34 > var kmp_int32 (kmp_ord_upper kmp_h))%cint) with false.
    cbv iota. cbn [ex_thread th_tid th_team].
    rewrite (wrap_id kmp_uint32 tid) by (unfold in_range; simpl; lia). reflexivity. }
  specialize (H Hres eq_refl ltac:(vm_compute; congruence) eq_refl
                ltac:(vm_compute; congruence) ltac:(vm_compute; congruence)
                ltac:(vm_compute; congruence)).
  destruct H as (H & _).
  pose proof (H 2 ltac:(vm_compute; split; congruence)) as H2.
  pose proof (H 3 ltac:(vm_compute; split; congruence)) as H3.
  cbv zeta. split.
  - destruct H2 as (E1 & E2 & _). rewrite E1, E2. split; reflexivity.
  - exact H3.
Defined.

(** ** The last-iteration flag of the single-level solver *)

Lemma eq_tid_tc_minus_1 T tid tc :
  in_range (unsigned_t T) tc -> 0 <= tid <= 4294967295 ->
  (var kmp_uint32 tid == var (unsigned_t T) tc - lit 1)%cint
  = (tid =? wrap (unsigned_t T) (tc - 1)).
Proof.
  intros Htc Ht. destruct T; kinds;
    rewrite ?(wrap_id _ tid), ?(wrap_id _ tc), ?(wrap_id _ 1) by range_tac;
    rewrite ?wrap_wrap; reflexivity.
Qed.

Lemma plastiter_store_last s b :
  plastiter (store_last s b) = option_map (fun _ => b) (plastiter s).
Proof. destruct s as [[f|] lo up st]; reflexivity. Qed.

(** Fewer iterations than threads (lines 264-275). *)
Lemma for_static_few_last T E g tid nth tc s incr :
  in_range (unsigned_t T) tc -> 0 <= tid <= 4294967295 -> 0 <= nth <= 4294967295 ->
  tc < nth ->
  plastiter (fst (for_static T E g tid nth tc s incr))
  = option_map (fun _ => tid =? wrap (unsigned_t T) (tc - 1)) (plastiter s).
Proof.
  intros Htc Ht Hn Hlt. unfold for_static.
  rewrite lt_tc_n by assumption. replace (tc <? nth) with true by lia.
  cbn [ret fst]. rewrite plastiter_store_last, eq_tid_tc_minus_1 by assumption.
  destruct (_ < _)%cint; reflexivity.
Qed.

(** The thread that gets the flag, for each schedule and flavour. *)
Lemma for_last_unique T E g schedtype s incr chunk sched team :
  in_range T (plower s) -> in_range T (pupper s) ->
  in_range (signed_t T) incr -> in_range (signed_t T) chunk ->
  incr <> 0 ->
  zero_trip T (plower s) (pupper s) incr = false ->
  tripCount T (plower s) (pupper s) incr = ideal_trip (plower s) (pupper s) incr ->
  sched = kmp_sch_static E \/ sched = kmp_sch_static_chunked E ->
  kmp_sch_static_chunked E <> kmp_sch_static E ->
  let nth := wrap kmp_uint32 (t_nproc team) in
  1 <= nth ->
  (t_serialized team = true -> nth = 1) ->
  exists w, 0 <= w < nth /\
    forall th tid,
      for_resolve E th schedtype = (sched, tid, team) -> tid < nth ->
      plastiter (fst (__kmp_for_static_init T E g th schedtype s incr chunk))
      = option_map (fun _ => tid =? w) (plastiter s).
Proof.
  intros Hl Hu Hi Hc Hne Hz Hex Hsched Hdist nth Hn Hser.
  pose proof (wrap_range kmp_uint32 (t_nproc team)) as Hnr. fold nth in Hnr.
  assert (Hn' : 1 <= nth <= 4294967295) by (unfold in_range in Hnr; simpl in Hnr; lia).
  pose proof (legal_of_zero_trip T _ _ _ Hl Hu Hi Hz) as Hleg.
  pose proof (ideal_trip_pos _ _ _ Hne Hleg) as Htpos.
  pose proof (tripCount_range T (plower s) (pupper s) incr) as Htr.
  set (tc := tripCount T (plower s) (pupper s) incr) in *.
  (* one thread *)
  assert (Hone : t_serialized team = true \/ nth = 1 ->
            exists w, 0 <= w < nth /\
              forall th tid,
                for_resolve E th schedtype = (sched, tid, team) -> tid < nth ->
                plastiter (fst (__kmp_for_static_init T E g th schedtype s incr chunk))
                = option_map (fun _ => tid =? w) (plastiter s)).
  { intros H1. assert (Hn1 : nth = 1) by (destruct H1; auto).
    exists 0. split; [lia|]. intros th tid Hr Htid.
    pose proof (for_resolve_tid _ _ _ _ _ _ Hr) as Ht.
    replace (tid =? 0) with true by lia.
    unfold __kmp_for_static_init. rewrite fst_bind, Hz, Hr.
    destruct (t_serialized team).
    - cbn [ret fst]. unfold set_pstride. cbn [plastiter]. apply plastiter_store_last.
    - rewrite nth_is_1. fold nth. rewrite Hn1. cbn [ret fst Z.eqb Pos.eqb].
      unfold set_pstride. cbn [plastiter]. apply plastiter_store_last. }
  destruct (t_serialized team) eqn:Hs; [apply Hone; auto|].
  destruct (Z.eq_dec nth 1) as [Hn1|Hn1]; [apply Hone; auto|].
  assert (Hact : forall th tid, for_resolve E th schedtype = (sched, tid, team) ->
            fst (__kmp_for_static_init T E g th schedtype s incr chunk) =
            if sched =? kmp_sch_static E then fst (for_static T E g tid nth tc s incr)
            else if sched =? kmp_sch_static_chunked E then
              fst (fst (for_static_chunked T tid nth tc s incr chunk))
            else s).
  { intros th tid Hr.
    now rewrite (for_static_init_active T E g th schedtype s incr chunk _ _ _ Hz Hr Hs)
      by (fold nth; lia). }
  destruct Hsched as [-> | ->].
  - (* static *)
    destruct (Z_lt_ge_dec tc nth) as [Hfew|Hmany].
    + exists (tc - 1). split; [lia|]. intros th tid Hr Htid.
      pose proof (for_resolve_tid _ _ _ _ _ _ Hr) as Ht.
      rewrite (Hact th tid Hr), Z.eqb_refl.
      rewrite for_static_few_last by (try assumption; lia).
      rewrite wrap_id by (unfold in_range in *; rewrite mn_unsigned_t in *; lia).
      reflexivity.
    + destruct (Z.eq_dec (__kmp_static g) (kmp_sch_static_balanced E)) as [Hb|Hb].
      * exists (nth - 1). split; [lia|]. intros th tid Hr Htid.
        pose proof (for_resolve_tid _ _ _ _ _ _ Hr) as Ht.
        rewrite (Hact th tid Hr), Z.eqb_refl.
        rewrite for_static_balanced by (try assumption; lia). reflexivity.
      * destruct (last_share_index tc nth ltac:(lia) ltac:(lia)) as [Hw Huniq].
        exists ((tc - 1) / big_chunk tc nth). split; [exact Hw|].
        intros th tid Hr Htid.
        pose proof (for_resolve_tid _ _ _ _ _ _ Hr) as Ht.
        rewrite (Hact th tid Hr), Z.eqb_refl.
        rewrite for_static_greedy by (try assumption; lia).
        cbn [plastiter].
        assert (Elast : greedy_last T incr
                          (greedy_lower T (plower s) incr (big_chunk tc nth) tid)
                          (greedy_upper0 T (plower s) incr (big_chunk tc nth) tid) (pupper s)
                        = (tid =? (tc - 1) / big_chunk tc nth)).
        { rewrite <- (Huniq tid ltac:(lia)).
          assert (Etc : tc = ideal_trip (plower s) (pupper s) incr) by exact Hex.
          rewrite Etc.
          apply (greedy_share_last T (plower s) (pupper s) incr nth tid);
            try assumption; try lia; rewrite <- Etc; lia. }
        rewrite Elast. reflexivity.
  - (* chunked *)
    pose proof (clamp_chunk_range T chunk Hc) as [Hcr Hc1].
    exists ((wrap (unsigned_t T) (tc - 1) / clamp_chunk chunk) mod nth).
    split; [apply Z.mod_pos_bound; lia|].
    intros th tid Hr Htid.
    pose proof (for_resolve_tid _ _ _ _ _ _ Hr) as Ht.
    rewrite (Hact th tid Hr).
    replace (kmp_sch_static_chunked E =? kmp_sch_static E) with false by lia.
    rewrite Z.eqb_refl.
    rewrite for_static_chunked_spec by (try assumption; lia).
    reflexivity.
Qed.

(** ** The thread-level part of the two-level solver *)

Lemma d_plastiter_store_last s b :
  d_plastiter (d_store_last s b) = option_map (fun _ => b) (d_plastiter s).
Proof. destruct s as [[f|] lo up ud st]; reflexivity. Qed.

Lemma d_plastiter_clear s c :
  d_plastiter (d_clear_last_unless s c) = option_map (fun b => b && c) (d_plastiter s).
Proof. destruct s as [[[|]|] lo up ud st]; destruct c; reflexivity. Qed.

Lemma d_clear_last_unless_spec s c :
  d_clear_last_unless s c = d_with_last s (option_map (fun b => b && c) (d_plastiter s)).
Proof. destruct s as [[[|]|] lo up ud st]; destruct c; reflexivity. Qed.

Lemma d_store_last_spec s b :
  d_store_last s b = d_with_last s (option_map (fun _ => b) (d_plastiter s)).
Proof. destruct s as [[f|] lo up ud st]; reflexivity. Qed.

Lemma lt_tid_tc T tid tc :
  in_range (unsigned_t T) tc -> 0 <= tid <= 4294967295 ->
  (var kmp_uint32 tid < var (unsigned_t T) tc)%cint = (tid <? tc).
Proof. intros. apply lt_n_tc; assumption. Qed.

Lemma few_lower_code T lo incr i :
  0 <= i <= 4294967295 ->
  cval (conv T (var T lo + var kmp_uint32 i * var (signed_t T) incr)%cint)
  = wrap T (lo + i * incr).
Proof.
  intros Hi. destruct T; kinds;
    rewrite ?(wrap_id kmp_int64 i), ?(wrap_id kmp_uint64 i) by range_tac; wrap_eq.
Qed.

Lemma past_upper_code T up incr :
  cval (conv T (var T up + var (signed_t T) incr)%cint) = wrap T (up + incr).
Proof. destruct T; kinds; wrap_eq. Qed.

Lemma conv_var_T T x : cval (conv T (var T x)) = wrap T x.
Proof. reflexivity. Qed.

(** Fewer iterations than threads (lines 520-530): one iteration for each
    of the first [tc] threads. *)
Lemma dist_static_few T E g tid nth tc s incr :
  in_range (unsigned_t T) tc -> 0 <= tid <= 4294967295 -> 0 <= nth <= 4294967295 ->
  tc <= nth ->
  fst (dist_static T E g tid nth tc s incr) =
  {| d_plastiter := option_map (fun b => b && (tid =? wrap (unsigned_t T) (tc - 1)))
                      (d_plastiter s);
     d_plower := if tid <? tc then wrap T (d_plower s + tid * incr)
                 else wrap T (d_pupper s + incr);
     d_pupper := if tid <? tc then wrap T (d_plower s + tid * incr) else d_pupper s;
     d_pupperDist := d_pupperDist s;
     d_pstride := d_pstride s |}.
Proof.
  intros Htc Ht Hn Hle. unfold dist_static.
  rewrite le_tc_n by assumption. replace (tc <=? nth) with true by lia.
  cbn [ret fst]. rewrite d_clear_last_unless_spec, eq_tid_tc_minus_1 by assumption.
  rewrite lt_tid_tc by assumption.
  destruct s as [pl lo up ud st]. unfold d_with_last, d_set_plower, d_set_pupper.
  destruct (tid <? tc); cbn [d_plastiter d_plower d_pupper d_pupperDist d_pstride].
  - rewrite conv_var_T, few_lower_code, wrap_wrap by assumption. reflexivity.
  - rewrite past_upper_code. reflexivity.
Qed.

(** Balanced (lines 532-541). *)
Lemma dist_static_balanced T E g tid nth tc s incr :
  in_range (unsigned_t T) tc -> 0 <= tid <= 4294967295 -> 1 <= nth <= 4294967295 ->
  nth < tc ->
  __kmp_static g = kmp_sch_static_balanced E ->
  let small := tc / nth in
  let extras := tc mod nth in
  let l := wrap T (d_plower s + incr * (tid * small + Z.min tid extras)) in
  fst (dist_static T E g tid nth tc s incr) =
  {| d_plastiter := option_map (fun b => b && (tid =? nth - 1)) (d_plastiter s);
     d_plower := l;
     d_pupper := wrap T (l + small * incr - (if tid <? extras then 0 else incr));
     d_pupperDist := d_pupperDist s;
     d_pstride := d_pstride s |}.
Proof.
  intros Htc Ht Hn Hlt Hb small extras l. unfold dist_static.
  rewrite le_tc_n by (try assumption; lia). replace (tc <=? nth) with false by lia.
  rewrite Hb, Z.eqb_refl.
  rewrite !fst_bind, fst_divide, fst_modulo. cbn [ret fst].
  rewrite small_chunk_code, extras_code by assumption. fold small extras.
  pose proof (small_chunk_range T tc nth Htc Hn) as Hsr.
  pose proof (extras_range T tc nth Hn) as Her. fold small in Hsr. fold extras in Her.
  rewrite lt_i_extras by assumption.
  rewrite last_of_n_code by (try assumption; lia).
  rewrite d_clear_last_unless_spec.
  destruct s as [pl lo up ud st]. unfold d_with_last, d_set_plower, d_set_pupper.
  cbn [d_plastiter d_plower d_pupper d_pupperDist d_pstride] in *.
  rewrite balanced_lower_code by assumption. rewrite min_as_if. fold l.
  rewrite balanced_upper_code by assumption.
  reflexivity.
Qed.

(** Chunked (lines 571-584). *)
Lemma dist_static_chunked_spec T tid nth tc s incr chunk :
  in_range (signed_t T) incr -> in_range (signed_t T) chunk ->
  in_range (unsigned_t T) tc ->
  0 <= tid <= 4294967295 -> 0 < nth <= 4294967295 ->
  let c := clamp_chunk chunk in
  fst (dist_static_chunked T tid nth tc s incr chunk) =
  {| d_plastiter := option_map
                      (fun b => b && (tid =? (wrap (unsigned_t T) (tc - 1) / c) mod nth))
                      (d_plastiter s);
     d_plower := wrap T (d_plower s + c * incr * tid);
     d_pupper := wrap T (d_plower s + c * incr * tid + c * incr - incr);
     d_pupperDist := d_pupperDist s;
     d_pstride := wrap (signed_t T) (c * incr * nth) |}.
Proof.
  intros Hi Hc Htr Ht Hn c. unfold dist_static_chunked.
  rewrite !fst_bind, fst_modulo, fst_divide. cbn [ret fst snd].
  rewrite clamp_chunk_code by assumption. fold c.
  destruct (clamp_chunk_range T chunk Hc) as [Hc' Hc1]. fold c in Hc', Hc1.
  rewrite chunk_round_test by assumption.
  clearbody c. rewrite d_clear_last_unless_spec.
  destruct s as [pl lo up ud st]. unfold d_with_last, d_set_pupper, d_set_plower, d_set_pstride.
  cbn [d_plastiter d_plower d_pupper d_pupperDist d_pstride] in *.
  assert (E1 : cval (conv T (var T lo + conv (signed_t T) (var (signed_t T) c * var (signed_t T) incr)
                                       * var kmp_uint32 tid)%cint)
               = wrap T (lo + c * incr * tid)).
  { destruct T; kinds;
      rewrite ?(wrap_id kmp_int64 tid), ?(wrap_id kmp_uint64 tid) by range_tac; wrap_eq. }
  assert (E2 : cval (conv T (var T (wrap T (lo + c * incr * tid))
                             + conv (signed_t T) (var (signed_t T) c * var (signed_t T) incr)
                             - var (signed_t T) incr)%cint)
               = wrap T (lo + c * incr * tid + c * incr - incr)).
  { destruct T; kinds; wrap_eq. }
  assert (E3 : cval (conv (signed_t T)
                       (conv (signed_t T) (var (signed_t T) c * var (signed_t T) incr)
                        * var kmp_uint32 nth)%cint)
               = wrap (signed_t T) (c * incr * nth)).
  { destruct T; kinds;
      rewrite ?(wrap_id kmp_int64 nth), ?(wrap_id kmp_uint64 nth) by range_tac; wrap_eq. }
  rewrite E1, E2, E3; reflexivity.
Qed.

(** Runs the corrections and the last-iteration test of the Greedy case of
    the two-level solver. *)
Ltac dgreedy_tac :=
  repeat (cbv beta iota zeta;
          cbn [d_plastiter d_plower d_pupper d_pupperDist d_pstride
               fst snd ret option_map cval conv var];
          rewrite ?wrap_mx, ?wrap_mn;
          repeat match goal with
                 | |- context [wrap ?U ?x] =>
                     lazymatch x with
                     | (_ - _) => fail
                     | _ => rewrite (wrap_id U x) by auto with ranges
                     end
                 end;
          first [ match goal with
                  | |- context [(var ?U ?a < var ?U ?b)%cint] =>
                      rewrite (lt_T U a b) by auto with ranges
                  | |- context [(var ?U ?a > var ?U ?b)%cint] =>
                      rewrite (gt_T U a b) by auto with ranges
                  | |- context [(var ?U ?a <= var ?U ?b)%cint] =>
                      rewrite (le_T U a b) by auto with ranges
                  | |- context [(var ?U ?a >= var ?U ?b)%cint] =>
                      rewrite (ge_T U a b) by auto with ranges
                  | |- context [(var ?U ?a > var ?U ?b - var (signed_t ?U) ?c)%cint] =>
                      rewrite (gt_sub_T U a b c) by auto with ranges
                  | |- context [(var ?U ?a < var ?U ?b - var (signed_t ?U) ?c)%cint] =>
                      rewrite (lt_sub_T U a b c) by auto with ranges
                  end
                | match goal with
                  | |- context [if (?a <? ?b) then _ else _] =>
                      lazymatch a with context [if _ then _ else _] => fail | _ => idtac end;
                      destruct (a <? b) eqn:?
                  | |- context [if (?a >? ?b) then _ else _] =>
                      lazymatch a with context [if _ then _ else _] => fail | _ => idtac end;
                      destruct (a >? b) eqn:?
                  end ]);
  cbn [d_plastiter d_plower d_pupper d_pupperDist d_pstride
       fst snd ret option_map cval conv var];
  rewrite ?wrap_mx, ?wrap_mn;
  repeat match goal with
         | |- context [wrap ?U ?x] =>
             lazymatch x with
             | (_ - _) => fail
             | _ => rewrite (wrap_id U x) by auto with ranges
             end
         end;
  try reflexivity.

(** Greedy (lines 543-568), the chunk of the team being
    [d_plower s .. d_pupperDist s]. *)
Lemma dist_static_greedy T E g tid nth tc s incr :
  in_range T (d_pupperDist s) ->
  in_range (signed_t T) incr -> in_range (unsigned_t T) tc ->
  0 <= tid <= 4294967295 -> 1 <= nth <= 4294967295 ->
  nth < tc ->
  __kmp_static g <> kmp_sch_static_balanced E ->
  let big := big_chunk tc nth in
  let l := greedy_lower T (d_plower s) incr big tid in
  let u0 := greedy_upper0 T (d_plower s) incr big tid in
  fst (dist_static T E g tid nth tc s incr) =
  {| d_plastiter := option_map (fun b => b && greedy_last T incr l u0 (d_pupperDist s))
                      (d_plastiter s);
     d_plower := l;
     d_pupper := overflow_clamp T incr l u0 (d_pupperDist s);
     d_pupperDist := d_pupperDist s;
     d_pstride := d_pstride s |}.
Proof.
  intros Hu Hi Htc Ht Hn Hlt Hb big l u0. unfold dist_static.
  rewrite le_tc_n by (try assumption; lia).
  replace (tc <=? nth) with false by lia.
  replace (__kmp_static g =? kmp_sch_static_balanced E) with false by lia.
  rewrite !fst_bind, fst_divide, fst_modulo. cbn [ret fst].
  rewrite div_tc_n, rem_tc_n by assumption.
  rewrite incr_gt_0 by assumption.
  destruct s as [pl lo up ud st]. unfold d_set_plower, d_set_pupper.
  cbn [d_plower d_pupper d_pupperDist d_plastiter d_pstride] in *.
  assert (Ec : conv T ((var (unsigned_t T) (tc / nth)
                        + cond (truthy (var (unsigned_t T) (tc mod nth))) (lit 1) (lit 0))
                       * var (signed_t T) incr)%cint
               = var T (wrap T (big * incr))).
  { unfold conv at 1. unfold var at 4. f_equal. apply big_chunk_code. }
  rewrite Ec. rewrite greedy_lower_code by assumption.
  rewrite greedy_upper0_code. fold l u0.
  assert (Hlr : in_range T l) by apply wrap_range.
  assert (Hur : in_range T u0) by apply wrap_range.
  clearbody l u0. clear Ec.
  unfold overflow_clamp, greedy_last.
  destruct (incr >? 0); cbv zeta; rewrite d_clear_last_unless_spec; unfold d_with_last;
    dgreedy_tac.
Qed.

(** The flag after the thread-level part: it is cleared unless the thread
    passes the test of its schedule. *)
Lemma dist_thread_flag T E g tid nth schedule s incr chunk :
  in_range T (d_pupperDist s) ->
  in_range (signed_t T) incr -> in_range (signed_t T) chunk ->
  0 <= tid <= 4294967295 -> 1 <= nth <= 4294967295 ->
  d_plastiter (fst (dist_thread_chunk T E g tid nth schedule s incr chunk))
  = option_map (fun b => b && dist_thread_last T E g tid nth schedule
                                 (d_plower s) (d_pupperDist s) incr chunk)
      (d_plastiter s).
Proof.
  intros Hu Hi Hc Ht Hn. unfold dist_thread_chunk, dist_thread_last.
  rewrite fst_bind, dist_trip_count_line.
  pose proof (tripCountD_range T 448 (d_plower s) (d_pupperDist s) incr) as Htc.
  fold (tripCountD T (d_plower s) (d_pupperDist s) incr) in Htc.
  set (tc := tripCountD T (d_plower s) (d_pupperDist s) incr) in *.
  destruct (schedule =? kmp_sch_static E).
  - destruct (tc <=? nth) eqn:Efew.
    + rewrite dist_static_few by (try assumption; lia). reflexivity.
    + destruct (__kmp_static g =? kmp_sch_static_balanced E) eqn:Eb.
      * rewrite dist_static_balanced by (try assumption; lia). reflexivity.
      * rewrite dist_static_greedy by (try assumption; lia). reflexivity.
  - destruct (schedule =? kmp_sch_static_chunked E).
    + rewrite dist_static_chunked_spec by (try assumption; lia). reflexivity.
    + rewrite fst_bind. cbn [ret fst]. destruct (d_plastiter s) as [[|]|]; reflexivity.
Qed.

(** ** The team-level part of the two-level solver *)

Lemma span_code T lo up :
  cval (conv (signed_t T) (var T up - var T lo)%cint) = wrap (signed_t T) (up - lo).
Proof.
  assert (Ed : forall U, modulus U = modulus T ->
               wrap (signed_t T) (wrap U (wrap U up - wrap U lo))
               = wrap (signed_t T) (up - lo)).
  { intros U HU. unfold wrap. rewrite HU, modulus_signed_t.
    eapply wrapw_by_eqm; [eqm_erase | eqm_erase | reflexivity]. }
  destruct T; kinds;
    first [ apply (Ed kmp_int32 eq_refl) | apply (Ed kmp_uint32 eq_refl)
          | apply (Ed kmp_int64 eq_refl) | apply (Ed kmp_uint64 eq_refl) ].
Qed.

(** No more iterations than teams (lines 452-465): one iteration for the
    master thread of each of the first [tc] teams, and nothing is left for
    the thread-level part. *)
Lemma dist_team_few T E g tid team_id nteams s incr :
  in_range T (d_pupper s) ->
  0 <= tid <= 4294967295 -> 0 <= team_id <= 4294967295 -> 0 <= nteams <= 4294967295 ->
  let tc := tripCountD T (d_plower s) (d_pupper s) incr in
  tc <= nteams ->
  let own := (team_id <? tc) && (tid =? 0) in
  let l := wrap T (d_plower s + team_id * incr) in
  fst (dist_team_chunk T E g tid team_id nteams s incr) =
  ({| d_plastiter := option_map
                       (fun _ => (tid =? 0) && (team_id =? wrap (unsigned_t T) (tc - 1)))
                       (d_plastiter s);
      d_plower := if own then l else wrap T (d_pupper s + incr);
      d_pupper := if own then l else d_pupper s;
      d_pupperDist := if own then l else d_pupper s;
      d_pstride := wrap (signed_t T) (d_pupper s - d_plower s) |}, false).
Proof.
  intros Hu Ht Hm Hn tc Hle own l. unfold dist_team_chunk.
  rewrite fst_bind, dist_trip_count_line. fold tc.
  pose proof (tripCountD_range T 448 (d_plower s) (d_pupper s) incr) as Htc.
  fold (tripCountD T (d_plower s) (d_pupper s) incr) in Htc. fold tc in Htc.
  clearbody tc.
  rewrite le_tc_n by assumption. replace (tc <=? nteams) with true by lia.
  cbn [ret fst]. rewrite d_store_last_spec.
  rewrite lt_tid_tc, eq_n_0, eq_tid_tc_minus_1 by assumption. fold own.
  destruct s as [pl lo up ud st].
  unfold d_with_last, d_set_plower, d_set_pupper, d_set_pupperDist, d_set_pstride.
  cbn [d_plastiter d_plower d_pupper d_pupperDist d_pstride] in *.
  destruct own; cbn [d_plastiter d_plower d_pupper d_pupperDist d_pstride];
    rewrite ?conv_var_T, ?few_lower_code, ?past_upper_code, ?span_code, ?wrap_wrap
      by assumption;
    rewrite ?(wrap_id T up) by assumption; reflexivity.
Qed.

(** Balanced (lines 467-474). *)
Lemma dist_team_balanced T E g tid team_id nteams s incr :
  0 <= team_id <= 4294967295 -> 1 <= nteams <= 4294967295 ->
  let tc := tripCountD T (d_plower s) (d_pupper s) incr in
  nteams < tc ->
  __kmp_static g = kmp_sch_static_balanced E ->
  let small := tc / nteams in
  let extras := tc mod nteams in
  let l := wrap T (d_plower s + incr * (team_id * small + Z.min team_id extras)) in
  fst (dist_team_chunk T E g tid team_id nteams s incr) =
  ({| d_plastiter := option_map (fun _ => team_id =? nteams - 1) (d_plastiter s);
      d_plower := l;
      d_pupper := d_pupper s;
      d_pupperDist := wrap T (l + small * incr - (if team_id <? extras then 0 else incr));
      d_pstride := wrap (signed_t T) (d_pupper s - d_plower s) |}, true).
Proof.
  intros Hm Hn tc Hlt Hb small extras l. unfold dist_team_chunk.
  rewrite fst_bind, dist_trip_count_line. fold tc.
  pose proof (tripCountD_range T 448 (d_plower s) (d_pupper s) incr) as Htc.
  fold (tripCountD T (d_plower s) (d_pupper s) incr) in Htc. fold tc in Htc.
  fold tc in small, extras. clearbody tc.
  rewrite le_tc_n by (try assumption; lia). replace (tc <=? nteams) with false by lia.
  rewrite Hb, Z.eqb_refl.
  rewrite !fst_bind, fst_divide, fst_modulo. cbn [ret fst].
  rewrite small_chunk_code, extras_code by assumption. fold small extras.
  pose proof (small_chunk_range T tc nteams Htc Hn) as Hsr.
  pose proof (extras_range T tc nteams Hn) as Her. fold small in Hsr. fold extras in Her.
  rewrite lt_i_extras by assumption.
  rewrite last_of_n_code by (try assumption; lia).
  rewrite d_store_last_spec.
  destruct s as [pl lo up ud st].
  unfold d_with_last, d_set_plower, d_set_pupper, d_set_pupperDist, d_set_pstride.
  cbn [d_plastiter d_plower d_pupper d_pupperDist d_pstride] in *.
  rewrite balanced_lower_code by assumption. rewrite min_as_if. fold l.
  rewrite balanced_upper_code by assumption. rewrite span_code.
  reflexivity.
Qed.

(** Greedy (lines 476-506); a team whose chunk is empty after the
    corrections gets the corrected bound as upper bound too and nothing is
    left for the thread-level part. *)
Lemma dist_team_greedy T E g tid team_id nteams s incr :
  in_range T (d_pupper s) -> in_range (signed_t T) incr ->
  0 <= team_id <= 4294967295 -> 1 <= nteams <= 4294967295 ->
  let tc := tripCountD T (d_plower s) (d_pupper s) incr in
  nteams < tc ->
  __kmp_static g <> kmp_sch_static_balanced E ->
  let big := big_chunk tc nteams in
  let l := greedy_lower T (d_plower s) incr big team_id in
  let u0 := greedy_upper0 T (d_plower s) incr big team_id in
  let uD := overflow_clamp T incr l u0 (d_pupper s) in
  let empty := if incr >? 0 then l >? uD else l <? uD in
  fst (dist_team_chunk T E g tid team_id nteams s incr) =
  ({| d_plastiter := option_map (fun _ => greedy_last T incr l u0 (d_pupper s)) (d_plastiter s);
      d_plower := l;
      d_pupper := if empty then uD else d_pupper s;
      d_pupperDist := uD;
      d_pstride := wrap (signed_t T) (d_pupper s - d_plower s) |}, negb empty).
Proof.
  intros Hu Hi Hm Hn tc Hlt Hb big l u0 uD empty. unfold dist_team_chunk.
  rewrite fst_bind, dist_trip_count_line. fold tc.
  pose proof (tripCountD_range T 448 (d_plower s) (d_pupper s) incr) as Htc.
  fold (tripCountD T (d_plower s) (d_pupper s) incr) in Htc. fold tc in Htc.
  fold tc in big. clearbody tc.
  rewrite le_tc_n by (try assumption; lia). replace (tc <=? nteams) with false by lia.
  replace (__kmp_static g =? kmp_sch_static_balanced E) with false by lia.
  rewrite !fst_bind, fst_divide, fst_modulo. cbn [ret fst].
  rewrite div_tc_n, rem_tc_n by assumption.
  rewrite incr_gt_0 by assumption.
  destruct s as [pl lo up ud st].
  unfold d_set_plower, d_set_pupper, d_set_pupperDist, d_set_pstride.
  cbn [d_plower d_pupper d_pupperDist d_plastiter d_pstride] in *.
  assert (Ec : conv T ((var (unsigned_t T) (tc / nteams)
                        + cond (truthy (var (unsigned_t T) (tc mod nteams))) (lit 1) (lit 0))
                       * var (signed_t T) incr)%cint
               = var T (wrap T (big * incr))).
  { unfold conv at 1. unfold var at 4. f_equal. apply big_chunk_code. }
  rewrite Ec. rewrite greedy_lower_code by assumption.
  rewrite greedy_upper0_code. fold l u0. rewrite span_code.
  assert (Hlr : in_range T l) by apply wrap_range.
  assert (Hur : in_range T u0) by apply wrap_range.
  subst empty uD. clearbody l u0. clear Ec.
  unfold overflow_clamp, greedy_last.
  destruct (incr >? 0); cbv zeta; rewrite d_store_last_spec; unfold d_with_last;
    dgreedy_tac; congruence.
Qed.

(** ** The thread and the team that keep the flag *)

Lemma overflow_clamp_range T incr l u0 up :
  in_range T u0 -> in_range T up -> in_range T (overflow_clamp T incr l u0 up).
Proof.
  intros Hu0 Hup. unfold overflow_clamp.
  repeat match goal with |- context [if ?c then _ else _] => destruct c end;
    auto with ranges.
Qed.

(** In a chunk with iterations whose trip count is exact, one thread
    passes the test of the thread-level part. *)
Lemma dist_thread_unique T E g nth schedule l uD incr chunk :
  in_range T l -> in_range T uD ->
  in_range (signed_t T) incr -> in_range (signed_t T) chunk ->
  incr <> 0 ->
  (if incr >? 0 then l <= uD else uD <= l) ->
  dist_span_ok T l uD incr ->
  1 <= nth <= 4294967295 ->
  schedule = kmp_sch_static E \/ schedule = kmp_sch_static_chunked E ->
  kmp_sch_static_chunked E <> kmp_sch_static E ->
  exists wi, 0 <= wi < nth /\
    forall tid, 0 <= tid < nth ->
      dist_thread_last T E g tid nth schedule l uD incr chunk = (tid =? wi).
Proof.
  intros Hl Hu Hi Hc Hne Hleg Hspan Hn Hsched Hdist.
  pose proof (tripCountD_exact T l uD incr Hl Hu Hi Hne Hleg Hspan) as Hex.
  pose proof (ideal_trip_pos _ _ _ Hne Hleg) as Htpos.
  pose proof (tripCountD_range T 448 l uD incr) as Htr.
  fold (tripCountD T l uD incr) in Htr.
  unfold dist_thread_last.
  set (tc := tripCountD T l uD incr) in *.
  assert (Hw1 : wrap (unsigned_t T) (tc - 1) = tc - 1).
  { apply wrap_id. unfold in_range in *. rewrite mn_unsigned_t in *. lia. }
  destruct Hsched as [-> | ->].
  - rewrite Z.eqb_refl.
    destruct (tc <=? nth) eqn:Efew.
    + exists (tc - 1). split; [lia|]. intros tid Ht. rewrite Hw1. reflexivity.
    + destruct (__kmp_static g =? kmp_sch_static_balanced E).
      * exists (nth - 1). split; [lia|]. intros tid Ht. reflexivity.
      * destruct (last_share_index tc nth ltac:(lia) ltac:(lia)) as [Hw Huniq].
        exists ((tc - 1) / big_chunk tc nth). split; [exact Hw|].
        intros tid Ht. rewrite <- (Huniq tid Ht).
        assert (Etc : tc = ideal_trip l uD incr) by exact Hex.
        rewrite Etc.
        apply (greedy_share_last T l uD incr nth tid);
          try assumption; try lia; rewrite <- Etc; lia.
  - replace (kmp_sch_static_chunked E =? kmp_sch_static E) with false by lia.
    rewrite Z.eqb_refl.
    pose proof (clamp_chunk_range T chunk Hc) as [Hcr Hc1].
    exists ((wrap (unsigned_t T) (tc - 1) / clamp_chunk chunk) mod nth).
    split; [apply Z.mod_pos_bound; lia|]. intros tid Ht. reflexivity.
Qed.

(** The chunk of the last team under the Balanced flavour. *)
Lemma balanced_last_chunk T lo up incr n :
  in_range T lo -> in_range T up -> incr <> 0 ->
  (if incr >? 0 then lo <= up else up <= lo) ->
  let tc := ideal_trip lo up incr in
  1 <= n -> n < tc ->
  let small := tc / n in
  let extras := tc mod n in
  let l := wrap T (lo + incr * ((n - 1) * small + Z.min (n - 1) extras)) in
  let uD := wrap T (l + small * incr - (if n - 1 <? extras then 0 else incr)) in
  l = lo + (tc - small) * incr /\ uD = lo + (tc - 1) * incr /\ 1 <= small <= tc.
Proof.
  intros Hl Hu Hne Hleg tc Hn Hlt small extras l uD.
  destruct (shares_div tc n Hn ltac:(lia)) as (Hd & He & Hs).
  fold small extras in Hd, He, Hs.
  assert (Hmin : Z.min (n - 1) extras = extras) by lia.
  assert (Hk : (n - 1) * small + extras = tc - small) by lia.
  assert (Hst : small <= tc) by nia.
  assert (El : l = lo + (tc - small) * incr).
  { subst l. rewrite Hmin, Hk.
    replace (lo + incr * (tc - small)) with (lo + (tc - small) * incr) by ring.
    apply (iteration_exact T lo up incr); try assumption. fold tc. lia. }
  split; [exact El|]. split; [|lia].
  subst uD. rewrite El. replace (n - 1 <? extras) with false by lia.
  replace (lo + (tc - small) * incr + small * incr - incr) with (lo + (tc - 1) * incr) by ring.
  apply (iteration_exact T lo up incr); try assumption. fold tc. lia.
Qed.

(** The team that keeps the flag after the team-level part.  Either there
    are no more iterations than teams, and the flag goes to the master
    thread of the team of the last iteration; or the chunk [l .. uD] of one
    team holds the last iteration, and that team goes on to the
    thread-level part. *)
Lemma dist_team_unique T E g nteams s incr :
  in_range T (d_plower s) -> in_range T (d_pupper s) ->
  in_range (signed_t T) incr -> incr <> 0 ->
  (if incr >? 0 then d_plower s <= d_pupper s else d_pupper s <= d_plower s) ->
  dist_span_ok T (d_plower s) (d_pupper s) incr ->
  1 <= nteams <= 4294967295 ->
  exists wt, 0 <= wt < nteams /\
    ((forall tid team_id, 0 <= tid <= 4294967295 -> 0 <= team_id < nteams ->
        let r := fst (dist_team_chunk T E g tid team_id nteams s incr) in
        snd r = false /\
        d_plastiter (fst r)
        = option_map (fun _ => (team_id =? wt) && (tid =? 0)) (d_plastiter s))
     \/
     (exists l uD,
        in_range T l /\ in_range T uD /\
        (if incr >? 0 then l <= uD else uD <= l) /\
        dist_span_ok T l uD incr /\
        forall tid team_id, 0 <= tid <= 4294967295 -> 0 <= team_id < nteams ->
          let r := fst (dist_team_chunk T E g tid team_id nteams s incr) in
          d_plastiter (fst r) = option_map (fun _ => team_id =? wt) (d_plastiter s) /\
          (snd r = true -> in_range T (d_pupperDist (fst r))) /\
          (team_id = wt ->
           snd r = true /\ d_plower (fst r) = l /\ d_pupperDist (fst r) = uD))).
Proof.
  intros Hl Hu Hi Hne Hleg Hspan Hn.
  pose proof (tripCountD_exact T _ _ incr Hl Hu Hi Hne Hleg Hspan) as Hex.
  pose proof (ideal_trip_pos _ _ _ Hne Hleg) as Htpos.
  pose proof (tripCountD_range T 448 (d_plower s) (d_pupper s) incr) as Htr.
  fold (tripCountD T (d_plower s) (d_pupper s) incr) in Htr.
  set (lo := d_plower s) in *. set (up := d_pupper s) in *.
  destruct (Z_le_gt_dec (tripCountD T lo up incr) nteams) as [Hfew|Hmany].
  - (* no more iterations than teams *)
    exists (tripCountD T lo up incr - 1). split; [lia|]. left.
    intros tid team_id Ht Hm. cbv zeta.
    rewrite dist_team_few by (try assumption; fold lo up; lia).
    fold lo up. cbn [fst snd d_plastiter]. split; [reflexivity|].
    rewrite wrap_id by (unfold in_range in *; rewrite mn_unsigned_t in *; lia).
    rewrite andb_comm. reflexivity.
  - destruct (Z.eq_dec (__kmp_static g) (kmp_sch_static_balanced E)) as [Hb|Hb].
    + (* Balanced *)
      exists (nteams - 1). split; [lia|]. right.
      destruct (balanced_last_chunk T lo up incr nteams Hl Hu Hne Hleg ltac:(lia)
                  ltac:(rewrite <- Hex; lia)) as (El & Eu & Hs).
      rewrite <- Hex in El, Eu, Hs.
      set (tc := tripCountD T lo up incr) in *.
      set (small := tc / nteams) in *. set (extras := tc mod nteams) in *.
      pose proof (iteration_between lo up incr (tc - small) Hne Hleg
                    ltac:(rewrite <- Hex; lia)) as Hb1.
      pose proof (iteration_between lo up incr (tc - 1) Hne Hleg
                    ltac:(rewrite <- Hex; lia)) as Hb2.
      assert (Hord : if incr >? 0 then (tc - small) * incr <= (tc - 1) * incr
                     else (tc - 1) * incr <= (tc - small) * incr).
      { destruct (incr >? 0) eqn:Ei; nia. }
      exists (lo + (tc - small) * incr), (lo + (tc - 1) * incr).
      split; [unfold in_range in *; destruct (incr >? 0); lia|].
      split; [unfold in_range in *; destruct (incr >? 0); lia|].
      split; [destruct (incr >? 0); lia|].
      split; [apply (dist_span_ok_sub T lo up); [assumption|destruct (incr >? 0); lia]|].
      intros tid team_id Ht Hm. cbv zeta.
      rewrite dist_team_balanced by (try assumption; fold lo up; lia).
      fold lo up tc small extras. cbn [fst snd d_plastiter d_plower d_pupperDist].
      split; [reflexivity|]. split; [intros _; apply wrap_range|].
      intros ->. split; [reflexivity|]. split; [exact El|exact Eu].
    + (* Greedy *)
      set (tc := tripCountD T lo up incr) in *.
      destruct (last_share_index tc nteams ltac:(lia) ltac:(lia)) as [Hw Huniq].
      set (big := big_chunk tc nteams) in *.
      set (w := (tc - 1) / big) in *.
      exists w. split; [exact Hw|]. right.
      pose proof (Huniq w Hw) as Hlastw. rewrite Z.eqb_refl in Hlastw.
      assert (Hwt : w * big < tc) by lia.
      assert (Hbig : 0 <= w * big) by (destruct (big_chunk_bounds tc nteams) as (? & _); nia).
      pose proof (greedy_share_lower T lo up incr nteams w Hl Hu Hne Hleg ltac:(lia)
                    ltac:(rewrite <- Hex; fold tc; lia) ltac:(rewrite <- Hex; fold tc; lia) Hw
                    ltac:(rewrite <- Hex; fold tc big; lia)) as Elw.
      pose proof (greedy_share_upper T lo up incr nteams w Hl Hu Hne Hleg ltac:(lia)
                    ltac:(rewrite <- Hex; fold tc; lia) ltac:(rewrite <- Hex; fold tc; lia) Hw
                    ltac:(rewrite <- Hex; fold tc big; lia)) as [Euw Hlegw].
      rewrite <- Hex in Elw, Euw, Hlegw. fold tc big in Elw, Euw, Hlegw.
      set (lw := greedy_lower T lo incr big w) in *.
      set (uw := overflow_clamp T incr lw (greedy_upper0 T lo incr big w) up) in *.
      pose proof (iteration_between lo up incr (w * big) Hne Hleg
                    ltac:(rewrite <- Hex; fold tc; lia)) as Hbw.
      rewrite <- Elw in Hbw.
      assert (Hur : in_range T uw)
        by (apply overflow_clamp_range; [apply wrap_range | assumption]).
      exists lw, uw.
      split; [apply wrap_range|]. split; [exact Hur|]. split; [exact Hlegw|].
      split; [apply (dist_span_ok_sub T lo up); [assumption|destruct (incr >? 0); lia]|].
      intros tid team_id Ht Hm. cbv zeta.
      rewrite dist_team_greedy by (try assumption; fold lo up tc; lia).
      fold lo up tc big. cbn [fst snd d_plastiter d_plower d_pupperDist].
      split; [|split].
      * assert (Eg : greedy_last T incr (greedy_lower T lo incr big team_id)
                       (greedy_upper0 T lo incr big team_id) up = (team_id =? w)).
        { rewrite <- (Huniq team_id Hm).
          assert (Etc : tc = ideal_trip lo up incr) by exact Hex.
          unfold big. rewrite Etc.
          apply (greedy_share_last T lo up incr nteams team_id);
            try assumption; try lia; rewrite <- Etc; lia. }
        rewrite Eg. reflexivity.
      * intros _. apply overflow_clamp_range; [apply wrap_range | assumption].
      * intros ->. fold lw uw. split; [|split; reflexivity].
        destruct (incr >? 0); [replace (lw >? uw) with false by lia
                              |replace (lw <? uw) with false by lia]; reflexivity.
Qed.

(** ** The flag of the two-level solver *)

(** The two parts of the two-level solver; the consistency check changes
    no result. *)
Lemma dist_for_static_init_fst T E g th schedule s incr chunk :
  fst (__kmp_dist_for_static_init T E g th schedule s incr chunk) =
  let tid := wrap kmp_uint32 (th_tid th) in
  let nth := wrap kmp_uint32 (th_team_nproc th) in
  let nteams := wrap kmp_uint32 (th_teams_size_nteams th) in
  let team_id := wrap kmp_uint32 (t_master_tid (th_team th)) in
  let r := fst (dist_team_chunk T E g tid team_id nteams s incr) in
  if snd r then fst (dist_thread_chunk T E g tid nth schedule (fst r) incr chunk)
  else fst r.
Proof.
  unfold __kmp_dist_for_static_init. rewrite !fst_bind. cbv zeta.
  destruct (snd _); reflexivity.
Qed.

Lemma dist_team_range T E g tid team_id nteams s incr :
  in_range T (d_pupper s) -> in_range (signed_t T) incr ->
  0 <= tid <= 4294967295 -> 0 <= team_id <= 4294967295 -> 1 <= nteams <= 4294967295 ->
  let r := fst (dist_team_chunk T E g tid team_id nteams s incr) in
  snd r = true -> in_range T (d_pupperDist (fst r)).
Proof.
  intros Hu Hi Ht Hm Hn. cbv zeta.
  destruct (Z_le_gt_dec (tripCountD T (d_plower s) (d_pupper s) incr) nteams) as [Hfew|Hmany].
  - rewrite dist_team_few by (try assumption; lia). cbn [fst snd]. discriminate.
  - destruct (Z.eq_dec (__kmp_static g) (kmp_sch_static_balanced E)) as [Hb|Hb].
    + rewrite dist_team_balanced by (try assumption; lia).
      cbn [fst snd d_pupperDist]. intros _. apply wrap_range.
    + rewrite dist_team_greedy by (try assumption; lia).
      cbn [fst snd d_pupperDist]. intros _.
      apply overflow_clamp_range; [apply wrap_range | assumption].
Qed.

(** The flag is the one of the team-level part and the test of the
    thread-level part on the chunk of the team. *)
Lemma dist_last_and T E g th schedule s incr chunk :
  in_range T (d_pupper s) ->
  in_range (signed_t T) incr -> in_range (signed_t T) chunk ->
  let tid := wrap kmp_uint32 (th_tid th) in
  let nth := wrap kmp_uint32 (th_team_nproc th) in
  let nteams := wrap kmp_uint32 (th_teams_size_nteams th) in
  let team_id := wrap kmp_uint32 (t_master_tid (th_team th)) in
  1 <= nth -> 1 <= nteams ->
  let r := fst (dist_team_chunk T E g tid team_id nteams s incr) in
  d_plastiter (fst (__kmp_dist_for_static_init T E g th schedule s incr chunk))
  = option_map
      (fun candidate =>
         candidate &&
         (if snd r
          then dist_thread_last T E g tid nth schedule
                 (d_plower (fst r)) (d_pupperDist (fst r)) incr chunk
          else true))
      (d_plastiter (fst r)).
Proof.
  intros Hu Hi Hc tid nth nteams team_id Hn Hnt r.
  assert (Hw : forall x, 0 <= wrap kmp_uint32 x <= 4294967295)
    by (intros x; apply (wrap_range kmp_uint32)).
  assert (Hnt' : 1 <= nteams <= 4294967295) by (split; [assumption | apply Hw]).
  assert (Hn' : 1 <= nth <= 4294967295) by (split; [assumption | apply Hw]).
  rewrite dist_for_static_init_fst. cbv zeta. fold tid nth nteams team_id. fold r.
  pose proof (dist_team_range T E g tid team_id nteams s incr Hu Hi (Hw _) (Hw _) Hnt') as Hr.
  cbv zeta in Hr. fold r in Hr.
  destruct (snd r) eqn:Er.
  - apply dist_thread_flag; try assumption; auto. apply Hw.
  - destruct (d_plastiter (fst r)) as [[|]|]; reflexivity.
Qed.

(** One thread of one team keeps the flag. *)
Lemma dist_last_unique T E g schedule s incr chunk nteams nth :
  in_range T (d_plower s) -> in_range T (d_pupper s) ->
  in_range (signed_t T) incr -> in_range (signed_t T) chunk ->
  incr <> 0 ->
  (if incr >? 0 then d_plower s <= d_pupper s else d_pupper s <= d_plower s) ->
  dist_span_ok T (d_plower s) (d_pupper s) incr ->
  schedule = kmp_sch_static E \/ schedule = kmp_sch_static_chunked E ->
  kmp_sch_static_chunked E <> kmp_sch_static E ->
  1 <= nteams <= 4294967295 -> 1 <= nth <= 4294967295 ->
  exists wt wi, 0 <= wt < nteams /\ 0 <= wi < nth /\
    forall th,
      th_teams_size_nteams th = nteams -> th_team_nproc th = nth ->
      0 <= t_master_tid (th_team th) < nteams -> 0 <= th_tid th < nth ->
      d_plastiter (fst (__kmp_dist_for_static_init T E g th schedule s incr chunk))
      = option_map (fun _ => (t_master_tid (th_team th) =? wt) && (th_tid th =? wi))
          (d_plastiter s).
Proof.
  intros Hl Hu Hi Hc Hne Hleg Hspan Hsched Hdist Hnt Hn.
  destruct (dist_team_unique T E g nteams s incr Hl Hu Hi Hne Hleg Hspan Hnt)
    as (wt & Hwt & [Hfew | (l & uD & Hlr & Hur & Hlegw & Hspanw & Hmany)]).
  - exists wt, 0. split; [exact Hwt|]. split; [lia|].
    intros th En Et Hm Ht.
    rewrite dist_for_static_init_fst. cbv zeta.
    rewrite En, Et, !wrap_id by (unfold in_range; simpl; lia).
    destruct (Hfew (th_tid th) (t_master_tid (th_team th)) ltac:(lia) Hm) as [Hc0 Hf].
    rewrite Hc0. exact Hf.
  - destruct (dist_thread_unique T E g nth schedule l uD incr chunk Hlr Hur Hi Hc Hne
                Hlegw Hspanw Hn Hsched Hdist) as (wi & Hwi & Hthread).
    exists wt, wi. split; [exact Hwt|]. split; [exact Hwi|].
    intros th En Et Hm Ht.
    rewrite dist_for_static_init_fst. cbv zeta.
    rewrite En, Et, !wrap_id by (unfold in_range; simpl; lia).
    destruct (Hmany (th_tid th) (t_master_tid (th_team th)) ltac:(lia) Hm)
      as (Hf & Hrange & Hlast).
    set (r := fst (dist_team_chunk T E g (th_tid th) (t_master_tid (th_team th)) nteams s incr))
      in *.
    destruct (Z.eq_dec (t_master_tid (th_team th)) wt) as [Ew|Ew].
    + destruct (Hlast Ew) as (Hc1 & El & Eu). rewrite Hc1.
      rewrite dist_thread_flag by (try assumption; auto; lia).
      rewrite Hf, El, Eu, Hthread by assumption.
      replace (t_master_tid (th_team th) =? wt) with true by lia.
      destruct (d_plastiter s); reflexivity.
    + replace (t_master_tid (th_team th) =? wt) with false in * by lia.
      destruct (snd r) eqn:Ec.
      * rewrite dist_thread_flag by (try assumption; auto; lia).
        rewrite Hf. destruct (d_plastiter s); reflexivity.
      * rewrite Hf. reflexivity.
Qed.

(** C7, the claim as it is written fails: on the loop over the whole range
    of an unsigned 32-bit variable the trip count 2^32 wraps to 0 (the
    consistency check reports [CnsIterationRangeTooLarge]), and none of the
    two threads gets the flag. *)
Lemma full_range_has_no_last :
  zero_trip kmp_uint32 0 4294967295 1 = false /\
  let run := fun tid => __kmpc_for_static_init_4u kmp_h (ex_globals 41) (ex_thread tid 2) 34
                          (ex_loop 0 4294967295) 1 1 in
  plastiter (fst (run 0)) = Some false /\
  plastiter (fst (run 1)) = Some false /\
  In (Ev_error kmp_i18n_msg_CnsIterationRangeTooLarge) (snd (run 0)).
Proof.
  split; [reflexivity|]. cbv zeta.
  split; [vm_compute; reflexivity|]. split; [vm_compute; reflexivity|].
  vm_compute. right. left. reflexivity.
Qed.

(** C7 (amended).  Take a loop with iterations, of increment not 0, and
    the schedule [kmp_sch_static] (Balanced or Greedy) or
    [kmp_sch_static_chunked].

    Single-level solver: if the trip count is computed without overflow,
    there is one thread index [w] below the number of threads such that
    every thread gets the flag [tid == w].

    Two-level solver: if the span of the bounds passes the signed cast of
    its trip count ([dist_span_ok]), there is one pair of a team index
    [wt] and a thread index [wi] such that thread [tid] of team [team_id]
    gets the flag [team_id == wt && tid == wi]; and for every thread the
    flag is the conjunction of the flag the team-level part has stored for
    its team and, when the thread-level part runs, of the test of that
    part on the chunk of the team.  When there are no more iterations
    than teams the team-level part sets the flag by itself, for the thread
    of index 0 of the team of index [iterations - 1], and the thread-level
    part does not run. *)
Theorem last_flag_has_one_owner T E g lo up incr chunk :
  in_range T lo -> in_range T up ->
  in_range (signed_t T) incr -> in_range (signed_t T) chunk ->
  incr <> 0 ->
  (if incr >? 0 then lo <= up else up <= lo) ->
  kmp_sch_static_chunked E <> kmp_sch_static E ->
  (tripCount T lo up incr = ideal_trip lo up incr ->
   forall schedtype sched team flag st,
     sched = kmp_sch_static E \/ sched = kmp_sch_static_chunked E ->
     let nth := wrap kmp_uint32 (t_nproc team) in
     1 <= nth ->
     (t_serialized team = true -> nth = 1) ->
     exists w, 0 <= w < nth /\
       forall th tid,
         for_resolve E th schedtype = (sched, tid, team) -> tid < nth ->
         plastiter (fst (__kmp_for_static_init T E g th schedtype
                           {| plastiter := flag; plower := lo; pupper := up; pstride := st |}
                           incr chunk))
         = option_map (fun _ => tid =? w) flag)
  /\
  (dist_span_ok T lo up incr ->
   forall schedule nteams nth flag ud st,
     schedule = kmp_sch_static E \/ schedule = kmp_sch_static_chunked E ->
     1 <= nteams <= 4294967295 -> 1 <= nth <= 4294967295 ->
     let s := {| d_plastiter := flag; d_plower := lo; d_pupper := up;
                 d_pupperDist := ud; d_pstride := st |} in
     (exists wt wi, 0 <= wt < nteams /\ 0 <= wi < nth /\
        forall th,
          th_teams_size_nteams th = nteams -> th_team_nproc th = nth ->
          0 <= t_master_tid (th_team th) < nteams -> 0 <= th_tid th < nth ->
          d_plastiter (fst (__kmp_dist_for_static_init T E g th schedule s incr chunk))
          = option_map (fun _ => (t_master_tid (th_team th) =? wt) && (th_tid th =? wi)) flag)
     /\
     (forall th,
        th_teams_size_nteams th = nteams -> th_team_nproc th = nth ->
        0 <= t_master_tid (th_team th) < nteams -> 0 <= th_tid th < nth ->
        let r := fst (dist_team_chunk T E g (th_tid th) (t_master_tid (th_team th))
                        nteams s incr) in
        d_plastiter (fst (__kmp_dist_for_static_init T E g th schedule s incr chunk))
        = option_map
            (fun candidate =>
               candidate &&
               (if snd r
                then dist_thread_last T E g (th_tid th) nth schedule
                       (d_plower (fst r)) (d_pupperDist (fst r)) incr chunk
                else true))
            (d_plastiter (fst r)))
     /\
     (ideal_trip lo up incr <= nteams ->
      forall th,
        th_teams_size_nteams th = nteams -> th_team_nproc th = nth ->
        0 <= t_master_tid (th_team th) < nteams -> 0 <= th_tid th < nth ->
        snd (fst (dist_team_chunk T E g (th_tid th) (t_master_tid (th_team th))
                    nteams s incr)) = false /\
        d_plastiter (fst (__kmp_dist_for_static_init T E g th schedule s incr chunk))
        = option_map
            (fun _ => (th_tid th =? 0)
                      && (t_master_tid (th_team th) =? ideal_trip lo up incr - 1))
            flag)).
Proof.
  intros Hl Hu Hi Hc Hne Hleg Hdist. split.
  - intros Hex schedtype sched team flag st Hsched nth Hn Hser.
    apply (for_last_unique T E g schedtype
             {| plastiter := flag; plower := lo; pupper := up; pstride := st |}
             incr chunk sched team); cbn [plower pupper]; try assumption.
    rewrite zero_trip_spec by assumption. destruct (incr >? 0); lia.
  - intros Hspan schedule nteams nth flag ud st Hsched Hnt Hn s. split; [|split].
    + apply (dist_last_unique T E g schedule s incr chunk nteams nth);
        subst s; cbn [d_plower d_pupper]; assumption.
    + intros th En Et Hm Ht r.
      pose proof (dist_last_and T E g th schedule s incr chunk Hu Hi Hc) as H.
      cbv zeta in H.
      rewrite En, Et, !wrap_id in H by (unfold in_range; simpl; lia).
      apply H; lia.
    + intros Hfew th En Et Hm Ht.
      pose proof (tripCountD_exact T lo up incr Hl Hu Hi Hne Hleg Hspan) as Hex.
      pose proof (ideal_trip_pos _ _ _ Hne Hleg) as Hpos.
      pose proof (tripCountD_range T 448 lo up incr) as Htr.
      fold (tripCountD T lo up incr) in Htr. rewrite Hex in Htr.
      pose proof (dist_team_few T E g (th_tid th) (t_master_tid (th_team th)) nteams s incr
                    Hu ltac:(lia) ltac:(lia) ltac:(lia)) as Hteam.
      cbv zeta in Hteam. subst s. cbn [d_plower d_pupper d_plastiter] in Hteam.
      rewrite Hex in Hteam. specialize (Hteam Hfew).
      rewrite (wrap_id (unsigned_t T) (ideal_trip lo up incr - 1)) in Hteam
        by (unfold in_range in *; rewrite mn_unsigned_t in *; lia).
      rewrite dist_for_static_init_fst. cbv zeta.
      rewrite En, Et, !wrap_id by (unfold in_range; simpl; lia).
      rewrite Hteam. cbn [fst snd d_plastiter]. split; reflexivity.
Qed.

Lemma last_flag_has_one_owner_witness :
  (exists w, 0 <= w < 3 /\
     forall tid, 0 <= tid < 3 ->
       plastiter (fst (__kmp_for_static_init kmp_int32 kmp_h (ex_globals 40)
                         (ex_thread tid 3) 34 (ex_loop 0 9) 1 1))
       = Some (tid =? w))
  /\
  (exists wt wi, 0 <= wt < 2 /\ 0 <= wi < 2 /\
     forall team_id tid, 0 <= team_id < 2 -> 0 <= tid < 2 ->
       d_plastiter (fst (__kmp_dist_for_static_init kmp_int32 kmp_h (ex_globals 40)
                           (ex_team_thread team_id 2 tid 2) 34 (ex_dist_loop 0 9) 1 1))
       = Some ((team_id =? wt) && (tid =? wi))).
Proof.
  assert (Hr : forall x, -2147483648 <= x <= 2147483647 -> in_range kmp_int32 x)
    by (intros x Hx; exact Hx).
  destruct (last_flag_has_one_owner kmp_int32 kmp_h (ex_globals 40) 0 9 1 1
              (Hr 0 ltac:(lia)) (Hr 9 ltac:(lia)) (Hr 1 ltac:(lia)) (Hr 1 ltac:(lia))
              ltac:(lia) ltac:(simpl; lia) ltac:(vm_compute; congruence)) as [H1 H2].
  split.
  - destruct (H1 eq_refl 34 (kmp_sch_static kmp_h) (ex_team 3 0) (Some false) 0
                (or_introl eq_refl) ltac:(vm_compute; congruence)
                ltac:(intros H; discriminate H)) as (w & Hw & Hall).
    exists w. split; [exact Hw|]. intros tid Htid.
    apply (Hall (ex_thread tid 3) tid).
    + unfold for_resolve.
      change ((var kmp_int32 34 > var kmp_int32 (kmp_ord_upper kmp_h))%cint) with false.
      cbv iota. cbn [ex_thread th_tid th_team].
      rewrite (wrap_id kmp_uint32 tid) by (unfold in_range; simpl; lia). reflexivity.
    + change (wrap kmp_uint32 (t_nproc (ex_team 3 0))) with 3. lia.
  - destruct (H2 ltac:(vm_compute; congruence) 34 2 2 (Some false) 0 0
                (or_introl eq_refl) ltac:(lia) ltac:(lia))
      as [(wt & wi & Hwt & Hwi & Hall) _].
    exists wt, wi. split; [exact Hwt|]. split; [exact Hwi|].
    intros team_id tid Hm Ht.
    apply (Hall (ex_team_thread team_id 2 tid 2)); try reflexivity; assumption.
Defined.

(** ** Extra properties: trip counts *)

(** X1.  The single-level solver counts the iterations of a loop exactly
    when the difference of the bounds does not overflow the division it is
    put through: any loop of an unsigned variable with an increment other
    than 1 and -1, the loops of a signed variable whose span fits the
    type, and with increment 1 or -1 every loop but the one over the whole
    range of the type. *)
Theorem trip_count_is_exact T lo up incr :
  in_range T lo -> in_range T up -> in_range (signed_t T) incr ->
  incr <> 0 ->
  illegal lo up incr = false ->
  for_span_ok T lo up incr ->
  tripCount T lo up incr = ideal_trip lo up incr /\
  1 <= tripCount T lo up incr /\
  (is_signed T = false -> 1 < Z.abs incr ->
   forall lo' up', in_range T lo' -> in_range T up' -> for_span_ok T lo' up' incr).
Proof.
  intros Hl Hu Hi Hne Hleg Hspan.
  assert (Hleg' : if incr >? 0 then lo <= up else up <= lo).
  { unfold illegal in Hleg. destruct (incr >? 0); lia. }
  split; [apply tripCount_exact; assumption|]. split.
  - rewrite tripCount_exact by assumption. apply ideal_trip_pos; assumption.
  - intros Hs Habs lo' up' Hl' Hu'. unfold for_span_ok.
    replace ((incr =? 1) || (incr =? -1)) with false
      by (symmetry; apply orb_false_iff; split; lia).
    unfold in_range in *. destruct T; try discriminate Hs; cbn [mn mx] in *; lia.
Qed.

Lemma trip_count_is_exact_witness :
  tripCount kmp_uint32 0 3221225471 1073741824 = 3.
Proof.
  assert (Hr : forall x, 0 <= x <= 4294967295 -> in_range kmp_uint32 x)
    by (intros x Hx; exact Hx).
  destruct (trip_count_is_exact kmp_uint32 0 3221225471 1073741824
              (Hr 0 ltac:(lia)) (Hr 3221225471 ltac:(lia))
              ltac:(unfold in_range; simpl; lia) ltac:(lia) eq_refl
              ltac:(vm_compute; congruence)) as (H & _).
  rewrite H. reflexivity.
Defined.

(** X2.  The two-level and the team solver cast the difference of the
    bounds to the signed type before dividing it (lines 448, 515 and 685);
    for the loops whose span passes the cast they count the iterations as
    the single-level solver does, exactly. *)
Theorem trip_counts_agree T lo up incr :
  in_range T lo -> in_range T up -> in_range (signed_t T) incr ->
  incr <> 0 ->
  illegal lo up incr = false ->
  dist_span_ok T lo up incr ->
  tripCountD T lo up incr = tripCount T lo up incr /\
  tripCountD T lo up incr = ideal_trip lo up incr /\
  forall line, fst (dist_trip_count T line lo up incr) = tripCountD T lo up incr.
Proof.
  intros Hl Hu Hi Hne Hleg Hspan.
  assert (Hleg' : if incr >? 0 then lo <= up else up <= lo).
  { unfold illegal in Hleg. destruct (incr >? 0); lia. }
  rewrite tripCountD_exact by assumption.
  rewrite tripCount_exact by (try assumption; apply dist_span_ok_for; assumption).
  split; [reflexivity|]. split; [reflexivity|].
  intros line. rewrite dist_trip_count_line. apply tripCountD_exact; assumption.
Qed.

Lemma trip_counts_agree_witness :
  tripCountD kmp_int64 100 1 (-3) = 34 /\ tripCount kmp_int64 100 1 (-3) = 34.
Proof.
  assert (Hr : forall x, -9223372036854775808 <= x <= 9223372036854775807 ->
                         in_range kmp_int64 x) by (intros x Hx; exact Hx).
  destruct (trip_counts_agree kmp_int64 100 1 (-3)
              (Hr 100 ltac:(lia)) (Hr 1 ltac:(lia)) (Hr (-3) ltac:(lia)) ltac:(lia) eq_refl
              ltac:(vm_compute; congruence)) as (H1 & H2 & _).
  split; [rewrite H2; reflexivity | rewrite <- H1, H2; reflexivity].
Defined.

(** ** Extra properties: what the solvers report *)

Lemma errors_of_app l1 l2 : errors_of (l1 ++ l2) = errors_of l1 ++ errors_of l2.
Proof. unfold errors_of. apply flat_map_app. Qed.

Lemma metadata_of_app l1 l2 : metadata_of (l1 ++ l2) = metadata_of l1 ++ metadata_of l2.
Proof. unfold metadata_of. apply flat_map_app. Qed.

Lemma errors_of_divs l : Forall (fun e => is_div e = true) l -> errors_of l = [].
Proof.
  induction 1 as [|e l He _ IH]; [reflexivity|].
  destruct e; try discriminate He. exact IH.
Qed.

Lemma metadata_of_divs l : Forall (fun e => is_div e = true) l -> metadata_of l = [].
Proof.
  induction 1 as [|e l He _ IH]; [reflexivity|].
  destruct e; try discriminate He. exact IH.
Qed.

Lemma In_divs l e : Forall (fun e => is_div e = true) l -> In e l -> is_div e = true.
Proof. intros H Hin. rewrite Forall_forall in H. auto. Qed.

(** The parts of the solvers that only compute perform no action but
    their divisions. *)
Lemma for_trip_count_only_divs T lower upper incr :
  Forall (fun e => is_div e = true) (snd (for_trip_count T lower upper incr)).
Proof.
  unfold for_trip_count.
  repeat match goal with |- context [if ?c then _ else _] => destruct c end;
    repeat divs_step; reflexivity.
Qed.

Lemma dist_trip_count_only_divs T line lower upper incr :
  Forall (fun e => is_div e = true) (snd (dist_trip_count T line lower upper incr)).
Proof.
  unfold dist_trip_count.
  repeat match goal with |- context [if ?c then _ else _] => destruct c end;
    repeat divs_step; reflexivity.
Qed.

Lemma for_static_only_divs T E g tid nth tc s incr :
  Forall (fun e => is_div e = true) (snd (for_static T E g tid nth tc s incr)).
Proof.
  unfold for_static.
  destruct (_ < _)%cint; [apply Forall_nil|].
  destruct (_ =? _); repeat divs_step; reflexivity.
Qed.

Lemma for_static_chunked_only_divs T tid nth tc s incr chunk :
  Forall (fun e => is_div e = true) (snd (for_static_chunked T tid nth tc s incr chunk)).
Proof. unfold for_static_chunked. repeat divs_step; reflexivity. Qed.

Lemma dist_team_chunk_only_divs T E g tid team_id nteams s incr :
  Forall (fun e => is_div e = true) (snd (dist_team_chunk T E g tid team_id nteams s incr)).
Proof.
  unfold dist_team_chunk. apply Forall_bind; [apply dist_trip_count_only_divs|].
  cbv zeta.
  destruct (_ <= _)%cint; [apply Forall_nil|].
  destruct (_ =? _); repeat divs_step; reflexivity.
Qed.

Lemma dist_static_only_divs T E g tid nth tc s incr :
  Forall (fun e => is_div e = true) (snd (dist_static T E g tid nth tc s incr)).
Proof.
  unfold dist_static.
  destruct (_ <= _)%cint; [apply Forall_nil|].
  destruct (_ =? _); repeat divs_step; reflexivity.
Qed.

Lemma dist_static_chunked_only_divs T tid nth tc s incr chunk :
  Forall (fun e => is_div e = true) (snd (dist_static_chunked T tid nth tc s incr chunk)).
Proof. unfold dist_static_chunked. repeat divs_step; reflexivity. Qed.

Lemma illegal_loop_spec T lower upper incr :
  in_range T lower -> in_range T upper -> in_range (signed_t T) incr ->
  illegal_loop T lower upper incr = illegal lower upper incr.
Proof.
  intros Hl Hu Hi. unfold illegal_loop, illegal.
  rewrite incr_gt_0, !lt_T by assumption. reflexivity.
Qed.

Lemma zero_trip_illegal T lower upper incr :
  in_range T lower -> in_range T upper -> in_range (signed_t T) incr ->
  zero_trip T lower upper incr = illegal lower upper incr.
Proof. intros. rewrite zero_trip_spec by assumption. reflexivity. Qed.

Lemma tc_eq_0 T tc :
  in_range (unsigned_t T) tc -> (var (unsigned_t T) tc == lit 0)%cint = (tc =? 0).
Proof. intros H. destruct T; kinds; rewrite ?wrap_id by range_tac; reflexivity. Qed.

(** X3.  What the single-level solver reports.  With the consistency
    check off it reports nothing.  With the check on it reports a zero
    increment, and, when the loop is shared by more than one thread, a trip
    count that has wrapped to 0 ([CnsIterationRangeTooLarge]); it never
    reports an illegal loop, which it runs as a zero-trip loop. *)
Theorem for_static_init_errors T E g th schedtype s incr chunk :
  in_range T (plower s) -> in_range T (pupper s) -> in_range (signed_t T) incr ->
  let team := snd (for_resolve E th schedtype) in
  let shared := negb (illegal (plower s) (pupper s) incr)
                && negb (t_serialized team)
                && negb (wrap kmp_uint32 (t_nproc team) =? 1) in
  errors_of (snd (__kmp_for_static_init T E g th schedtype s incr chunk)) =
  if __kmp_env_consistency_check g then
    (if incr =? 0 then [kmp_i18n_msg_CnsLoopIncrZeroProhibited] else [])
    ++ (if shared && (tripCount T (plower s) (pupper s) incr =? 0)
           && negb (pupper s =? plower s)
        then [kmp_i18n_msg_CnsIterationRangeTooLarge] else [])
  else [].
Proof.
  intros Hl Hu Hi team shared. unfold __kmp_for_static_init.
  rewrite snd_bind, errors_of_app.
  rewrite incr_eq_0 by assumption.
  assert (E1 : errors_of (snd (when (__kmp_env_consistency_check g)
                 (emit Ev_push_workshare;;;
                  when (incr =? 0) (emit (Ev_error kmp_i18n_msg_CnsLoopIncrZeroProhibited)))))
               = if __kmp_env_consistency_check g
                 then if incr =? 0 then [kmp_i18n_msg_CnsLoopIncrZeroProhibited] else []
                 else []).
  { destruct (__kmp_env_consistency_check g), (incr =? 0); reflexivity. }
  rewrite E1. clear E1.
  rewrite zero_trip_illegal by assumption.
  subst shared team.
  destruct (illegal (plower s) (pupper s) incr).
  { cbn [negb andb snd ret errors_of flat_map].
    destruct (__kmp_env_consistency_check g); rewrite ?app_nil_r; reflexivity. }
  destruct (for_resolve E th schedtype) as [[sched tid] team]. cbn [snd negb andb].
  destruct (t_serialized team).
  { cbn [negb andb snd ret errors_of flat_map].
    destruct (__kmp_env_consistency_check g); rewrite ?app_nil_r; reflexivity. }
  rewrite nth_is_1.
  destruct (wrap kmp_uint32 (t_nproc team) =? 1).
  { cbn [negb andb snd ret errors_of flat_map].
    destruct (__kmp_env_consistency_check g); rewrite ?app_nil_r; reflexivity. }
  cbn [negb andb].
  rewrite snd_bind, errors_of_app.
  rewrite (errors_of_divs _ (for_trip_count_only_divs T _ _ incr)). cbn [app].
  fold (tripCount T (plower s) (pupper s) incr).
  pose proof (tripCount_range T (plower s) (pupper s) incr) as Htr.
  set (tc := tripCount T (plower s) (pupper s) incr) in *.
  rewrite snd_bind, errors_of_app.
  rewrite tc_eq_0, ne_T by assumption.
  assert (Erest : forall r : loop_state * Z,
            errors_of (snd (for_itt_metadata T E g th team sched tid
                              (wrap kmp_uint32 (t_nproc team)) tc (snd r);;; ret (fst r))) = []).
  { intros r. rewrite snd_bind, errors_of_app. cbn [snd ret errors_of flat_map].
    rewrite app_nil_r. unfold for_itt_metadata.
    destruct (_ && _); [|reflexivity].
    cbn [when]. rewrite snd_bind, errors_of_app.
    destruct (sched =? kmp_sch_static E); reflexivity. }
  assert (Esw : errors_of (snd (r <- (if sched =? kmp_sch_static E
                    then s0 <- for_static T E g tid (wrap kmp_uint32 (t_nproc team)) tc s incr;;
                         ret (s0, chunk)
                    else if sched =? kmp_sch_static_chunked E
                         then for_static_chunked T tid (wrap kmp_uint32 (t_nproc team)) tc s incr chunk
                         else emit Ev_assert_fail;;; ret (s, chunk));;
                  for_itt_metadata T E g th team sched tid
                    (wrap kmp_uint32 (t_nproc team)) tc (snd r);;; ret (fst r))) = []).
  { rewrite snd_bind, errors_of_app, Erest, app_nil_r.
    destruct (sched =? kmp_sch_static E).
    - rewrite snd_bind, errors_of_app. cbn [snd ret errors_of flat_map].
      rewrite app_nil_r. apply errors_of_divs, for_static_only_divs.
    - destruct (sched =? kmp_sch_static_chunked E).
      + apply errors_of_divs, for_static_chunked_only_divs.
      + reflexivity. }
  rewrite Esw, app_nil_r.
  destruct (__kmp_env_consistency_check g); [|reflexivity].
  destruct (incr =? 0), (tc =? 0), (pupper s =? plower s); reflexivity.
Qed.

(** X4.  What the two-level and the team solver report: nothing with the
    consistency check off; with the check on, a zero increment and an
    illegal loop (upper below lower for a positive increment, lower below
    upper otherwise), and never a trip count out of range. *)
Theorem dist_and_team_errors T E g th schedule sd s incr chunk :
  in_range (signed_t T) incr ->
  (in_range T (d_plower sd) -> in_range T (d_pupper sd) ->
   errors_of (snd (__kmp_dist_for_static_init T E g th schedule sd incr chunk)) =
   if __kmp_env_consistency_check g then
     (if incr =? 0 then [kmp_i18n_msg_CnsLoopIncrZeroProhibited] else [])
     ++ (if illegal (d_plower sd) (d_pupper sd) incr
         then [kmp_i18n_msg_CnsLoopIncrIllegal] else [])
   else [])
  /\
  (in_range T (plower s) -> in_range T (pupper s) ->
   errors_of (snd (__kmp_team_static_init T g th s incr chunk)) =
   if __kmp_env_consistency_check g then
     (if incr =? 0 then [kmp_i18n_msg_CnsLoopIncrZeroProhibited] else [])
     ++ (if illegal (plower s) (pupper s) incr
         then [kmp_i18n_msg_CnsLoopIncrIllegal] else [])
   else []).
Proof.
  intros Hi. split; intros Hl Hu.
  - unfold __kmp_dist_for_static_init.
    rewrite snd_bind, errors_of_app.
    rewrite incr_eq_0, illegal_loop_spec by assumption.
    assert (Erest : forall k : dist_state * bool -> M dist_state,
              (forall r, errors_of (snd (k r)) = []) ->
              errors_of (snd (bind (dist_team_chunk T E g (wrap kmp_uint32 (th_tid th))
                   (wrap kmp_uint32 (t_master_tid (th_team th)))
                   (wrap kmp_uint32 (th_teams_size_nteams th)) sd incr) k)) = []).
    { intros k Hk. rewrite snd_bind, errors_of_app, Hk, app_nil_r.
      apply errors_of_divs, dist_team_chunk_only_divs. }
    rewrite Erest.
    + rewrite app_nil_r.
      destruct (__kmp_env_consistency_check g), (incr =? 0),
        (illegal (d_plower sd) (d_pupper sd) incr); reflexivity.
    + intros r. destruct (snd r); [|reflexivity].
      unfold dist_thread_chunk. rewrite snd_bind, errors_of_app.
      rewrite (errors_of_divs _ (dist_trip_count_only_divs T _ _ _ incr)). cbn [app].
      destruct (schedule =? kmp_sch_static E);
        [apply errors_of_divs, dist_static_only_divs|].
      destruct (schedule =? kmp_sch_static_chunked E);
        [apply errors_of_divs, dist_static_chunked_only_divs|reflexivity].
  - unfold __kmp_team_static_init.
    rewrite snd_bind, errors_of_app.
    rewrite incr_eq_0, illegal_loop_spec by assumption.
    rewrite snd_bind, errors_of_app.
    rewrite (errors_of_divs _ (dist_trip_count_only_divs T _ _ _ incr)). cbn [app].
    match goal with
    | |- _ ++ errors_of ?l = _ => assert (Erest : errors_of l = [])
    end.
    { apply errors_of_divs. repeat divs_step; reflexivity. }
    rewrite Erest, app_nil_r.
    destruct (__kmp_env_consistency_check g), (incr =? 0),
      (illegal (plower s) (pupper s) incr); reflexivity.
Qed.

Lemma for_static_init_errors_witness :
  errors_of (snd (__kmpc_for_static_init_4u kmp_h (ex_globals 41) (ex_thread 0 2) 34
                    (ex_loop 0 4294967295) 1 1))
  = [kmp_i18n_msg_CnsIterationRangeTooLarge].
Proof.
  assert (Hr : forall x, 0 <= x <= 4294967295 -> in_range kmp_uint32 x)
    by (intros x Hx; exact Hx).
  unfold __kmpc_for_static_init_4u.
  rewrite (for_static_init_errors kmp_uint32 kmp_h (ex_globals 41) (ex_thread 0 2) 34
             (ex_loop 0 4294967295) 1 1 (Hr 0 ltac:(lia)) (Hr 4294967295 ltac:(lia))
             ltac:(unfold in_range; simpl; lia)).
  reflexivity.
Defined.

Lemma dist_and_team_errors_witness :
  errors_of (snd (__kmpc_dist_for_static_init_4 kmp_h (ex_globals 41)
                    (ex_team_thread 0 2 0 2) 34 (ex_dist_loop 0 10) (-1) 1))
  = [kmp_i18n_msg_CnsLoopIncrIllegal] /\
  errors_of (snd (__kmpc_team_static_init_4 (ex_globals 41)
                    (ex_team_thread 0 2 0 2) (ex_loop 10 0) 0 1))
  = [kmp_i18n_msg_CnsLoopIncrZeroProhibited].
Proof.
  assert (Hr : forall x, -2147483648 <= x <= 2147483647 -> in_range kmp_int32 x)
    by (intros x Hx; exact Hx).
  split.
  - destruct (dist_and_team_errors kmp_int32 kmp_h (ex_globals 41) (ex_team_thread 0 2 0 2) 34
                (ex_dist_loop 0 10) (ex_loop 0 10) (-1) 1 (Hr (-1) ltac:(lia))) as [H _].
    unfold __kmpc_dist_for_static_init_4.
    rewrite (H (Hr 0 ltac:(lia)) (Hr 10 ltac:(lia))). reflexivity.
  - destruct (dist_and_team_errors kmp_int32 kmp_h (ex_globals 41) (ex_team_thread 0 2 0 2) 34
                (ex_dist_loop 0 10) (ex_loop 10 0) 0 1 (Hr 0 ltac:(lia))) as [_ H].
    unfold __kmpc_team_static_init_4.
    rewrite (H (Hr 10 ltac:(lia)) (Hr 0 ltac:(lia))). reflexivity.
Defined.

Lemma big_chunk_metadata_code T tc n :
  in_range (unsigned_t T) tc -> 1 <= n <= 4294967295 ->
  cval (conv kmp_uint64
          (var (unsigned_t T) (tc / n)
           + cond (truthy (var (unsigned_t T) (tc mod n))) (lit 1) (lit 0))%cint)
  = big_chunk tc n.
Proof.
  intros Htc Hn. unfold big_chunk, truthy. cbn [cval var].
  assert (Hb : 0 <= tc / n + (if tc mod n =? 0 then 0 else 1) <= tc).
  { unfold in_range in Htc. rewrite mn_unsigned_t in Htc.
    pose proof (Z.div_pos tc n ltac:(lia) ltac:(lia)).
    pose proof (Z_div_mod_eq_full tc n). pose proof (Z.mod_pos_bound tc n ltac:(lia)).
    destruct (tc mod n =? 0) eqn:E0; [nia|].
    assert (n = 1 \/ 2 <= n) as [->|Hn2] by lia; [rewrite Z.mod_1_r in E0; lia|]. nia. }
  unfold in_range in Htc. rewrite mn_unsigned_t in Htc.
  assert (Hq : 0 <= tc / n <= tc).
  { split; [apply Z.div_pos; lia|]. apply Z.div_le_upper_bound; nia. }
  destruct (tc mod n =? 0); cbn [negb]; unfold cond; cbv iota;
    destruct T; kinds;
    repeat match goal with
           | |- context [wrap ?U ?x] =>
               lazymatch x with
               | context [wrap _ _] => fail
               | _ => rewrite (wrap_id U x)
                        by (unfold in_range; cbn [mn mx unsigned_t] in *; lia)
               end
           end; reflexivity.
Qed.

(** X5.  What the single-level solver hands to the profiler: the trip
    count and the size of a chunk ([ceil(trip_count / nth)] for
    [kmp_sch_static], the chunk raised to at least 1 for
    [kmp_sch_static_chunked]), once, from the thread of index 0 only, when
    the loop is shared by more than one thread and the build, the
    profiler, the frames mode (3), the absence of a teams construct and
    the nesting level (1) allow it. *)
Theorem for_static_init_metadata T E g th schedtype s incr chunk sched tid team :
  in_range T (plower s) -> in_range T (pupper s) ->
  in_range (signed_t T) incr -> in_range (signed_t T) chunk ->
  for_resolve E th schedtype = (sched, tid, team) ->
  let nth := wrap kmp_uint32 (t_nproc team) in
  1 <= nth ->
  let tc := tripCount T (plower s) (pupper s) incr in
  let shared := negb (illegal (plower s) (pupper s) incr)
                && negb (t_serialized team) && negb (nth =? 1) in
  let profiled := USE_ITT_BUILD g && __itt_metadata_add_ptr g
                  && (__kmp_forkjoin_frames_mode g =? 3)
                  && negb (th_teams_microtask th) && (t_active_level team =? 1) in
  metadata_of (snd (__kmp_for_static_init T E g th schedtype s incr chunk)) =
  if shared && profiled && (tid =? 0) then
    [(tc, if sched =? kmp_sch_static E then big_chunk tc nth
          else if sched =? kmp_sch_static_chunked E then clamp_chunk chunk
          else wrap kmp_uint64 chunk)]
  else [].
Proof.
  intros Hl Hu Hi Hc Hr nth Hn tc shared profiled.
  pose proof (for_resolve_tid _ _ _ _ _ _ Hr) as Ht.
  pose proof (wrap_range kmp_uint32 (t_nproc team)) as Hnr. fold nth in Hnr.
  assert (Hn' : 1 <= nth <= 4294967295) by (unfold in_range in Hnr; simpl in Hnr; lia).
  pose proof (tripCount_range T (plower s) (pupper s) incr) as Htr. fold tc in Htr.
  unfold __kmp_for_static_init.
  rewrite snd_bind, metadata_of_app.
  assert (E1 : forall c1 c2, metadata_of (snd (when c1
                 (emit Ev_push_workshare;;;
                  when c2 (emit (Ev_error kmp_i18n_msg_CnsLoopIncrZeroProhibited))))) = []).
  { intros [|] [|]; reflexivity. }
  rewrite E1. cbn [app]. clear E1.
  rewrite zero_trip_illegal by assumption. subst shared.
  destruct (illegal (plower s) (pupper s) incr); [reflexivity|].
  rewrite Hr. destruct (t_serialized team); [reflexivity|].
  rewrite nth_is_1. fold nth.
  destruct (nth =? 1) eqn:En1; [reflexivity|].
  cbn [negb andb].
  rewrite snd_bind, metadata_of_app.
  rewrite (metadata_of_divs _ (for_trip_count_only_divs T _ _ incr)). cbn [app].
  fold (tripCount T (plower s) (pupper s) incr). fold tc.
  rewrite snd_bind, metadata_of_app.
  assert (E2 : forall c1 c2, metadata_of (snd (when c1
                 (when c2 (emit (Ev_error kmp_i18n_msg_CnsIterationRangeTooLarge))))) = []).
  { intros [|] [|]; reflexivity. }
  rewrite E2. cbn [app]. clear E2.
  rewrite snd_bind, metadata_of_app.
  match goal with
  | |- metadata_of (snd ?sw) ++ _ = _ => assert (Esw : metadata_of (snd sw) = [])
  end.
  { destruct (sched =? kmp_sch_static E).
    - rewrite snd_bind, metadata_of_app. cbn [snd ret metadata_of flat_map].
      rewrite app_nil_r. apply metadata_of_divs, for_static_only_divs.
    - destruct (sched =? kmp_sch_static_chunked E).
      + apply metadata_of_divs, for_static_chunked_only_divs.
      + reflexivity. }
  rewrite Esw. cbn [app]. clear Esw.
  rewrite snd_bind, metadata_of_app. cbn [snd ret metadata_of flat_map]. rewrite app_nil_r.
  unfold for_itt_metadata. rewrite eq_n_0 by assumption.
  subst profiled.
  replace (USE_ITT_BUILD g && (tid =? 0) && __itt_metadata_add_ptr g &&
           (__kmp_forkjoin_frames_mode g =? 3) && negb (th_teams_microtask th) &&
           (t_active_level team =? 1))
    with (USE_ITT_BUILD g && __itt_metadata_add_ptr g &&
          (__kmp_forkjoin_frames_mode g =? 3) && negb (th_teams_microtask th) &&
          (t_active_level team =? 1) && (tid =? 0))
    by (destruct (USE_ITT_BUILD g), (tid =? 0), (__itt_metadata_add_ptr g),
          (__kmp_forkjoin_frames_mode g =? 3), (th_teams_microtask th),
          (t_active_level team =? 1); reflexivity).
  destruct (_ && (tid =? 0)); [|reflexivity].
  cbn [when]. rewrite snd_bind, metadata_of_app.
  destruct (sched =? kmp_sch_static E).
  - rewrite !fst_bind, fst_divide, fst_modulo. cbn [ret fst].
    rewrite !snd_bind, snd_divide, snd_modulo. cbn [snd ret app metadata_of flat_map emit].
    rewrite div_tc_n, rem_tc_n by assumption.
    rewrite big_chunk_metadata_code by assumption. reflexivity.
  - destruct (sched =? kmp_sch_static_chunked E).
    + rewrite for_static_chunked_spec by (try assumption; lia).
      cbn [snd fst ret emit metadata_of flat_map app].
      destruct (clamp_chunk_range T chunk Hc) as [Hcr Hc1].
      assert (Ew : cval (conv kmp_uint64 (var (signed_t T) (clamp_chunk chunk)))
                   = clamp_chunk chunk).
      { cbn [conv var cval]. apply wrap_id. unfold in_range in *.
        destruct T; cbn [signed_t mn mx] in *; lia. }
      rewrite Ew. reflexivity.
    + cbn [snd fst ret emit metadata_of flat_map app bind]. reflexivity.
Qed.

Lemma for_static_init_metadata_witness :
  let run := fun tid => __kmpc_for_static_init_4 kmp_h (ex_globals 40) (ex_thread tid 3) 34
                          (ex_loop 0 9) 1 0 in
  metadata_of (snd (run 0)) = [(10, 4)] /\ metadata_of (snd (run 1)) = [].
Proof.
  assert (Hr : forall x, -2147483648 <= x <= 2147483647 -> in_range kmp_int32 x)
    by (intros x Hx; exact Hx).
  cbv zeta. unfold __kmpc_for_static_init_4. split.
  - rewrite (for_static_init_metadata kmp_int32 kmp_h (ex_globals 40) (ex_thread 0 3) 34
               (ex_loop 0 9) 1 0 34 0 (ex_team 3 0)
               (Hr 0 ltac:(lia)) (Hr 9 ltac:(lia)) (Hr 1 ltac:(lia)) (Hr 0 ltac:(lia))
               eq_refl ltac:(vm_compute; congruence)).
    reflexivity.
  - rewrite (for_static_init_metadata kmp_int32 kmp_h (ex_globals 40) (ex_thread 1 3) 34
               (ex_loop 0 9) 1 0 34 1 (ex_team 3 0)
               (Hr 0 ltac:(lia)) (Hr 9 ltac:(lia)) (Hr 1 ltac:(lia)) (Hr 0 ltac:(lia))
               eq_refl ltac:(vm_compute; congruence)).
    reflexivity.
Defined.

Lemma asserts_of_app l1 l2 : asserts_of (l1 ++ l2) = asserts_of l1 ++ asserts_of l2.
Proof. unfold asserts_of. apply flat_map_app. Qed.

Lemma asserts_of_divs l : Forall (fun e => is_div e = true) l -> asserts_of l = [].
Proof.
  induction 1 as [|e l He _ IH]; [reflexivity|].
  destruct e; try discriminate He. exact IH.
Qed.

Lemma for_itt_metadata_no_assert T E g th team sched tid nth tc chunk :
  asserts_of (snd (for_itt_metadata T E g th team sched tid nth tc chunk)) = [].
Proof.
  unfold for_itt_metadata. destruct (_ && _); [|reflexivity].
  cbn [when]. rewrite snd_bind, asserts_of_app.
  destruct (sched =? kmp_sch_static E); reflexivity.
Qed.

(** X6.  A schedule type that is neither [kmp_sch_static] nor
    [kmp_sch_static_chunked] fails the assertion of the [default] case,
    once, and the bounds, the stride and the flag are left as they were;
    this happens only where the schedule is looked at, that is for a loop
    with iterations that more than one thread share.  The known schedule
    types fail no assertion. *)
Theorem unknown_schedule_asserts T E g th schedtype s incr chunk sched tid team :
  in_range T (plower s) -> in_range T (pupper s) -> in_range (signed_t T) incr ->
  for_resolve E th schedtype = (sched, tid, team) ->
  let shared := negb (illegal (plower s) (pupper s) incr)
                && negb (t_serialized team)
                && negb (wrap kmp_uint32 (t_nproc team) =? 1) in
  let unknown := negb (sched =? kmp_sch_static E)
                 && negb (sched =? kmp_sch_static_chunked E) in
  let run := __kmp_for_static_init T E g th schedtype s incr chunk in
  asserts_of (snd run) = (if shared && unknown then [tt] else []) /\
  (shared && unknown = true -> fst run = s).
Proof.
  intros Hl Hu Hi Hr shared unknown run. subst run shared unknown.
  unfold __kmp_for_static_init.
  rewrite fst_bind, snd_bind, asserts_of_app.
  assert (E1 : forall c1 c2, asserts_of (snd (when c1
                 (emit Ev_push_workshare;;;
                  when c2 (emit (Ev_error kmp_i18n_msg_CnsLoopIncrZeroProhibited))))) = []).
  { intros [|] [|]; reflexivity. }
  rewrite E1. cbn [app]. clear E1.
  rewrite zero_trip_illegal by assumption.
  destruct (illegal (plower s) (pupper s) incr);
    [split; [reflexivity | intros H; discriminate H]|].
  rewrite Hr. destruct (t_serialized team);
    [split; [reflexivity | intros H; discriminate H]|].
  rewrite nth_is_1.
  destruct (wrap kmp_uint32 (t_nproc team) =? 1);
    [split; [reflexivity | intros H; discriminate H]|].
  cbn [negb andb].
  rewrite !fst_bind, snd_bind, asserts_of_app.
  rewrite (asserts_of_divs _ (for_trip_count_only_divs T _ _ incr)). cbn [app].
  rewrite snd_bind, asserts_of_app.
  assert (E2 : forall c1 c2, asserts_of (snd (when c1
                 (when c2 (emit (Ev_error kmp_i18n_msg_CnsIterationRangeTooLarge))))) = []).
  { intros [|] [|]; reflexivity. }
  rewrite E2. cbn [app]. clear E2.
  rewrite snd_bind, asserts_of_app.
  rewrite snd_bind, asserts_of_app, for_itt_metadata_no_assert.
  cbn [snd ret asserts_of flat_map app]. rewrite app_nil_r.
  destruct (sched =? kmp_sch_static E).
  { split; [|intros H; discriminate H].
    rewrite snd_bind, asserts_of_app. cbn [snd ret asserts_of flat_map].
    rewrite app_nil_r. apply asserts_of_divs, for_static_only_divs. }
  destruct (sched =? kmp_sch_static_chunked E).
  { split; [|intros H; discriminate H].
    apply asserts_of_divs, for_static_chunked_only_divs. }
  split; [reflexivity|]. intros _. rewrite fst_bind. reflexivity.
Qed.

Lemma unknown_schedule_asserts_witness :
  let run := __kmpc_for_static_init_4 kmp_h (ex_globals 40) (ex_thread 1 3) 35
               (ex_loop 0 9) 1 0 in
  asserts_of (snd run) = [tt] /\ fst run = ex_loop 0 9.
Proof.
  assert (Hr : forall x, -2147483648 <= x <= 2147483647 -> in_range kmp_int32 x)
    by (intros x Hx; exact Hx).
  destruct (unknown_schedule_asserts kmp_int32 kmp_h (ex_globals 40) (ex_thread 1 3) 35
              (ex_loop 0 9) 1 0 35 1 (ex_team 3 0)
              (Hr 0 ltac:(lia)) (Hr 9 ltac:(lia)) (Hr 1 ltac:(lia)) eq_refl) as [H1 H2].
  cbv zeta. split; [exact H1 | exact (H2 eq_refl)].
Defined.

(** ** Extra properties: the shares of the single-level solver *)

Lemma legal_of_illegal lo up incr :
  illegal lo up incr = false -> if incr >? 0 then lo <= up else up <= lo.
Proof. unfold illegal. destruct (incr >? 0); lia. Qed.

(** Fewer iterations than threads (lines 264-275). *)
Lemma for_static_few T E g tid nth tc s incr :
  in_range (unsigned_t T) tc -> 0 <= tid <= 4294967295 -> 0 <= nth <= 4294967295 ->
  tc < nth ->
  fst (for_static T E g tid nth tc s incr) =
  {| plastiter := option_map (fun _ => tid =? wrap (unsigned_t T) (tc - 1)) (plastiter s);
     plower := if tid <? tc then wrap T (plower s + tid * incr)
               else wrap T (pupper s + incr);
     pupper := if tid <? tc then wrap T (plower s + tid * incr) else pupper s;
     pstride := pstride s |}.
Proof.
  intros Htc Ht Hn Hlt. unfold for_static.
  rewrite lt_tc_n by assumption. replace (tc <? nth) with true by lia.
  cbn [ret fst]. rewrite eq_tid_tc_minus_1, lt_tid_tc by assumption.
  destruct s as [pl lo up st]. unfold store_last, set_plower, set_pupper.
  destruct (tid <? tc); cbn [plastiter plower pupper pstride].
  - rewrite conv_var_T, few_lower_code, wrap_wrap by assumption. destruct pl; reflexivity.
  - rewrite past_upper_code. destruct pl; reflexivity.
Qed.

(** The single-level solver on a loop with iterations shared by the
    threads of a team, for [kmp_sch_static]. *)
Lemma for_static_init_static T E g th schedtype s incr chunk tid team :
  in_range T (plower s) -> in_range T (pupper s) -> in_range (signed_t T) incr ->
  illegal (plower s) (pupper s) incr = false ->
  for_resolve E th schedtype = (kmp_sch_static E, tid, team) ->
  t_serialized team = false ->
  wrap kmp_uint32 (t_nproc team) <> 1 ->
  fst (__kmp_for_static_init T E g th schedtype s incr chunk) =
  fst (for_static T E g tid (wrap kmp_uint32 (t_nproc team))
         (tripCount T (plower s) (pupper s) incr) s incr).
Proof.
  intros Hl Hu Hi Hleg Hr Hs Hn.
  rewrite (for_static_init_active T E g th schedtype s incr chunk _ _ _
             ltac:(rewrite zero_trip_illegal by assumption; exact Hleg) Hr Hs Hn).
  cbv zeta. rewrite Z.eqb_refl. reflexivity.
Qed.

(** X7.  With fewer iterations than threads (lines 264-275) each of the
    first [trip_count] threads gets one iteration, the one of its index;
    every other thread gets the upper bound of the loop and, as lower
    bound, the value one increment past it (empty unless that value wraps
    around); the flag goes to the thread of the last iteration and the
    stride is not written. *)
Theorem fewer_iterations_than_threads T E g th schedtype s incr chunk tid team :
  in_range T (plower s) -> in_range T (pupper s) -> in_range (signed_t T) incr ->
  incr <> 0 ->
  illegal (plower s) (pupper s) incr = false ->
  for_span_ok T (plower s) (pupper s) incr ->
  for_resolve E th schedtype = (kmp_sch_static E, tid, team) ->
  t_serialized team = false ->
  let nth := wrap kmp_uint32 (t_nproc team) in
  let tc := tripCount T (plower s) (pupper s) incr in
  tc < nth ->
  let r := fst (__kmp_for_static_init T E g th schedtype s incr chunk) in
  pstride r = pstride s /\
  plastiter r = option_map (fun _ => tid =? tc - 1) (plastiter s) /\
  (if tid <? tc
   then plower r = plower s + tid * incr /\ pupper r = plower r
   else plower r = wrap T (pupper s + incr) /\ pupper r = pupper s /\
        (in_range T (pupper s + incr) ->
         if incr >? 0 then pupper r < plower r else plower r < pupper r)).
Proof.
  intros Hl Hu Hi Hne Hleg Hspan Hr Hs nth tc Hlt r.
  pose proof (legal_of_illegal _ _ _ Hleg) as Hleg'.
  pose proof (tripCount_exact T _ _ incr Hl Hu Hi Hne Hleg' Hspan) as Hex. fold tc in Hex.
  pose proof (ideal_trip_pos _ _ _ Hne Hleg') as Hpos. rewrite <- Hex in Hpos.
  pose proof (tripCount_range T (plower s) (pupper s) incr) as Htr. fold tc in Htr.
  pose proof (for_resolve_tid _ _ _ _ _ _ Hr) as Ht.
  pose proof (wrap_range kmp_uint32 (t_nproc team)) as Hnr. fold nth in Hnr.
  assert (Hn' : 0 <= nth <= 4294967295) by (unfold in_range in Hnr; simpl in Hnr; lia).
  subst r.
  rewrite (for_static_init_static T E g th schedtype s incr chunk tid team)
    by (try assumption; fold nth; lia).
  fold nth tc. rewrite for_static_few by assumption.
  cbn [plastiter plower pupper pstride].
  rewrite (wrap_id (unsigned_t T) (tc - 1))
    by (unfold in_range in *; rewrite mn_unsigned_t in *; lia).
  split; [reflexivity|]. split; [reflexivity|].
  destruct (tid <? tc) eqn:Etid.
  - rewrite (iteration_exact T (plower s) (pupper s)) by (try assumption; rewrite <- Hex; lia).
    split; reflexivity.
  - split; [reflexivity|]. split; [reflexivity|].
    intros Hin. rewrite wrap_id by assumption. destruct (incr >? 0) eqn:Ei; lia.
Qed.

Lemma fewer_iterations_than_threads_witness :
  let run := fun tid => fst (__kmpc_for_static_init_4 kmp_h (ex_globals 41) (ex_thread tid 4) 34
                               (ex_loop 10 12) 1 0) in
  (plower (run 2) = 12 /\ pupper (run 2) = 12 /\ plastiter (run 2) = Some true) /\
  (plower (run 3) = 13 /\ pupper (run 3) = 12 /\ plastiter (run 3) = Some false).
Proof.
  assert (Hr : forall x, -2147483648 <= x <= 2147483647 -> in_range kmp_int32 x)
    by (intros x Hx; exact Hx).
  cbv zeta. unfold __kmpc_for_static_init_4. split.
  - destruct (fewer_iterations_than_threads kmp_int32 kmp_h (ex_globals 41) (ex_thread 2 4) 34
                (ex_loop 10 12) 1 0 2 (ex_team 4 0)
                (Hr 10 ltac:(lia)) (Hr 12 ltac:(lia)) (Hr 1 ltac:(lia)) ltac:(lia) eq_refl
                ltac:(vm_compute; congruence) eq_refl eq_refl ltac:(vm_compute; reflexivity))
      as (_ & Hf & Hb).
    change (2 <? tripCount kmp_int32 (plower (ex_loop 10 12)) (pupper (ex_loop 10 12)) 1)
      with true in Hb.
    destruct Hb as [Hlo Hup]. rewrite Hup, Hlo, Hf. repeat split.
  - destruct (fewer_iterations_than_threads kmp_int32 kmp_h (ex_globals 41) (ex_thread 3 4) 34
                (ex_loop 10 12) 1 0 3 (ex_team 4 0)
                (Hr 10 ltac:(lia)) (Hr 12 ltac:(lia)) (Hr 1 ltac:(lia)) ltac:(lia) eq_refl
                ltac:(vm_compute; congruence) eq_refl eq_refl ltac:(vm_compute; reflexivity))
      as (_ & Hf & Hb).
    change (3 <? tripCount kmp_int32 (plower (ex_loop 10 12)) (pupper (ex_loop 10 12)) 1)
      with false in Hb.
    destruct Hb as (Hlo & Hup & _). rewrite Hup, Hlo, Hf. repeat split.
Defined.

(** The Balanced share of a thread over the integers. *)
Lemma balanced_share_exact T E g tid nth s incr :
  in_range T (plower s) -> in_range T (pupper s) -> in_range (signed_t T) incr ->
  incr <> 0 ->
  (if incr >? 0 then plower s <= pupper s else pupper s <= plower s) ->
  let tc := ideal_trip (plower s) (pupper s) incr in
  in_range (unsigned_t T) tc ->
  1 <= nth <= 4294967295 -> nth <= tc -> 0 <= tid < nth ->
  __kmp_static g = kmp_sch_static_balanced E ->
  let small := tc / nth in
  let extras := tc mod nth in
  let first := tid * small + Z.min tid extras in
  let cnt := small + (if tid <? extras then 1 else 0) in
  let r := fst (for_static T E g tid nth tc s incr) in
  plower r = plower s + first * incr /\
  pupper r = plower s + (first + cnt - 1) * incr /\
  plastiter r = option_map (fun _ => tid =? nth - 1) (plastiter s) /\
  pstride r = pstride s.
Proof.
  intros Hl Hu Hi Hne Hleg tc Htr Hn Hle Ht Hb small extras first cnt r.
  subst r. rewrite for_static_balanced by (try assumption; lia).
  fold small extras. cbn [plastiter plower pupper pstride].
  destruct (shares_fit tc nth tid ltac:(lia) Hle Ht) as (Hf0 & Hc1 & Hfit & _).
  fold small extras first cnt in Hf0, Hc1, Hfit.
  fold first.
  assert (E1 : wrap T (plower s + incr * first) = plower s + first * incr).
  { replace (plower s + incr * first) with (plower s + first * incr) by ring.
    apply (iteration_exact T (plower s) (pupper s)); try assumption. fold tc. lia. }
  rewrite E1.
  assert (E2 : plower s + first * incr + small * incr - (if tid <? extras then 0 else incr)
               = plower s + (first + cnt - 1) * incr).
  { subst cnt. destruct (tid <? extras); ring. }
  rewrite E2.
  rewrite (iteration_exact T (plower s) (pupper s)) by (try assumption; fold tc; lia).
  repeat split; reflexivity.
Qed.

(** X8.  Under the Balanced flavour the shares of the threads tile the
    iterations of the loop: the share of thread 0 starts at the lower
    bound of the loop, the share of each next thread starts one increment
    after the end of the share before it, no share is empty, and the share
    of the last thread ends at the last iteration. *)
Theorem balanced_shares_tile T E g schedtype s incr chunk team (th : Z -> kmp_info) :
  in_range T (plower s) -> in_range T (pupper s) -> in_range (signed_t T) incr ->
  incr <> 0 ->
  illegal (plower s) (pupper s) incr = false ->
  for_span_ok T (plower s) (pupper s) incr ->
  let nth := wrap kmp_uint32 (t_nproc team) in
  (forall tid, 0 <= tid < nth ->
               for_resolve E (th tid) schedtype = (kmp_sch_static E, tid, team)) ->
  t_serialized team = false ->
  __kmp_static g = kmp_sch_static_balanced E ->
  let tc := tripCount T (plower s) (pupper s) incr in
  1 < nth -> nth <= tc ->
  let share := fun tid => fst (__kmp_for_static_init T E g (th tid) schedtype s incr chunk) in
  plower (share 0) = plower s /\
  pupper (share (nth - 1)) = plower s + (tc - 1) * incr /\
  (forall tid, 0 <= tid < nth - 1 ->
     plower (share (tid + 1)) = pupper (share tid) + incr) /\
  (forall tid, 0 <= tid < nth ->
     if incr >? 0 then plower (share tid) <= pupper (share tid)
     else pupper (share tid) <= plower (share tid)).
Proof.
  intros Hl Hu Hi Hne Hleg Hspan nth Hth Hs Hb tc Hn Hle share.
  pose proof (legal_of_illegal _ _ _ Hleg) as Hleg'.
  pose proof (tripCount_exact T _ _ incr Hl Hu Hi Hne Hleg' Hspan) as Hex. fold tc in Hex.
  pose proof (tripCount_range T (plower s) (pupper s) incr) as Htr. fold tc in Htr.
  pose proof (wrap_range kmp_uint32 (t_nproc team)) as Hnr. fold nth in Hnr.
  assert (Hn' : 1 <= nth <= 4294967295) by (unfold in_range in Hnr; simpl in Hnr; lia).
  assert (Hshare : forall tid, 0 <= tid < nth ->
            let first := tid * (tc / nth) + Z.min tid (tc mod nth) in
            let cnt := tc / nth + (if tid <? tc mod nth then 1 else 0) in
            plower (share tid) = plower s + first * incr /\
            pupper (share tid) = plower s + (first + cnt - 1) * incr).
  { intros tid Htid. cbv zeta. subst share. cbv beta.
    rewrite (for_static_init_static T E g (th tid) schedtype s incr chunk tid team)
      by (try assumption; try (apply Hth; assumption); fold nth; lia).
    fold nth tc.
    destruct (balanced_share_exact T E g tid nth s incr Hl Hu Hi Hne Hleg'
                ltac:(rewrite <- Hex; exact Htr) Hn' ltac:(rewrite <- Hex; exact Hle)
                Htid Hb) as (H1 & H2 & _).
    rewrite <- Hex in H1, H2. split; [exact H1 | exact H2]. }
  pose proof (fun tid H => shares_fit tc nth tid ltac:(lia) Hle H) as Hfit.
  cbv zeta in Hfit, Hshare.
  split; [|split; [|split]].
  - destruct (Hshare 0 ltac:(lia)) as [H1 _]. rewrite H1.
    destruct (shares_div tc nth ltac:(lia) Hle) as (_ & He & _).
    rewrite Z.min_l by lia. ring.
  - destruct (Hshare (nth - 1) ltac:(lia)) as [_ H2]. rewrite H2.
    destruct (Hfit (nth - 1) ltac:(lia)) as (_ & _ & _ & _ & Hlast).
    rewrite (Hlast eq_refl). reflexivity.
  - intros tid Htid.
    destruct (Hshare tid ltac:(lia)) as [_ H2].
    destruct (Hshare (tid + 1) ltac:(lia)) as [H1 _].
    destruct (Hfit tid ltac:(lia)) as (_ & _ & _ & Hnext & _).
    rewrite H1, H2, <- Hnext. ring.
  - intros tid Htid.
    destruct (Hshare tid Htid) as [H1 H2].
    destruct (Hfit tid Htid) as (_ & Hc1 & _).
    rewrite H1, H2. destruct (incr >? 0) eqn:Ei; nia.
Qed.

Lemma balanced_shares_tile_witness :
  let share := fun tid => fst (__kmpc_for_static_init_4 kmp_h (ex_globals 41)
                                 (ex_thread tid 3) 34 (ex_loop 0 9) 1 0) in
  plower (share 0) = 0 /\ pupper (share 2) = 9 /\
  plower (share 1) = pupper (share 0) + 1 /\ plower (share 2) = pupper (share 1) + 1.
Proof.
  assert (Hr : forall x, -2147483648 <= x <= 2147483647 -> in_range kmp_int32 x)
    by (intros x Hx; exact Hx).
  assert (Hres : forall tid : Z, 0 <= tid < wrap kmp_uint32 (t_nproc (ex_team 3 0)) ->
            for_resolve kmp_h (ex_thread tid 3) 34 = (kmp_sch_static kmp_h, tid, ex_team 3 0)).
  { intros tid Htid. change (wrap kmp_uint32 (t_nproc (ex_team 3 0))) with 3 in Htid.
    unfold for_resolve.
    change ((var kmp_int32 34 > var kmp_int32 (kmp_ord_upper kmp_h))%cint) with false.
    cbv iota. cbn [ex_thread th_tid th_team].
    rewrite (wrap_id kmp_uint32 tid) by (unfold in_range; simpl; lia). reflexivity. }
  destruct (balanced_shares_tile kmp_int32 kmp_h (ex_globals 41) 34 (ex_loop 0 9) 1 0
              (ex_team 3 0) (fun tid => ex_thread tid 3)
              (Hr 0 ltac:(lia)) (Hr 9 ltac:(lia)) (Hr 1 ltac:(lia)) ltac:(lia) eq_refl
              ltac:(vm_compute; congruence) Hres eq_refl eq_refl
              ltac:(vm_compute; reflexivity) ltac:(vm_compute; congruence))
    as (H0 & Hlast & Hnext & _).
  cbv zeta. unfold __kmpc_for_static_init_4.
  split; [exact H0|]. split; [exact Hlast|].
  split; [exact (Hnext 0 ltac:(vm_compute; split; congruence))
         |exact (Hnext 1 ltac:(vm_compute; split; congruence))].
Defined.

(** X9.  Under [kmp_sch_static] the thread that gets the flag is a thread
    that runs the last iteration of the loop: the value
    [lower + (trip_count - 1) * incr] lies between its bounds. *)
Theorem flagged_thread_runs_last_iteration T E g th schedtype s incr chunk tid team :
  in_range T (plower s) -> in_range T (pupper s) -> in_range (signed_t T) incr ->
  incr <> 0 ->
  illegal (plower s) (pupper s) incr = false ->
  for_span_ok T (plower s) (pupper s) incr ->
  for_resolve E th schedtype = (kmp_sch_static E, tid, team) ->
  t_serialized team = false ->
  let nth := wrap kmp_uint32 (t_nproc team) in
  1 < nth -> tid < nth ->
  let tc := tripCount T (plower s) (pupper s) incr in
  let last := plower s + (tc - 1) * incr in
  let r := fst (__kmp_for_static_init T E g th schedtype s incr chunk) in
  plastiter r = Some true ->
  if incr >? 0 then plower r <= last <= pupper r else pupper r <= last <= plower r.
Proof.
  intros Hl Hu Hi Hne Hleg Hspan Hr Hs nth Hn Htid tc last r Hflag.
  pose proof (legal_of_illegal _ _ _ Hleg) as Hleg'.
  pose proof (tripCount_exact T _ _ incr Hl Hu Hi Hne Hleg' Hspan) as Hex. fold tc in Hex.
  pose proof (ideal_trip_pos _ _ _ Hne Hleg') as Hpos. rewrite <- Hex in Hpos.
  pose proof (tripCount_range T (plower s) (pupper s) incr) as Htr. fold tc in Htr.
  pose proof (for_resolve_tid _ _ _ _ _ _ Hr) as Ht.
  pose proof (wrap_range kmp_uint32 (t_nproc team)) as Hnr. fold nth in Hnr.
  assert (Hn' : 1 <= nth <= 4294967295) by (unfold in_range in Hnr; simpl in Hnr; lia).
  pose proof (ideal_trip_last _ _ _ Hne Hleg') as Hlast. cbv zeta in Hlast.
  rewrite <- Hex in Hlast. fold last in Hlast.
  subst r.
  rewrite (for_static_init_static T E g th schedtype s incr chunk tid team) in *
    by (try assumption; fold nth; lia).
  fold nth tc in Hflag |- *.
  destruct (Z_lt_ge_dec tc nth) as [Hfew|Hmany].
  - (* one iteration each *)
    rewrite for_static_few in * by (try assumption; lia).
    cbn [plastiter plower pupper] in *.
    rewrite (wrap_id (unsigned_t T) (tc - 1)) in Hflag
      by (unfold in_range in *; rewrite mn_unsigned_t in *; lia).
    destruct (plastiter s); [|discriminate Hflag].
    cbn [option_map] in Hflag. assert (Et : tid = tc - 1) by (inversion Hflag; lia).
    replace (tid <? tc) with true by lia.
    rewrite (iteration_exact T (plower s) (pupper s)) by (try assumption; rewrite <- Hex; lia).
    subst last. rewrite Et. destruct (incr >? 0); lia.
  - destruct (Z.eq_dec (__kmp_static g) (kmp_sch_static_balanced E)) as [Hb|Hb].
    + (* Balanced *)
      assert (Hflag' := Hflag).
      rewrite for_static_balanced in Hflag' by (try assumption; lia).
      cbn [plastiter] in Hflag'.
      destruct (plastiter s); [|discriminate Hflag'].
      cbn [option_map] in Hflag'. assert (Et : tid = nth - 1) by (inversion Hflag'; lia).
      destruct (balanced_share_exact T E g tid nth s incr Hl Hu Hi Hne Hleg'
                  ltac:(rewrite <- Hex; exact Htr) Hn' ltac:(rewrite <- Hex; lia)
                  ltac:(lia) Hb) as (H1 & H2 & _).
      rewrite <- Hex in H1, H2. fold tc in H1, H2. rewrite H1, H2.
      destruct (shares_fit tc nth tid ltac:(lia) ltac:(lia) ltac:(lia))
        as (Hf0 & Hc1 & _ & _ & Hl1).
      cbv zeta in Hf0, Hc1, Hl1. specialize (Hl1 Et).
      set (first := tid * (tc / nth) + Z.min tid (tc mod nth)) in *.
      set (cnt := tc / nth + (if tid <? tc mod nth then 1 else 0)) in *.
      subst last. replace (first + cnt - 1) with (tc - 1) by lia.
      destruct (incr >? 0) eqn:Ei; nia.
    + (* Greedy *)
      assert (Hflag' := Hflag).
      rewrite for_static_greedy in Hflag' |- * by (try assumption; lia).
      cbn [plastiter plower pupper] in *.
      destruct (plastiter s); [|discriminate Hflag'].
      cbn [option_map] in Hflag'.
      assert (Etc : tc = ideal_trip (plower s) (pupper s) incr) by exact Hex.
      set (big := big_chunk tc nth) in *.
      assert (Hg : greedy_last T incr (greedy_lower T (plower s) incr big tid)
                     (greedy_upper0 T (plower s) incr big tid) (pupper s) = true)
        by (inversion Hflag'; reflexivity).
      unfold big in Hg. rewrite Etc in Hg.
      rewrite (greedy_share_last T (plower s) (pupper s) incr nth tid) in Hg
        by (try assumption; try lia; rewrite <- Etc; lia).
      rewrite <- Etc in Hg. fold big in Hg.
      apply andb_true_iff in Hg. destruct Hg as [Hg1 Hg2].
      pose proof (greedy_share_lower T (plower s) (pupper s) incr nth tid Hl Hu Hne Hleg'
                    ltac:(lia) ltac:(rewrite <- Etc; lia) ltac:(rewrite <- Etc; lia)
                    ltac:(lia) ltac:(rewrite <- Etc; fold big; lia)) as Elw.
      pose proof (greedy_share_upper T (plower s) (pupper s) incr nth tid Hl Hu Hne Hleg'
                    ltac:(lia) ltac:(rewrite <- Etc; lia) ltac:(rewrite <- Etc; lia)
                    ltac:(lia) ltac:(rewrite <- Etc; fold big; lia)) as [Euw _].
      rewrite <- Etc in Elw, Euw. fold big in Elw, Euw.
      rewrite Euw, Elw. subst last.
      destruct (incr >? 0) eqn:Ei; nia.
Qed.

Lemma flagged_thread_runs_last_iteration_witness :
  let r := fst (__kmpc_for_static_init_4 kmp_h (ex_globals 40) (ex_thread 2 3) 34
                  (ex_loop 0 9) 1 0) in
  plower r <= 9 <= pupper r.
Proof.
  assert (Hr : forall x, -2147483648 <= x <= 2147483647 -> in_range kmp_int32 x)
    by (intros x Hx; exact Hx).
  exact (flagged_thread_runs_last_iteration kmp_int32 kmp_h (ex_globals 40) (ex_thread 2 3) 34
           (ex_loop 0 9) 1 0 2 (ex_team 3 0)
           (Hr 0 ltac:(lia)) (Hr 9 ltac:(lia)) (Hr 1 ltac:(lia)) ltac:(lia) eq_refl
           ltac:(vm_compute; congruence) eq_refl eq_refl
           ltac:(vm_compute; reflexivity) ltac:(vm_compute; reflexivity)
           ltac:(vm_compute; reflexivity)).
Defined.

(** ** Extra properties: the Chunked schedule *)

(** X10.  Under [kmp_sch_static_chunked] the iterations are dealt in
    chunks of [chunk] (raised to 1 when it is less), thread by thread and
    round by round: when the stride and the bounds of the first chunk of a
    thread are computed without overflow, iteration number [j] of the loop
    is run by thread [(j / chunk) % nth], in its chunk
    number [j / chunk / nth], that is [lower_tid + k * stride <= x <=
    upper_tid + k * stride] for a positive increment.  The flag goes to
    the thread that runs the last iteration. *)
Theorem chunked_round_robin T E g th schedtype s incr chunk tid team :
  in_range T (plower s) -> in_range T (pupper s) ->
  in_range (signed_t T) incr -> in_range (signed_t T) chunk ->
  illegal (plower s) (pupper s) incr = false ->
  kmp_sch_static_chunked E <> kmp_sch_static E ->
  for_resolve E th schedtype = (kmp_sch_static_chunked E, tid, team) ->
  t_serialized team = false ->
  let nth := wrap kmp_uint32 (t_nproc team) in
  1 < nth -> tid < nth ->
  let c := clamp_chunk chunk in
  in_range (signed_t T) (c * incr * nth) ->
  in_range T (plower s + c * incr * tid) ->
  in_range T (plower s + c * incr * tid + c * incr - incr) ->
  let tc := tripCount T (plower s) (pupper s) incr in
  let r := fst (__kmp_for_static_init T E g th schedtype s incr chunk) in
  (forall j, 0 <= j -> (j / c) mod nth = tid ->
     let k := j / c / nth in
     let x := plower s + j * incr in
     if incr >? 0
     then plower r + k * pstride r <= x <= pupper r + k * pstride r
     else pupper r + k * pstride r <= x <= plower r + k * pstride r) /\
  (1 <= tc -> plastiter r = option_map (fun _ => ((tc - 1) / c) mod nth =? tid) (plastiter s)).
Proof.
  intros Hl Hu Hi Hc Hleg Hdist Hr Hs nth Hn Htid c Hstr Hlo Hup tc r.
  pose proof (tripCount_range T (plower s) (pupper s) incr) as Htr. fold tc in Htr.
  pose proof (for_resolve_tid _ _ _ _ _ _ Hr) as Ht.
  pose proof (wrap_range kmp_uint32 (t_nproc team)) as Hnr. fold nth in Hnr.
  assert (Hn' : 0 < nth <= 4294967295) by (unfold in_range in Hnr; simpl in Hnr; lia).
  destruct (clamp_chunk_range T chunk Hc) as [Hcr Hc1]. fold c in Hcr, Hc1.
  assert (Er : r = {| plastiter := option_map
                         (fun _ => tid =? (wrap (unsigned_t T) (tc - 1) / c) mod nth)
                         (plastiter s);
                      plower := plower s + c * incr * tid;
                      pupper := plower s + c * incr * tid + c * incr - incr;
                      pstride := c * incr * nth |}).
  { subst r.
    rewrite (for_static_init_active T E g th schedtype s incr chunk _ _ _
               ltac:(rewrite zero_trip_illegal by assumption; exact Hleg) Hr Hs)
      by (fold nth; lia).
    cbv zeta. replace (kmp_sch_static_chunked E =? kmp_sch_static E) with false by lia.
    rewrite Z.eqb_refl. fold nth tc.
    rewrite for_static_chunked_spec by (try assumption; lia).
    cbn [fst]. fold c.
    rewrite (wrap_id T _ Hlo), (wrap_id T _ Hup), (wrap_id (signed_t T) _ Hstr). reflexivity. }
  rewrite Er. cbn [plastiter plower pupper pstride]. split.
  - intros j Hj Hown. cbv zeta.
    pose proof (Z_div_mod_eq_full j c) as Hj1.
    pose proof (Z.mod_pos_bound j c ltac:(lia)) as Hj2.
    pose proof (Z_div_mod_eq_full (j / c) nth) as Hj3.
    rewrite Hown in Hj3.
    set (k := j / c / nth) in *. set (q := j / c) in *. set (m := j mod c) in *.
    assert (Ex : plower s + j * incr
                 = plower s + c * incr * tid + k * (c * incr * nth) + m * incr).
    { rewrite Hj1, Hj3. ring. }
    rewrite Ex. destruct (incr >? 0) eqn:Ei; nia.
  - intros Htc.
    rewrite (wrap_id (unsigned_t T) (tc - 1))
      by (unfold in_range in *; rewrite mn_unsigned_t in *; lia).
    rewrite (Z.eqb_sym tid). reflexivity.
Qed.

Lemma chunked_round_robin_witness :
  let r := fst (__kmpc_for_static_init_4 kmp_h (ex_globals 40) (ex_thread 1 4) 33
                  (ex_loop 0 19) 1 2) in
  plower r + 1 * pstride r <= 0 + 11 * 1 <= pupper r + 1 * pstride r /\
  plastiter r = Some true.
Proof.
  assert (Hr : forall x, -2147483648 <= x <= 2147483647 -> in_range kmp_int32 x)
    by (intros x Hx; exact Hx).
  destruct (chunked_round_robin kmp_int32 kmp_h (ex_globals 40) (ex_thread 1 4) 33
              (ex_loop 0 19) 1 2 1 (ex_team 4 0)
              (Hr 0 ltac:(lia)) (Hr 19 ltac:(lia)) (Hr 1 ltac:(lia)) (Hr 2 ltac:(lia))
              eq_refl ltac:(vm_compute; congruence) eq_refl eq_refl
              ltac:(vm_compute; reflexivity) ltac:(vm_compute; reflexivity)
              ltac:(vm_compute; split; congruence) ltac:(vm_compute; split; congruence)
              ltac:(vm_compute; split; congruence)) as [Hown Hflag].
  split.
  - exact (Hown 11 ltac:(lia) eq_refl).
  - exact (Hflag ltac:(vm_compute; congruence)).
Defined.

(** ** Extra properties: corrected upper bounds *)

Lemma overflow_clamp_within T incr l u0 up :
  if incr >? 0 then overflow_clamp T incr l u0 up <= up
  else up <= overflow_clamp T incr l u0 up.
Proof.
  unfold overflow_clamp. destruct (incr >? 0).
  - destruct (u0 <? l); [destruct (mx T >? up) eqn:E | destruct (u0 >? up) eqn:E]; lia.
  - destruct (u0 >? l); [destruct (mn T <? up) eqn:E | destruct (u0 <? up) eqn:E]; lia.
Qed.

(** X11.  The chunk the team solver gives a team never goes past the
    upper bound of the loop, whatever the chunk size and the number of
    teams, also when [lower + chunk * incr * team_id] or the end of the
    chunk wraps around; when the start of the chunk does not wrap, a chunk
    that is not empty lies inside the loop. *)
Theorem team_chunk_within_loop T g th s incr chunk :
  in_range T (plower s) -> in_range T (pupper s) ->
  in_range (signed_t T) incr -> in_range (signed_t T) chunk ->
  let nteams := wrap kmp_uint32 (th_teams_size_nteams th) in
  let team_id := wrap kmp_uint32 (t_master_tid (th_team th)) in
  0 < nteams ->
  let r := fst (__kmp_team_static_init T g th s incr chunk) in
  (if incr >? 0 then pupper r <= pupper s else pupper s <= pupper r) /\
  (incr <> 0 ->
   in_range T (plower s + clamp_chunk chunk * incr * team_id) ->
   if incr >? 0 then plower s <= plower r else plower r <= plower s).
Proof.
  intros Hl Hu Hi Hc nteams team_id Hn r. subst r.
  rewrite team_static_spec by assumption. fold nteams team_id.
  cbn [plower pupper]. split; [apply overflow_clamp_within|].
  intros Hne Hin. rewrite wrap_id by assumption.
  pose proof (wrap_range kmp_uint32 (t_master_tid (th_team th))) as Htr. fold team_id in Htr.
  destruct (clamp_chunk_range T chunk Hc) as [_ Hc1].
  unfold in_range in Htr. simpl in Htr.
  destruct (incr >? 0) eqn:Ei; nia.
Qed.

Lemma team_chunk_within_loop_witness :
  let r := fst (__kmpc_team_static_init_4 (ex_globals 40) (ex_team_thread 2 4 0 2)
                  (ex_loop 0 9) 1 4) in
  pupper r <= 9 /\ 0 <= plower r.
Proof.
  assert (Hr : forall x, -2147483648 <= x <= 2147483647 -> in_range kmp_int32 x)
    by (intros x Hx; exact Hx).
  destruct (team_chunk_within_loop kmp_int32 (ex_globals 40) (ex_team_thread 2 4 0 2)
              (ex_loop 0 9) 1 4
              (Hr 0 ltac:(lia)) (Hr 9 ltac:(lia)) (Hr 1 ltac:(lia)) (Hr 4 ltac:(lia))
              ltac:(vm_compute; reflexivity)) as [H1 H2].
  split; [exact H1|].
  exact (H2 ltac:(lia) ltac:(vm_compute; split; congruence)).
Defined.




(** ** Extra properties: distribute constructs and the two levels *)

Lemma bind_ext {A B : Type} (m : M A) (k1 k2 : A -> M B) :
  k1 (fst m) = k2 (fst m) -> bind m k1 = bind m k2.
Proof. unfold bind. intros ->. reflexivity. Qed.

Lemma for_itt_metadata_thread T E g th1 th2 team sched tid nth tc chunk :
  th_teams_microtask th1 = th_teams_microtask th2 ->
  for_itt_metadata T E g th1 team sched tid nth tc chunk
  = for_itt_metadata T E g th2 team sched tid nth tc chunk.
Proof. intros H. unfold for_itt_metadata. rewrite H. reflexivity. Qed.

(** X13.  A schedule type above [kmp_ord_upper] is that of a distribute
    construct: the loop is shared by the master threads of the teams, and
    the call does what the call with the converted schedule type
    [schedtype + kmp_sch_static - kmp_distribute_static] does for the
    master of the team as a thread of the parent team. *)
Theorem distribute_runs_among_teams T E g th schedtype s incr chunk :
  in_range kmp_int32 schedtype -> in_range kmp_int32 (kmp_ord_upper E) ->
  kmp_ord_upper E < schedtype ->
  let sched := wrap kmp_int32 (schedtype + (kmp_sch_static E - kmp_distribute_static E)) in
  sched <= kmp_ord_upper E ->
  __kmp_for_static_init T E g th schedtype s incr chunk
  = __kmp_for_static_init T E g (as_team_master th) sched s incr chunk.
Proof.
  intros Hs Ho Hgt sched Hle.
  assert (R1 : for_resolve E th schedtype
               = (sched, wrap kmp_uint32 (t_master_tid (th_team th)), th_team_parent th)).
  { unfold for_resolve. rewrite gt_T by assumption.
    replace (schedtype >? kmp_ord_upper E) with true by lia.
    f_equal. f_equal. subst sched. kinds. wrap_eq. }
  assert (R2 : for_resolve E (as_team_master th) sched
               = (sched, wrap kmp_uint32 (t_master_tid (th_team th)), th_team_parent th)).
  { unfold for_resolve. rewrite gt_T by (try assumption; apply wrap_range).
    replace (sched >? kmp_ord_upper E) with false by lia. reflexivity. }
  unfold __kmp_for_static_init. rewrite R1, R2.
  apply bind_ext.
  destruct (zero_trip T (plower s) (pupper s) incr); [reflexivity|].
  destruct (t_serialized (th_team_parent th)); [reflexivity|].
  destruct (_ == _)%cint; [reflexivity|].
  apply bind_ext. apply bind_ext. apply bind_ext.
  rewrite (for_itt_metadata_thread T E g th (as_team_master th)) by reflexivity.
  reflexivity.
Qed.

Lemma distribute_runs_among_teams_witness :
  __kmpc_for_static_init_4 kmp_h (ex_globals 40) (ex_team_thread 1 2 0 4) 92
    (ex_loop 0 9) 1 0
  = __kmpc_for_static_init_4 kmp_h (ex_globals 40) (as_team_master (ex_team_thread 1 2 0 4)) 34
      (ex_loop 0 9) 1 0.
Proof.
  exact (distribute_runs_among_teams kmp_int32 kmp_h (ex_globals 40) (ex_team_thread 1 2 0 4)
           92 (ex_loop 0 9) 1 0
           ltac:(vm_compute; split; congruence) ltac:(vm_compute; split; congruence)
           ltac:(vm_compute; reflexivity) ltac:(vm_compute; congruence)).
Defined.



(** The team-level part computes the share the single-level solver gives
    thread [team_id] of [nteams]. *)
Lemma dist_team_as_for_static T E g tid team_id nteams s incr :
  in_range T (d_plower s) -> in_range T (d_pupper s) -> in_range (signed_t T) incr ->
  0 <= team_id <= 4294967295 -> 1 <= nteams <= 4294967295 ->
  let tc := tripCountD T (d_plower s) (d_pupper s) incr in
  nteams < tc ->
  let a := fst (for_static T E g team_id nteams tc
                  (chunk_loop (d_plastiter s) (d_plower s) (d_pupper s) (d_pstride s)) incr) in
  illegal (plower a) (pupper a) incr = false ->
  fst (dist_team_chunk T E g tid team_id nteams s incr) =
  ({| d_plastiter := plastiter a; d_plower := plower a; d_pupper := d_pupper s;
      d_pupperDist := pupper a;
      d_pstride := wrap (signed_t T) (d_pupper s - d_plower s) |}, true).
Proof.
  intros Hl Hu Hi Hm Hn tc Hlt a Hne.
  pose proof (tripCountD_range T 448 (d_plower s) (d_pupper s) incr) as Htr.
  fold (tripCountD T (d_plower s) (d_pupper s) incr) in Htr. fold tc in Htr.
  destruct (Z.eq_dec (__kmp_static g) (kmp_sch_static_balanced E)) as [Hb|Hb].
  - subst a. rewrite for_static_balanced in * by (try assumption; lia).
    rewrite dist_team_balanced by (try assumption; lia).
    fold tc. reflexivity.
  - subst a. rewrite for_static_greedy in * by (try assumption; lia).
    rewrite dist_team_greedy by (try assumption; lia).
    fold tc. cbn [plastiter plower pupper chunk_loop] in *.
    set (l := greedy_lower T (d_plower s) incr (big_chunk tc nteams) team_id) in *.
    set (uD := overflow_clamp T incr l _ (d_pupper s)) in *.
    unfold illegal in Hne.
    destruct (incr >? 0).
    + replace (l >? uD) with false by lia. reflexivity.
    + replace (l <? uD) with false by lia. reflexivity.
Qed.

(** The thread-level part computes the share the single-level solver
    gives thread [tid] of [nth] on the chunk of the team, and keeps the
    flag only where the team has it. *)
Lemma dist_thread_as_for_static T E g tid nth schedule sd incr chunk :
  in_range T (d_plower sd) -> in_range T (d_pupperDist sd) ->
  in_range (signed_t T) incr -> in_range (signed_t T) chunk ->
  0 <= tid <= 4294967295 -> 1 <= nth <= 4294967295 ->
  let tc := tripCountD T (d_plower sd) (d_pupperDist sd) incr in
  let sB := chunk_loop (d_plastiter sd) (d_plower sd) (d_pupperDist sd) (d_pstride sd) in
  (schedule = kmp_sch_static E /\ nth < tc) \/
  (schedule = kmp_sch_static_chunked E /\ kmp_sch_static_chunked E <> kmp_sch_static E) ->
  let b := if schedule =? kmp_sch_static E
           then fst (for_static T E g tid nth tc sB incr)
           else fst (fst (for_static_chunked T tid nth tc sB incr chunk)) in
  let d := fst (dist_thread_chunk T E g tid nth schedule sd incr chunk) in
  d_plower d = plower b /\ d_pupper d = pupper b /\ d_pupperDist d = d_pupperDist sd /\
  d_plastiter d = match d_plastiter sd, plastiter b with
                  | Some x, Some y => Some (x && y)
                  | _, _ => None
                  end.
Proof.
  intros Hl Hu Hi Hc Ht Hn tc sB Hsched b d.
  pose proof (tripCountD_range T 448 (d_plower sd) (d_pupperDist sd) incr) as Htr.
  fold (tripCountD T (d_plower sd) (d_pupperDist sd) incr) in Htr. fold tc in Htr.
  subst d. unfold dist_thread_chunk. rewrite fst_bind, dist_trip_count_line. fold tc.
  destruct Hsched as [[-> Hlt] | [-> Hdist]].
  - subst b. rewrite Z.eqb_refl.
    destruct (Z.eq_dec (__kmp_static g) (kmp_sch_static_balanced E)) as [Hb|Hb].
    + rewrite dist_static_balanced by (try assumption; lia).
      rewrite for_static_balanced by (try assumption; lia).
      cbn [plastiter plower pupper chunk_loop sB d_plastiter d_plower d_pupper d_pupperDist].
      repeat split. destruct (d_plastiter sd); reflexivity.
    + rewrite dist_static_greedy by (try assumption; lia).
      rewrite for_static_greedy by (try assumption; lia).
      cbn [plastiter plower pupper chunk_loop sB d_plastiter d_plower d_pupper d_pupperDist].
      repeat split. destruct (d_plastiter sd); reflexivity.
  - subst b. replace (kmp_sch_static_chunked E =? kmp_sch_static E) with false by lia.
    rewrite Z.eqb_refl.
    rewrite dist_static_chunked_spec by (try assumption; lia).
    rewrite for_static_chunked_spec by (try assumption; lia).
    cbn [fst plastiter plower pupper chunk_loop sB d_plastiter d_plower d_pupper d_pupperDist].
    repeat split. destruct (d_plastiter sd); reflexivity.
Qed.

(** X15.  The two-level solver is the single-level solver applied twice:
    first to the loop, for team [team_id] of [nteams] under
    [kmp_sch_static], then to the chunk of the team, for thread [tid] of
    [nth] under the schedule of the call.  This holds when there is more
    than one team and more than one thread in a team (with a single
    executor the single-level solver leaves the loop whole, the two-level
    solver does not), both levels have more iterations than executors (or
    the schedule is Chunked at the thread level), the chunk of the team
    has iterations, and the two solvers count the same iterations; the
    flag is the conjunction of the flags of the two applications. *)
Theorem two_levels_compose T E g th schedule s incr chunk thA schedA teamA thB schedB teamB :
  in_range T (d_plower s) -> in_range T (d_pupper s) ->
  in_range (signed_t T) incr -> in_range (signed_t T) chunk ->
  let tid := wrap kmp_uint32 (th_tid th) in
  let nth := wrap kmp_uint32 (th_team_nproc th) in
  let nteams := wrap kmp_uint32 (th_teams_size_nteams th) in
  let team_id := wrap kmp_uint32 (t_master_tid (th_team th)) in
  1 < nteams -> 1 < nth ->
  for_resolve E thA schedA = (kmp_sch_static E, team_id, teamA) ->
  t_serialized teamA = false -> wrap kmp_uint32 (t_nproc teamA) = nteams ->
  for_resolve E thB schedB = (schedule, tid, teamB) ->
  t_serialized teamB = false -> wrap kmp_uint32 (t_nproc teamB) = nth ->
  illegal (d_plower s) (d_pupper s) incr = false ->
  tripCountD T (d_plower s) (d_pupper s) incr = tripCount T (d_plower s) (d_pupper s) incr ->
  nteams < tripCount T (d_plower s) (d_pupper s) incr ->
  let a := fst (__kmp_for_static_init T E g thA schedA
                  (chunk_loop (d_plastiter s) (d_plower s) (d_pupper s) (d_pstride s))
                  incr chunk) in
  illegal (plower a) (pupper a) incr = false ->
  tripCountD T (plower a) (pupper a) incr = tripCount T (plower a) (pupper a) incr ->
  (schedule = kmp_sch_static E /\ nth < tripCount T (plower a) (pupper a) incr) \/
  (schedule = kmp_sch_static_chunked E /\ kmp_sch_static_chunked E <> kmp_sch_static E) ->
  let b := fst (__kmp_for_static_init T E g thB schedB
                  (chunk_loop (plastiter a) (plower a) (pupper a)
                     (wrap (signed_t T) (d_pupper s - d_plower s)))
                  incr chunk) in
  let d := fst (__kmp_dist_for_static_init T E g th schedule s incr chunk) in
  d_plower d = plower b /\ d_pupper d = pupper b /\ d_pupperDist d = pupper a /\
  d_plastiter d = match plastiter a, plastiter b with
                  | Some x, Some y => Some (x && y)
                  | _, _ => None
                  end.
Proof.
  intros Hl Hu Hi Hc tid nth nteams team_id Hnt Hn HrA HsA HnA HrB HsB HnB
         Hleg Htc Hlt a Hlega Htca Hsched b d.
  assert (Hw : forall x, 0 <= wrap kmp_uint32 x <= 4294967295)
    by (intros x; apply (wrap_range kmp_uint32)).
  assert (Hnt' : 1 <= nteams <= 4294967295) by (split; [lia | apply Hw]).
  assert (Hn' : 1 <= nth <= 4294967295) by (split; [lia | apply Hw]).
  set (sA := chunk_loop (d_plastiter s) (d_plower s) (d_pupper s) (d_pstride s)) in *.
  assert (Ea : a = fst (for_static T E g team_id nteams
                          (tripCountD T (d_plower s) (d_pupper s) incr) sA incr)).
  { subst a.
    rewrite (for_static_init_static T E g thA schedA sA incr chunk team_id teamA)
      by (try assumption; rewrite HnA; lia).
    rewrite HnA, Htc. reflexivity. }
  assert (Er : fst (dist_team_chunk T E g tid team_id nteams s incr) =
               ({| d_plastiter := plastiter a; d_plower := plower a; d_pupper := d_pupper s;
                   d_pupperDist := pupper a;
                   d_pstride := wrap (signed_t T) (d_pupper s - d_plower s) |}, true)).
  { rewrite Ea. apply dist_team_as_for_static; try assumption; try apply Hw.
    - rewrite Htc. exact Hlt.
    - fold sA. rewrite <- Ea. exact Hlega. }
  assert (Hra : in_range T (plower a) /\ in_range T (pupper a)).
  { rewrite Ea.
    destruct (Z.eq_dec (__kmp_static g) (kmp_sch_static_balanced E)) as [Hb|Hb].
    - rewrite for_static_balanced
        by (try assumption; try apply Hw; try apply tripCountD_range; rewrite ?Htc; lia).
      cbn [plower pupper]. split; apply wrap_range.
    - rewrite for_static_greedy
        by (try assumption; try apply Hw; try apply tripCountD_range; rewrite ?Htc; lia).
      cbn [plower pupper]. split; [apply wrap_range|].
      apply overflow_clamp_range; [apply wrap_range | assumption]. }
  destruct Hra as [Hla Hua].
  set (sd := {| d_plastiter := plastiter a; d_plower := plower a; d_pupper := d_pupper s;
                d_pupperDist := pupper a;
                d_pstride := wrap (signed_t T) (d_pupper s - d_plower s) |}) in *.
  pose proof (dist_thread_as_for_static T E g tid nth schedule sd incr chunk
                Hla Hua Hi Hc (Hw _) Hn') as Hthread.
  cbv zeta in Hthread. cbn [sd d_plastiter d_plower d_pupperDist d_pstride] in Hthread.
  specialize (Hthread ltac:(rewrite Htca; exact Hsched)).
  assert (Eb : b = if schedule =? kmp_sch_static E
                   then fst (for_static T E g tid nth (tripCountD T (plower a) (pupper a) incr)
                               (chunk_loop (plastiter a) (plower a) (pupper a)
                                  (wrap (signed_t T) (d_pupper s - d_plower s))) incr)
                   else fst (fst (for_static_chunked T tid nth
                                    (tripCountD T (plower a) (pupper a) incr)
                                    (chunk_loop (plastiter a) (plower a) (pupper a)
                                       (wrap (signed_t T) (d_pupper s - d_plower s)))
                                    incr chunk))).
  { subst b.
    rewrite (for_static_init_active T E g thB schedB _ incr chunk schedule tid teamB)
      by first [ assumption
               | rewrite zero_trip_illegal by assumption; exact Hlega
               | rewrite HnB; lia ].
    cbv zeta. rewrite HnB. cbn [chunk_loop plower pupper]. rewrite <- Htca.
    destruct Hsched as [[-> _] | [-> Hd]].
    - rewrite Z.eqb_refl. reflexivity.
    - replace (kmp_sch_static_chunked E =? kmp_sch_static E) with false by lia.
      rewrite Z.eqb_refl. reflexivity. }
  subst d. rewrite dist_for_static_init_fst. cbv zeta.
  fold tid nth nteams team_id. rewrite Er. cbn [fst snd]. fold sd.
  rewrite Eb. exact Hthread.
Qed.

Lemma two_levels_compose_witness :
  let d := fst (__kmpc_dist_for_static_init_4 kmp_h (ex_globals 41)
                  (ex_team_thread 1 2 1 2) 34 (ex_dist_loop 0 9) 1 0) in
  d_plower d = 8 /\ d_pupper d = 9 /\ d_pupperDist d = 9 /\ d_plastiter d = Some true.
Proof.
  assert (Hr : forall x, -2147483648 <= x <= 2147483647 -> in_range kmp_int32 x)
    by (intros x Hx; exact Hx).
  destruct (two_levels_compose kmp_int32 kmp_h (ex_globals 41) (ex_team_thread 1 2 1 2) 34
              (ex_dist_loop 0 9) 1 0
              (ex_thread 1 2) 34 (ex_team 2 0) (ex_thread 1 2) 34 (ex_team 2 0)
              (Hr 0 ltac:(lia)) (Hr 9 ltac:(lia)) (Hr 1 ltac:(lia)) (Hr 0 ltac:(lia))
              ltac:(vm_compute; reflexivity) ltac:(vm_compute; reflexivity)
              ltac:(vm_compute; reflexivity) eq_refl ltac:(vm_compute; reflexivity)
              ltac:(vm_compute; reflexivity) eq_refl ltac:(vm_compute; reflexivity)
              eq_refl ltac:(vm_compute; reflexivity) ltac:(vm_compute; reflexivity)
              ltac:(vm_compute; reflexivity) ltac:(vm_compute; reflexivity)
              ltac:(left; split; [reflexivity | vm_compute; reflexivity]))
    as (H1 & H2 & H3 & H4).
  cbv zeta. unfold __kmpc_dist_for_static_init_4.
  rewrite H1, H2, H3, H4. vm_compute. repeat split.
Defined.

(** ** Extra properties: shares without iterations *)

Lemma greedy_last_not_idle T incr l u0 up :
  in_range T l ->
  greedy_last T incr l u0 up = true ->
  if incr >? 0 then l <= overflow_clamp T incr l u0 up
  else overflow_clamp T incr l u0 up <= l.
Proof.
  intros Hl. unfold greedy_last, overflow_clamp. unfold in_range in Hl.
  destruct (incr >? 0); intros H; apply andb_true_iff in H; destruct H as [H1 H2].
  - destruct (u0 <? l) eqn:E0; [destruct (mx T >? up) eqn:E | destruct (u0 >? up) eqn:E]; lia.
  - destruct (u0 >? l) eqn:E0; [destruct (mn T <? up) eqn:E | destruct (u0 <? up) eqn:E]; lia.
Qed.

(** X16.  Under the Greedy flavour the flag never goes to a share without
    iterations, whatever the bounds and whether or not anything wraps
    around: in the single-level solver a thread whose range is empty does
    not get the flag; in the two-level solver a team whose chunk is empty
    after the corrections skips the thread-level part, and each of its
    threads returns that empty range and the flag off. *)
Theorem idle_share_has_no_flag T E g incr chunk :
  in_range (signed_t T) incr ->
  __kmp_static g <> kmp_sch_static_balanced E ->
  (forall th schedtype s tid team,
     in_range T (plower s) -> in_range T (pupper s) ->
     illegal (plower s) (pupper s) incr = false ->
     for_resolve E th schedtype = (kmp_sch_static E, tid, team) ->
     t_serialized team = false ->
     1 < wrap kmp_uint32 (t_nproc team) ->
     wrap kmp_uint32 (t_nproc team) <= tripCount T (plower s) (pupper s) incr ->
     let r := fst (__kmp_for_static_init T E g th schedtype s incr chunk) in
     (if incr >? 0 then pupper r < plower r else plower r < pupper r) ->
     plastiter r = option_map (fun _ => false) (plastiter s))
  /\
  (forall th schedule s,
     in_range T (d_pupper s) ->
     let tid := wrap kmp_uint32 (th_tid th) in
     let nteams := wrap kmp_uint32 (th_teams_size_nteams th) in
     let team_id := wrap kmp_uint32 (t_master_tid (th_team th)) in
     1 <= nteams ->
     nteams < tripCountD T (d_plower s) (d_pupper s) incr ->
     snd (fst (dist_team_chunk T E g tid team_id nteams s incr)) = false ->
     let r := fst (__kmp_dist_for_static_init T E g th schedule s incr chunk) in
     d_plastiter r = option_map (fun _ => false) (d_plastiter s) /\
     d_pupper r = d_pupperDist r /\
     (if incr >? 0 then d_pupper r < d_plower r else d_plower r < d_pupper r)).
Proof.
  intros Hi Hb. split.
  - intros th schedtype s tid team Hl Hu Hleg Hr Hs Hn Hle r. subst r.
    rewrite (for_static_init_greedy T E g th schedtype s incr chunk tid team)
      by (try assumption; rewrite zero_trip_illegal by assumption; exact Hleg).
    cbn [plastiter plower pupper]. intros Hempty.
    set (l := greedy_lower T (plower s) incr _ tid) in *.
    set (u0 := greedy_upper0 T (plower s) incr _ tid) in *.
    destruct (greedy_last T incr l u0 (pupper s)) eqn:Eg; [|reflexivity].
    pose proof (greedy_last_not_idle T incr l u0 (pupper s) ltac:(apply wrap_range) Eg) as H.
    destruct (incr >? 0); lia.
  - intros th schedule s Hu tid nteams team_id Hn Hlt Hidle r. subst r.
    assert (Hw : forall x, 0 <= wrap kmp_uint32 x <= 4294967295)
      by (intros x; apply (wrap_range kmp_uint32)).
    rewrite dist_for_static_init_fst. cbv zeta. fold tid nteams team_id.
    rewrite Hidle.
    rewrite dist_team_greedy in Hidle |- *
      by first [assumption | apply Hw | split; [assumption | apply Hw]].
    cbn [fst snd d_plastiter d_plower d_pupper d_pupperDist] in *.
    set (l := greedy_lower T (d_plower s) incr _ team_id) in *.
    set (u0 := greedy_upper0 T (d_plower s) incr _ team_id) in *.
    apply negb_false_iff in Hidle. rewrite Hidle.
    split; [|split; [reflexivity|]].
    + destruct (greedy_last T incr l u0 (d_pupper s)) eqn:Eg; [|reflexivity].
      pose proof (greedy_last_not_idle T incr l u0 (d_pupper s) ltac:(apply wrap_range) Eg) as H.
      destruct (incr >? 0); lia.
    + destruct (incr >? 0); lia.
Qed.

Lemma idle_share_has_no_flag_witness :
  plastiter (fst (__kmpc_for_static_init_4 kmp_h (ex_globals 40) (ex_thread 3 4) 34
                    (ex_loop 0 4) 1 0)) = Some false /\
  let r := fst (__kmpc_dist_for_static_init_4 kmp_h (ex_globals 40)
                  (ex_team_thread 3 4 1 2) 34 (ex_dist_loop 0 4) 1 0) in
  d_plastiter r = Some false /\ d_pupper r < d_plower r.
Proof.
  assert (Hr : forall x, -2147483648 <= x <= 2147483647 -> in_range kmp_int32 x)
    by (intros x Hx; exact Hx).
  destruct (idle_share_has_no_flag kmp_int32 kmp_h (ex_globals 40) 1 0
              (Hr 1 ltac:(lia)) ltac:(vm_compute; congruence)) as [H1 H2].
  split.
  - exact (H1 (ex_thread 3 4) 34 (ex_loop 0 4) 3 (ex_team 4 0)
             (Hr 0 ltac:(lia)) (Hr 4 ltac:(lia)) eq_refl eq_refl eq_refl
             ltac:(vm_compute; reflexivity) ltac:(vm_compute; congruence)
             ltac:(vm_compute; reflexivity)).
  - destruct (H2 (ex_team_thread 3 4 1 2) 34 (ex_dist_loop 0 4) (Hr 4 ltac:(lia))
                ltac:(vm_compute; congruence) ltac:(vm_compute; reflexivity)
                ltac:(vm_compute; reflexivity)) as (Hf & _ & He).
    cbv zeta. split; [exact Hf | exact He].
Defined.

(** ** Extra properties: loops that count down *)

Lemma overflow_clamp_mirrored T incr l u0 up :
  incr <> 0 ->
  overflow_clamp T (- incr) (mirror T l) (mirror T u0) (mirror T up)
  = mirror T (overflow_clamp T incr l u0 up).
Proof.
  intros Hne. destruct (Z_lt_ge_dec incr 0) as [Hneg|Hpos].
  - rewrite (overflow_clamp_mirror T incr l u0 up Hneg), mirror_involutive. reflexivity.
  - rewrite (overflow_clamp_mirror T (- incr) _ _ _ ltac:(lia)).
    rewrite Z.opp_involutive, !mirror_involutive. reflexivity.
Qed.

Lemma greedy_last_mirrored T incr l u0 up :
  incr <> 0 ->
  greedy_last T (- incr) (mirror T l) (mirror T u0) (mirror T up)
  = greedy_last T incr l u0 up.
Proof.
  intros Hne. destruct (Z_lt_ge_dec incr 0) as [Hneg|Hpos].
  - rewrite (greedy_last_mirror T incr l u0 up Hneg). reflexivity.
  - rewrite (greedy_last_mirror T (- incr) _ _ _ ltac:(lia)).
    rewrite Z.opp_involutive, !mirror_involutive. reflexivity.
Qed.

Lemma greedy_lower_mirrored T lo incr big i :
  greedy_lower T (mirror T lo) (- incr) big i = mirror T (greedy_lower T lo incr big i).
Proof. rewrite (greedy_lower_mirror T lo incr big i), mirror_involutive. reflexivity. Qed.

Lemma greedy_upper0_mirrored T lo incr big i :
  greedy_upper0 T (mirror T lo) (- incr) big i = mirror T (greedy_upper0 T lo incr big i).
Proof. rewrite (greedy_upper0_mirror T lo incr big i), mirror_involutive. reflexivity. Qed.

Lemma wrap_of_mirror T x y : x = mirror T y -> wrap T x = mirror T (wrap T y).
Proof. intros ->. apply wrap_mirror. Qed.

Lemma zero_trip_mirror T lo up incr :
  in_range T lo -> in_range T up ->
  in_range (signed_t T) incr -> in_range (signed_t T) (- incr) -> incr <> 0 ->
  zero_trip T (mirror T lo) (mirror T up) (- incr) = zero_trip T lo up incr.
Proof.
  intros Hl Hu Hi Hi' Hne.
  rewrite !zero_trip_spec by (try assumption; apply mirror_range; assumption).
  unfold mirror. destruct (incr >? 0) eqn:E.
  - replace (- incr >? 0) with false by lia. lia.
  - replace (- incr >? 0) with true by lia. lia.
Qed.

Lemma tripCount_mirror T lo up incr :
  in_range T lo -> in_range T up ->
  in_range (signed_t T) incr -> in_range (signed_t T) (- incr) -> incr <> 0 ->
  tripCount T (mirror T lo) (mirror T up) (- incr) = tripCount T lo up incr.
Proof.
  intros Hl Hu Hi Hi' Hne.
  rewrite !tripCount_spec by (try assumption; apply mirror_range; assumption).
  assert (Hst : forall x, in_range (signed_t T) x -> 1 < x -> wrap T x = x).
  { intros x Hx H1. apply wrap_id. unfold in_range in *.
    destruct T; cbn [mn mx signed_t] in *; lia. }
  assert (E1 : mirror T up - mirror T lo = lo - up) by (unfold mirror; ring).
  assert (E2 : mirror T lo - mirror T up = up - lo) by (unfold mirror; ring).
  rewrite E1, E2, Z.opp_involutive.
  destruct (incr =? 1) eqn:A1.
  { assert (incr = 1) as -> by lia. reflexivity. }
  destruct (incr =? -1) eqn:A2.
  { assert (incr = -1) as -> by lia. reflexivity. }
  replace (- incr =? 1) with false by lia. replace (- incr =? -1) with false by lia.
  destruct (incr >? 1) eqn:A3.
  - replace (- incr >? 1) with false by lia. rewrite (Hst incr) by (try assumption; lia).
    reflexivity.
  - replace (- incr >? 1) with true by lia. rewrite (Hst (- incr)) by (try assumption; lia).
    reflexivity.
Qed.

Lemma serial_stride_mirror T lo up incr :
  in_range T lo -> in_range T up ->
  in_range (signed_t T) incr -> in_range (signed_t T) (- incr) -> incr <> 0 ->
  cval (conv (signed_t T) (for_serial_stride T (mirror T lo) (mirror T up) (- incr)))
  = wrap (signed_t T) (- cval (conv (signed_t T) (for_serial_stride T lo up incr))).
Proof.
  intros Hl Hu Hi Hi' Hne.
  rewrite !for_serial_stride_spec by (try assumption; apply mirror_range; assumption).
  assert (E1 : mirror T up - mirror T lo = lo - up) by (unfold mirror; ring).
  assert (E2 : mirror T lo - mirror T up = up - lo) by (unfold mirror; ring).
  rewrite E1, E2.
  destruct (incr >? 0) eqn:E.
  - replace (- incr >? 0) with false by lia. unfold wrap. symmetry.
    eapply wrapw_by_eqm; [eqm_erase | eqm_erase | reflexivity].
  - replace (- incr >? 0) with true by lia. unfold wrap. symmetry.
    eapply wrapw_by_eqm; [eqm_erase | eqm_erase | ring].
Qed.

Lemma for_static_mirror T E g tid nth tc s incr :
  in_range T (plower s) -> in_range T (pupper s) ->
  in_range (signed_t T) incr -> in_range (signed_t T) (- incr) -> incr <> 0 ->
  in_range (unsigned_t T) tc -> 0 <= tid <= 4294967295 -> 1 <= nth <= 4294967295 ->
  fst (for_static T E g tid nth tc (mirror_loop T s) (- incr))
  = mirror_loop T (fst (for_static T E g tid nth tc s incr)).
Proof.
  intros Hl Hu Hi Hi' Hne Htc Ht Hn.
  pose proof (mirror_range T _ Hl) as Hl'. pose proof (mirror_range T _ Hu) as Hu'.
  destruct (Z_lt_ge_dec tc nth) as [Hfew|Hmany].
  - rewrite !for_static_few by (try assumption; lia).
    unfold mirror_loop. cbn [plastiter plower pupper pstride].
    destruct (tid <? tc); f_equal;
      try (apply wrap_of_mirror; unfold mirror; ring); reflexivity.
  - destruct (Z.eq_dec (__kmp_static g) (kmp_sch_static_balanced E)) as [Hb|Hb].
    + rewrite !for_static_balanced by (try assumption; lia).
      unfold mirror_loop. cbn [plastiter plower pupper pstride].
      assert (El : wrap T (mirror T (plower s)
                           + - incr * (tid * (tc / nth) + Z.min tid (tc mod nth)))
                   = mirror T (wrap T (plower s
                           + incr * (tid * (tc / nth) + Z.min tid (tc mod nth))))).
      { apply wrap_of_mirror. unfold mirror. ring. }
      rewrite El. f_equal.
      apply wrap_of_mirror. destruct (tid <? tc mod nth); unfold mirror; ring.
    + rewrite !for_static_greedy by (try assumption; lia).
      unfold mirror_loop. cbn [plastiter plower pupper pstride].
      rewrite greedy_lower_mirrored, greedy_upper0_mirrored.
      rewrite overflow_clamp_mirrored, greedy_last_mirrored by assumption.
      reflexivity.
Qed.

Lemma for_static_chunked_mirror T tid nth tc s incr chunk :
  in_range T (plower s) ->
  in_range (signed_t T) incr -> in_range (signed_t T) (- incr) ->
  in_range (signed_t T) chunk ->
  in_range (unsigned_t T) tc -> 0 <= tid <= 4294967295 -> 0 < nth <= 4294967295 ->
  fst (fst (for_static_chunked T tid nth tc (mirror_loop T s) (- incr) chunk))
  = mirror_loop T (fst (fst (for_static_chunked T tid nth tc s incr chunk))).
Proof.
  intros Hl Hi Hi' Hc Htc Ht Hn.
  pose proof (mirror_range T _ Hl) as Hl'.
  rewrite !for_static_chunked_spec by assumption.
  unfold mirror_loop. cbn [fst plastiter plower pupper pstride].
  f_equal.
  - apply wrap_of_mirror. unfold mirror. ring.
  - apply wrap_of_mirror. unfold mirror. ring.
  - unfold wrap. eapply wrapw_by_eqm; [eqm_erase | eqm_erase | ring].
Qed.

(** X17.  A loop that counts down is solved as the mirror image of the
    loop that counts up: for an increment other than 0 whose opposite is
    in range, the single-level solver on the mirrored bounds and the
    opposite increment returns the mirrored bounds, the opposite stride
    and the same flag, for every schedule and every thread. *)
Theorem descending_mirrors_ascending T E g th schedtype s incr chunk :
  in_range T (plower s) -> in_range T (pupper s) ->
  in_range (signed_t T) incr -> in_range (signed_t T) (- incr) -> incr <> 0 ->
  in_range (signed_t T) chunk ->
  1 <= wrap kmp_uint32 (t_nproc (snd (for_resolve E th schedtype))) ->
  fst (__kmp_for_static_init T E g th schedtype (mirror_loop T s) (- incr) chunk)
  = mirror_loop T (fst (__kmp_for_static_init T E g th schedtype s incr chunk)).
Proof.
  intros Hl Hu Hi Hi' Hne Hc Hn.
  unfold __kmp_for_static_init. rewrite !fst_bind.
  change (plower (mirror_loop T s)) with (mirror T (plower s)).
  change (pupper (mirror_loop T s)) with (mirror T (pupper s)).
  rewrite zero_trip_mirror by assumption.
  destruct (zero_trip T (plower s) (pupper s) incr).
  { cbn [ret fst]. unfold mirror_loop, set_pstride, store_last.
    destruct s as [[f|] lo up st]; cbn [plastiter plower pupper pstride conv var cval];
      f_equal; unfold wrap; eapply wrapw_by_eqm; try eqm_erase; reflexivity. }
  pose proof (for_resolve_tid E th schedtype) as Htid.
  destruct (for_resolve E th schedtype) as [[sched tid] team]. cbn [snd] in Hn.
  specialize (Htid _ _ _ eq_refl).
  pose proof (wrap_range kmp_uint32 (t_nproc team)) as Hnr.
  assert (Hn' : 1 <= wrap kmp_uint32 (t_nproc team) <= 4294967295)
    by (unfold in_range in Hnr; simpl in Hnr; lia).
  assert (Hser : fst (ret (set_pstride (store_last (mirror_loop T s) true)
                        (for_serial_stride T
                           (plower (store_last (mirror_loop T s) true))
                           (pupper (store_last (mirror_loop T s) true)) (- incr)) T))
                 = mirror_loop T
                     (fst (ret (set_pstride (store_last s true)
                        (for_serial_stride T (plower (store_last s true))
                           (pupper (store_last s true)) incr) T)))).
  { cbn [ret fst]. unfold mirror_loop, set_pstride, store_last.
    destruct s as [[f|] lo up st]; cbn [plastiter plower pupper pstride] in *;
      rewrite serial_stride_mirror by assumption; reflexivity. }
  destruct (t_serialized team); [exact Hser|].
  destruct (_ == _)%cint; [exact Hser|].
  rewrite !fst_bind.
  fold (tripCount T (mirror T (plower s)) (mirror T (pupper s)) (- incr)).
  fold (tripCount T (plower s) (pupper s) incr).
  rewrite tripCount_mirror by assumption.
  pose proof (tripCount_range T (plower s) (pupper s) incr) as Htr.
  destruct (sched =? kmp_sch_static E).
  - rewrite !fst_bind. cbn [ret fst]. apply for_static_mirror; assumption.
  - destruct (sched =? kmp_sch_static_chunked E).
    + apply for_static_chunked_mirror; try assumption; lia.
    + rewrite !fst_bind. reflexivity.
Qed.

Lemma descending_mirrors_ascending_witness :
  fst (__kmpc_for_static_init_4 kmp_h (ex_globals 40) (ex_thread 1 3) 34
         (mirror_loop kmp_int32 (ex_loop 0 9)) (-1) 0)
  = mirror_loop kmp_int32
      (fst (__kmpc_for_static_init_4 kmp_h (ex_globals 40) (ex_thread 1 3) 34
              (ex_loop 0 9) 1 0)).
Proof.
  assert (Hr : forall x, -2147483648 <= x <= 2147483647 -> in_range kmp_int32 x)
    by (intros x Hx; exact Hx).
  exact (descending_mirrors_ascending kmp_int32 kmp_h (ex_globals 40) (ex_thread 1 3) 34
           (ex_loop 0 9) 1 0
           (Hr 0 ltac:(lia)) (Hr 9 ltac:(lia)) (Hr 1 ltac:(lia)) (Hr (-1) ltac:(lia))
           ltac:(lia) (Hr 0 ltac:(lia)) ltac:(vm_compute; congruence)).
Defined.
